(** * DroneComms: field codec, packet framing and message catalog

    A shallow embedding of the DroneComms wire protocol
    (field encoders/decoders, [Packet], and the message classes
    [Packet_CoreTelemetry] ... [Packet_VirtualStickCommand]) together with
    the properties of it that the protocol description relies on.

    Conventions of the embedding.
    - A [std::vector<uint8_t>] is a [list Z]; every element is meant to lie
      in [0, 256) ([bytes_ok]).  Conversions to [uint8_t], [uint16_t],
      [uint32_t] and [uint64_t] are written out as [mod 2^w].
    - A [std::vector<uint8_t>::const_iterator] is a position ([nat]) in the
      vector it iterates over.  Dereferencing a position at or beyond the end
      is undefined behaviour in the source; the embedding makes it the error
      [None] of the decoder monad [Dec].
    - A [float] / [double] is its IEEE-754 binary32 / binary64 bit pattern
      (a [Z] below [2^32] / [2^64]); [reinterpret_cast] is then the identity.
      Arithmetic and comparisons go through [spec_float] of the Standard
      Library; the sign and payload of a NaN result, which IEEE 754 leaves
      open, are those of the x86-64 target. *)

From Stdlib Require Import ZArith List Lia Bool Ascii String.
From Stdlib Require Import Floats.SpecFloat.
From stdpp Require Import base list.

Local Open Scope Z_scope.

(* ------------------------------------------------------------------ *)
(** ** Fixed-width unsigned integers *)

Definition to_uint8  (x : Z) : Z := x mod 2^8.
Definition to_uint16 (x : Z) : Z := x mod 2^16.
Definition to_uint32 (x : Z) : Z := x mod 2^32.
Definition to_uint64 (x : Z) : Z := x mod 2^64.

Definition is_uint8  (x : Z) : Prop := 0 <= x < 2^8.
Definition is_uint16 (x : Z) : Prop := 0 <= x < 2^16.
Definition is_uint32 (x : Z) : Prop := 0 <= x < 2^32.
Definition is_uint64 (x : Z) : Prop := 0 <= x < 2^64.

(** Every element of a byte vector is a [uint8_t]. *)
Definition bytes_ok (Buffer : list Z) : Prop := Forall is_uint8 Buffer.

(* ------------------------------------------------------------------ *)
(** ** Standard-type field encoders *)

Definition encodeField_uint8 (Buffer : list Z) (x : Z) : list Z :=
  Buffer ++ [to_uint8 x].

Definition encodeField_uint16 (Buffer : list Z) (x : Z) : list Z :=
  let Buffer := Buffer ++ [to_uint8 (Z.shiftr x 8)] in
  Buffer ++ [to_uint8 x].

Definition encodeField_uint32 (Buffer : list Z) (x : Z) : list Z :=
  let Buffer := Buffer ++ [to_uint8 (Z.shiftr x 24)] in
  let Buffer := Buffer ++ [to_uint8 (Z.shiftr x 16)] in
  let Buffer := Buffer ++ [to_uint8 (Z.shiftr x 8)] in
  Buffer ++ [to_uint8 x].

Definition encodeField_uint64 (Buffer : list Z) (x : Z) : list Z :=
  let Buffer := Buffer ++ [to_uint8 (Z.shiftr x 56)] in
  let Buffer := Buffer ++ [to_uint8 (Z.shiftr x 48)] in
  let Buffer := Buffer ++ [to_uint8 (Z.shiftr x 40)] in
  let Buffer := Buffer ++ [to_uint8 (Z.shiftr x 32)] in
  let Buffer := Buffer ++ [to_uint8 (Z.shiftr x 24)] in
  let Buffer := Buffer ++ [to_uint8 (Z.shiftr x 16)] in
  let Buffer := Buffer ++ [to_uint8 (Z.shiftr x 8)] in
  Buffer ++ [to_uint8 x].

(** [reinterpret_cast<uint32_t &>(x)]: a float is its bit pattern. *)
Definition encodeField_float32 (Buffer : list Z) (x : Z) : list Z :=
  encodeField_uint32 Buffer x.
Definition encodeField_float64 (Buffer : list Z) (x : Z) : list Z :=
  encodeField_uint64 Buffer x.

(* ------------------------------------------------------------------ *)
(** ** The decoder monad

    A decoder reads the vector [buf] through an iterator passed by
    reference: it receives the position, and returns its value with the
    advanced position, or [None] when it dereferences a position outside
    the vector. *)

Definition Dec (A : Type) : Type := list Z -> nat -> option (A * nat).

Definition dret {A} (a : A) : Dec A := fun _ it => Some (a, it).

Definition dbind {A B} (d : Dec A) (k : A -> Dec B) : Dec B :=
  fun buf it =>
    match d buf it with
    | Some (a, it') => k a buf it'
    | None => None
    end.

Notation "x <-- d ;; k" := (dbind d (fun x => k))
  (at level 100, d at next level, right associativity).

(** [Iter += n] *)
Definition advance (n : nat) : Dec unit := fun _ it => Some (tt, (it + n)%nat).

(** [*Iter++] *)
Definition deref_incr : Dec Z :=
  fun buf it =>
    match buf !! it with
    | Some b => Some (b, S it)
    | None => None
    end.

(* ------------------------------------------------------------------ *)
(** ** Standard-type field decoders *)

Definition decodeField_uint8 : Dec Z := deref_incr.

Definition decodeField_uint16 : Dec Z :=
  b0 <-- deref_incr ;; let value := to_uint16 (Z.shiftl (to_uint16 b0) 8) in
  b1 <-- deref_incr ;; let value := to_uint16 (value + b1) in
  dret value.

Definition decodeField_uint32 : Dec Z :=
  b0 <-- deref_incr ;; let value := to_uint32 (Z.shiftl (to_uint32 b0) 8) in
  b1 <-- deref_incr ;; let value := to_uint32 (Z.shiftl (to_uint32 (value + b1)) 8) in
  b2 <-- deref_incr ;; let value := to_uint32 (Z.shiftl (to_uint32 (value + b2)) 8) in
  b3 <-- deref_incr ;; let value := to_uint32 (value + b3) in
  dret value.

Definition decodeField_uint64 : Dec Z :=
  b0 <-- deref_incr ;; let value := to_uint64 (Z.shiftl (to_uint64 b0) 8) in
  b1 <-- deref_incr ;; let value := to_uint64 (Z.shiftl (to_uint64 (value + b1)) 8) in
  b2 <-- deref_incr ;; let value := to_uint64 (Z.shiftl (to_uint64 (value + b2)) 8) in
  b3 <-- deref_incr ;; let value := to_uint64 (Z.shiftl (to_uint64 (value + b3)) 8) in
  b4 <-- deref_incr ;; let value := to_uint64 (Z.shiftl (to_uint64 (value + b4)) 8) in
  b5 <-- deref_incr ;; let value := to_uint64 (Z.shiftl (to_uint64 (value + b5)) 8) in
  b6 <-- deref_incr ;; let value := to_uint64 (Z.shiftl (to_uint64 (value + b6)) 8) in
  b7 <-- deref_incr ;; let value := to_uint64 (value + b7) in
  dret value.

Definition decodeField_float32 : Dec Z := decodeField_uint32.
Definition decodeField_float64 : Dec Z := decodeField_uint64.

(* ------------------------------------------------------------------ *)
(** ** Signed integer fields

    A signed integer is a [Z] in the range of its type; the casts between
    the signed and the unsigned type of the same width keep the bits
    (two's complement). *)

Definition to_int8  (x : Z) : Z := if to_uint8 x  <? 2^7  then to_uint8 x  else to_uint8 x  - 2^8.
Definition to_int16 (x : Z) : Z := if to_uint16 x <? 2^15 then to_uint16 x else to_uint16 x - 2^16.
Definition to_int32 (x : Z) : Z := if to_uint32 x <? 2^31 then to_uint32 x else to_uint32 x - 2^32.
Definition to_int64 (x : Z) : Z := if to_uint64 x <? 2^63 then to_uint64 x else to_uint64 x - 2^64.

Definition encodeField_int8  (Buffer : list Z) (x : Z) : list Z :=
  encodeField_uint8 Buffer (to_uint8 x).
Definition encodeField_int16 (Buffer : list Z) (x : Z) : list Z :=
  encodeField_uint16 Buffer (to_uint16 x).
Definition encodeField_int32 (Buffer : list Z) (x : Z) : list Z :=
  encodeField_uint32 Buffer (to_uint32 x).
Definition encodeField_int64 (Buffer : list Z) (x : Z) : list Z :=
  encodeField_uint64 Buffer (to_uint64 x).

Definition decodeField_int8 : Dec Z :=
  b <-- deref_incr ;; dret (to_int8 b).
Definition decodeField_int16 : Dec Z :=
  v <-- decodeField_uint16 ;; dret (to_int16 v).
Definition decodeField_int32 : Dec Z :=
  v <-- decodeField_uint32 ;; dret (to_int32 v).
Definition decodeField_int64 : Dec Z :=
  v <-- decodeField_uint64 ;; dret (to_int64 v).

(* ------------------------------------------------------------------ *)
(** ** IEEE-754 binary interchange formats

    [mw] is the width of the stored significand and [ew] the width of the
    exponent field: (23, 8) for [float], (52, 11) for [double].  Values
    and rounding are those of IEEE 754, computed by [SpecFloat].

    IEEE 754 leaves the sign and the payload of a NaN result to the
    implementation, and [spec_float] has neither.  They are given here as
    the SSE2 arithmetic of the x86-64 target gives them: an operation or a
    conversion with a NaN operand returns that operand, sign and payload,
    with its quiet bit set (the first operand when both are NaN; in the
    source the second operand is always a literal), and an operation that
    is invalid on operands that are not NaN, as [fmod] of an infinity is,
    returns the default NaN, a quiet NaN with the sign bit set and an
    empty payload. *)

Section Interchange.
Variables mw ew : Z.

Definition fmt_prec : Z := mw + 1.
Definition fmt_emax : Z := 2^(ew - 1).
Definition fmt_emin : Z := emin fmt_prec fmt_emax.

Definition SF_of_bits (x : Z) : spec_float :=
  let s := Z.testbit x (mw + ew) in
  let e := (Z.shiftr x mw) mod 2^ew in
  let m := x mod 2^mw in
  if e =? 0 then
    match m with
    | Zpos p => S754_finite s p fmt_emin
    | _ => S754_zero s
    end
  else if e =? 2^ew - 1 then
    (if m =? 0 then S754_infinity s else S754_nan)
  else
    match m + 2^mw with
    | Zpos p => S754_finite s p (e + fmt_emin - 1)
    | _ => S754_nan
    end.

Definition sign_bit (s : bool) : Z := if s then 2^(mw + ew) else 0.

Definition bits_of_SF (f : spec_float) : Z :=
  match f with
  | S754_zero s => sign_bit s
  | S754_infinity s => sign_bit s + (2^ew - 1) * 2^mw
  | S754_nan => sign_bit true + (2^ew - 1) * 2^mw + 2^(mw - 1)
  | S754_finite s m e =>
      if Zpos m <? 2^mw then sign_bit s + Zpos m
      else sign_bit s + (e - fmt_emin + 1) * 2^mw + (Zpos m - 2^mw)
  end.

(** Rounding of a value of another format into this one (a conversion
    between [float] and [double]). *)
Definition SF_round (f : spec_float) : spec_float :=
  match f with
  | S754_finite s m e => binary_round fmt_prec fmt_emax s m e
  | _ => f
  end.
End Interchange.

Definition SF_of_float  : Z -> spec_float := SF_of_bits 23 8.
Definition float_of_SF  (f : spec_float) : Z := to_uint32 (bits_of_SF 23 8 f).
Definition SF_of_double : Z -> spec_float := SF_of_bits 52 11.
Definition double_of_SF (f : spec_float) : Z := to_uint64 (bits_of_SF 52 11 f).

Definition double_is_nan (x : Z) : bool :=
  match SF_of_double x with S754_nan => true | _ => false end.
Definition float_is_nan (x : Z) : bool :=
  match SF_of_float x with S754_nan => true | _ => false end.

(** A NaN with its quiet bit, the first bit of the stored significand,
    set. *)
Definition quiet_double (x : Z) : Z := to_uint64 (Z.lor x 0x0008000000000000).

(** [(double) x] for a [float x], and [(float) x] for a [double x].  A NaN
    keeps its sign; its payload is extended with zeros, or cut to its
    first 22 bits. *)
Definition double_of_float (x : Z) : Z :=
  if float_is_nan x then
    sign_bit 52 11 (Z.testbit x 31) + 0x7FF8000000000000 + (x mod 2^22) * 2^29
  else double_of_SF (SF_round 52 11 (SF_of_float x)).
Definition float_of_double (x : Z) : Z :=
  if double_is_nan x then
    sign_bit 23 8 (Z.testbit x 63) + 0x7FC00000 + (x mod 2^51) / 2^29
  else float_of_SF (SF_round 23 8 (SF_of_double x)).

(** Arithmetic on [double]. *)
Definition double_mul (x y : Z) : Z :=
  if double_is_nan x then quiet_double x
  else if double_is_nan y then quiet_double y
  else double_of_SF (SFmul 53 1024 (SF_of_double x) (SF_of_double y)).
Definition double_div (x y : Z) : Z :=
  if double_is_nan x then quiet_double x
  else if double_is_nan y then quiet_double y
  else double_of_SF (SFdiv 53 1024 (SF_of_double x) (SF_of_double y)).
Definition double_add (x y : Z) : Z :=
  if double_is_nan x then quiet_double x
  else if double_is_nan y then quiet_double y
  else double_of_SF (SFadd 53 1024 (SF_of_double x) (SF_of_double y)).
Definition double_sub (x y : Z) : Z :=
  if double_is_nan x then quiet_double x
  else if double_is_nan y then quiet_double y
  else double_of_SF (SFsub 53 1024 (SF_of_double x) (SF_of_double y)).
Definition double_ltb (x y : Z) : bool := SFltb (SF_of_double x) (SF_of_double y).
Definition double_eqb (x y : Z) : bool := SFeqb (SF_of_double x) (SF_of_double y).
Definition float_eqb (x y : Z) : bool := SFeqb (SF_of_float x) (SF_of_float y).

(** [fmod] of the C library on [double]: the remainder [x - n*y] with [n]
    the quotient [x/y] truncated towards zero; it is exact and has the sign
    of [x].  On an infinite [x] or a zero [y] it is an invalid operation. *)
Definition SFfmod (x y : spec_float) : spec_float :=
  match x, y with
  | S754_nan, _ | _, S754_nan => S754_nan
  | S754_infinity _, _ => S754_nan
  | _, S754_zero _ => S754_nan
  | S754_zero _, _ => x
  | S754_finite _ _ _, S754_infinity _ => x
  | S754_finite sx mx ex, S754_finite _ my ey =>
      let ez := Z.min ex ey in
      let X := Zpos (fst (shl_align mx ex ez)) in
      let Y := Zpos (fst (shl_align my ey ez)) in
      binary_normalize 53 1024 (cond_Zopp sx (X mod Y)) ez sx
  end.

Definition fmod (x y : Z) : Z :=
  if double_is_nan x then quiet_double x
  else if double_is_nan y then quiet_double y
  else double_of_SF (SFfmod (SF_of_double x) (SF_of_double y)).

(** The literals of the source. *)
Definition PI      : Z := 0x400921FB54442D11. (* #define PI 3.14159265358979 *)
Definition d_0_0   : Z := 0x0000000000000000. (* 0.0   *)
Definition d_180_0 : Z := 0x4066800000000000. (* 180.0 *)
Definition d_360_0 : Z := 0x4076800000000000. (* 360.0 *)
(** [std::nanf("")], the sentinel of the optional Waypoint fields. *)
Definition nanf : Z := 0x7FC00000.

(* ------------------------------------------------------------------ *)
(** ** Compound-type field codec: strings

    A [std::string] is a [string]; [(uint8_t) item] and [(char) b] are the
    conversions between a character and its code. *)

Definition uint8_of_char (c : ascii) : Z := Z.of_N (N_of_ascii c).
Definition char_of_uint8 (b : Z) : ascii := ascii_of_N (Z.to_N b).

Fixpoint push_chars (Buffer : list Z) (x : string) : list Z :=
  match x with
  | EmptyString => Buffer
  | String item x' => push_chars (Buffer ++ [uint8_of_char item]) x'
  end.

Definition string_size (x : string) : Z := Z.of_nat (String.length x).

Definition encodeField_String (Buffer : list Z) (x : string) : list Z :=
  let Buffer := encodeField_uint32 Buffer (to_uint32 (string_size x)) in
  push_chars Buffer x.

(** [for (n = 0; n < size; n++) S.push_back((char) *Iter++);] ([str] is
    the string [S] of the source) run on the
    part [rest] of the vector that lies at and after the iterator. *)
Fixpoint read_chars (rest : list Z) (n size : Z) (it : nat) (str : string)
  : option (string * nat) :=
  if n <? size then
    match rest with
    | [] => None
    | b :: rest' =>
        read_chars rest' (n + 1) size (S it)
                   (str ++ String (char_of_uint8 b) EmptyString)%string
    end
  else Some (str, it).

(** [MaxBytes] is passed by reference: the decoder returns its new value
    next to the string. *)
Definition decodeField_String (MaxBytes : Z) : Dec (string * Z) :=
  if MaxBytes <? 4 then
    _ <-- advance (Z.to_nat MaxBytes) ;;
    dret (EmptyString, 0)
  else
    size <-- decodeField_uint32 ;;
    let bytesForObject := to_uint32 (size + 4) in
    if bytesForObject >? MaxBytes then
      _ <-- advance (Z.to_nat MaxBytes) ;;
      dret (EmptyString, 0)
    else
      str <-- (fun buf it => read_chars (drop it buf) 0 size it EmptyString) ;;
      dret (str, to_uint32 (MaxBytes - bytesForObject)).

(* ------------------------------------------------------------------ *)
(** ** Packet

    [m_size] and [m_PID] cache the header fields; they are meaningful when
    [M_highLevelFieldsValid] is set. *)

Record Packet : Type := {
  m_data : list Z;
  m_size : Z;
  m_PID : Z;
  M_highLevelFieldsValid : bool
}.

Definition set_data (p : Packet) (data : list Z) : Packet :=
  {| m_data := data; m_size := m_size p; m_PID := m_PID p;
     M_highLevelFieldsValid := M_highLevelFieldsValid p |}.

Definition Clear (p : Packet) : Packet :=
  {| m_data := []; m_size := m_size p; m_PID := m_PID p;
     M_highLevelFieldsValid := false |}.

(** The header fields are read and cached unless they already are. *)
Definition cache_header (p : Packet) : option Packet :=
  if M_highLevelFieldsValid p then Some p
  else
    match (size <-- decodeField_uint32 ;; PID <-- decodeField_uint8 ;;
           dret (size, PID)) (m_data p) 2%nat with
    | Some ((size, PID), _) =>
        Some {| m_data := m_data p; m_size := size; m_PID := PID;
                M_highLevelFieldsValid := true |}
    | None => None
    end.

Definition IsFinished (p : Packet) : option (bool * Packet) :=
  if (length (m_data p) <? 7)%nat then Some (false, p)
  else
    match cache_header p with
    | Some p' => Some (Z.of_nat (length (m_data p')) >=? m_size p', p')
    | None => None
    end.

(** [ByteCount] is an out-parameter: its value on entry is returned when
    the method does not assign it. *)
Definition BytesNeeded (p : Packet) (ByteCount : Z) : option (bool * Z * Packet) :=
  if (length (m_data p) <? 7)%nat then Some (false, ByteCount, p)
  else
    match cache_header p with
    | Some p' =>
        let ByteCount := to_uint32 (m_size p' - to_uint32 (Z.of_nat (length (m_data p')))) in
        Some (true, ByteCount, p')
    | None => None
    end.

(** The loop of [ForwardScanForSync]: the index of the first sync field at
    or after [newHeadIndex], if the loop finds one.  [fuel] bounds the
    number of iterations. *)
Fixpoint scan_loop (data : list Z) (newHeadIndex : nat) (fuel : nat) : option nat :=
  match fuel with
  | O => None
  | S fuel' =>
      if (newHeadIndex + 1 <? length data)%nat then
        if (nth newHeadIndex data 0 =? 218) && (nth (newHeadIndex + 1) data 0 =? 167)
        then Some newHeadIndex
        else scan_loop data (S newHeadIndex) fuel'
      else None
  end.

Definition ForwardScanForSync (p : Packet) : Packet :=
  match m_data p with
  | [] => p
  | _ =>
      match scan_loop (m_data p) 1 (length (m_data p)) with
      | Some newHeadIndex =>
          {| m_data := drop newHeadIndex (m_data p);
             m_size := m_size p; m_PID := m_PID p;
             M_highLevelFieldsValid := false |}
      | None =>
          if (1 <? length (m_data p))%nat && (List.last (m_data p) 0 =? 218) then
            {| m_data := [218]; m_size := m_size p; m_PID := m_PID p;
               M_highLevelFieldsValid := false |}
          else
            {| m_data := []; m_size := m_size p; m_PID := m_PID p;
               M_highLevelFieldsValid := false |}
      end
  end.

Definition AddHeader (p : Packet) (Size PID : Z) : Packet :=
  let data := encodeField_uint16 (m_data p) 55975 in
  let data := encodeField_uint32 data Size in
  let data := encodeField_uint8 data PID in
  set_data p data.

(** One iteration of the hash loops: [hashA += m_data[n]; hashB += hashA;]
    on [uint8_t] accumulators. *)
Definition hash_step (acc : Z * Z) (b : Z) : Z * Z :=
  let hashA := to_uint8 (fst acc + b) in
  let hashB := to_uint8 (snd acc + hashA) in
  (hashA, hashB).

(** The loop over the first [count] elements of the vector. *)
Definition hash_loop (data : list Z) (count : nat) : Z * Z :=
  fold_left hash_step (take count data) (0, 0).

Definition AddHash (p : Packet) : Packet :=
  let '(hashA, hashB) := hash_loop (m_data p) (length (m_data p)) in
  let data := encodeField_uint8 (m_data p) hashA in
  let data := encodeField_uint8 data hashB in
  set_data p data.

Definition GetPID (p : Packet) (PID : Z) : option (bool * Z) :=
  if (length (m_data p) <? 7)%nat then Some (false, PID)
  else
    match decodeField_uint8 (m_data p) 6%nat with
    | Some (v, _) => Some (true, v)
    | None => None
    end.

Definition CheckHash (p : Packet) : option bool :=
  if (length (m_data p) <? 9)%nat then Some false
  else
    match decodeField_uint32 (m_data p) 2%nat with
    | None => None
    | Some (size, _) =>
        if negb (size =? Z.of_nat (length (m_data p))) then Some false
        else
          let '(hashA, hashB) := hash_loop (m_data p) (length (m_data p) - 2) in
          Some ((hashA =? nth (length (m_data p) - 2) (m_data p) 0) &&
                (hashB =? nth (length (m_data p) - 1) (m_data p) 0))
    end.

Definition CheckHashSizeAndPID (p : Packet) (PID : Z) : option bool :=
  match CheckHash p with
  | None => None
  | Some false => Some false
  | Some true =>
      match decodeField_uint8 (m_data p) 6%nat with
      | Some (v, _) => Some (v =? PID)
      | None => None
      end
  end.

(* ------------------------------------------------------------------ *)
(** ** Message catalog

    The classes are declared in DroneComms.hpp; the type of each field is
    the type of the encoder and decoder that the implementation applies to
    it.  A method that assigns fields of [*this] takes the object and gives
    back its new state; [Deserialize] returns [None] when it dereferences
    the iterator outside the packet. *)

(** Run a decoder on the payload of a packet (iterator at
    [m_data.cbegin() + 7U]) and keep its value. *)
Definition decode_payload {A} (d : Dec A) (SourcePacket : Packet) : option A :=
  match d (m_data SourcePacket) 7%nat with
  | Some (a, _) => Some a
  | None => None
  end.

Module CoreTelemetry.
Record Packet_CoreTelemetry : Type := {
  IsFlying : Z;
  Latitude : Z; Longitude : Z; Altitude : Z; HAG : Z;
  V_N : Z; V_E : Z; V_D : Z;
  Yaw : Z; Pitch : Z; Roll : Z
}.

Definition eqb (this Other : Packet_CoreTelemetry) : bool :=
  (IsFlying this =? IsFlying Other) &&
  double_eqb (Latitude this) (Latitude Other) &&
  double_eqb (Longitude this) (Longitude Other) &&
  double_eqb (Altitude this) (Altitude Other) &&
  double_eqb (HAG this) (HAG Other) &&
  float_eqb (V_N this) (V_N Other) &&
  float_eqb (V_E this) (V_E Other) &&
  float_eqb (V_D this) (V_D Other) &&
  double_eqb (Yaw this) (Yaw Other) &&
  double_eqb (Pitch this) (Pitch Other) &&
  double_eqb (Roll this) (Roll Other).

Definition Serialize (this : Packet_CoreTelemetry) (TargetPacket : Packet) : Packet :=
  let TargetPacket := Clear TargetPacket in
  let TargetPacket := AddHeader TargetPacket (to_uint32 (9 + 69)) (to_uint8 0) in
  let data := m_data TargetPacket in
  let data := encodeField_uint8   data (IsFlying this) in
  let data := encodeField_float64 data (Latitude this) in
  let data := encodeField_float64 data (Longitude this) in
  let data := encodeField_float64 data (Altitude this) in
  let data := encodeField_float64 data (HAG this) in
  let data := encodeField_float32 data (V_N this) in
  let data := encodeField_float32 data (V_E this) in
  let data := encodeField_float32 data (V_D this) in
  let data := encodeField_float64 data (Yaw this) in
  let data := encodeField_float64 data (Pitch this) in
  let data := encodeField_float64 data (Roll this) in
  AddHash (set_data TargetPacket data).

Definition decode_fields : Dec Packet_CoreTelemetry :=
  IsFlying  <-- decodeField_uint8 ;;
  Latitude  <-- decodeField_float64 ;;
  Longitude <-- decodeField_float64 ;;
  Altitude  <-- decodeField_float64 ;;
  HAG       <-- decodeField_float64 ;;
  V_N       <-- decodeField_float32 ;;
  V_E       <-- decodeField_float32 ;;
  V_D       <-- decodeField_float32 ;;
  Yaw       <-- decodeField_float64 ;;
  Pitch     <-- decodeField_float64 ;;
  Roll      <-- decodeField_float64 ;;
  dret {| IsFlying := IsFlying; Latitude := Latitude; Longitude := Longitude;
          Altitude := Altitude; HAG := HAG; V_N := V_N; V_E := V_E; V_D := V_D;
          Yaw := Yaw; Pitch := Pitch; Roll := Roll |}.

Definition Deserialize (this : Packet_CoreTelemetry) (SourcePacket : Packet)
  : option (bool * Packet_CoreTelemetry) :=
  match CheckHashSizeAndPID SourcePacket 0 with
  | None => None
  | Some false => Some (false, this)
  | Some true =>
      if negb (length (m_data SourcePacket) =? 9 + 69)%nat then Some (false, this)
      else
        match decode_payload decode_fields SourcePacket with
        | Some this' => Some (true, this')
        | None => None
        end
  end.
End CoreTelemetry.

Module ExtendedTelemetry.
Record Packet_ExtendedTelemetry : Type := {
  GNSSSatCount : Z; GNSSSignal : Z; MaxHeight : Z; MaxDist : Z;
  BatLevel : Z; BatWarning : Z; WindLevel : Z; DJICam : Z;
  FlightMode : Z; MissionID : Z; DroneSerial : string
}.

Definition eqb (this Other : Packet_ExtendedTelemetry) : bool :=
  (GNSSSatCount this =? GNSSSatCount Other) &&
  (GNSSSignal this =? GNSSSignal Other) &&
  (MaxHeight this =? MaxHeight Other) &&
  (MaxDist this =? MaxDist Other) &&
  (BatLevel this =? BatLevel Other) &&
  (BatWarning this =? BatWarning Other) &&
  (WindLevel this =? WindLevel Other) &&
  (DJICam this =? DJICam Other) &&
  (FlightMode this =? FlightMode Other) &&
  (MissionID this =? MissionID Other) &&
  String.eqb (DroneSerial this) (DroneSerial Other).

Definition Serialize (this : Packet_ExtendedTelemetry) (TargetPacket : Packet) : Packet :=
  let TargetPacket := Clear TargetPacket in
  let TargetPacket :=
    AddHeader TargetPacket
      (to_uint32 (9 + 12 + 4 + string_size (DroneSerial this))) (to_uint8 1) in
  let data := m_data TargetPacket in
  let data := encodeField_uint16 data (GNSSSatCount this) in
  let data := encodeField_uint8  data (GNSSSignal this) in
  let data := encodeField_uint8  data (MaxHeight this) in
  let data := encodeField_uint8  data (MaxDist this) in
  let data := encodeField_uint8  data (BatLevel this) in
  let data := encodeField_uint8  data (BatWarning this) in
  let data := encodeField_uint8  data (WindLevel this) in
  let data := encodeField_uint8  data (DJICam this) in
  let data := encodeField_uint8  data (FlightMode this) in
  let data := encodeField_uint16 data (MissionID this) in
  let data := encodeField_String data (DroneSerial this) in
  AddHash (set_data TargetPacket data).

Definition decode_fields (size : nat) : Dec Packet_ExtendedTelemetry :=
  GNSSSatCount <-- decodeField_uint16 ;;
  GNSSSignal   <-- decodeField_uint8 ;;
  MaxHeight    <-- decodeField_uint8 ;;
  MaxDist      <-- decodeField_uint8 ;;
  BatLevel     <-- decodeField_uint8 ;;
  BatWarning   <-- decodeField_uint8 ;;
  WindLevel    <-- decodeField_uint8 ;;
  DJICam       <-- decodeField_uint8 ;;
  FlightMode   <-- decodeField_uint8 ;;
  MissionID    <-- decodeField_uint16 ;;
  let MaxBytesForStr := to_uint32 (to_uint32 (Z.of_nat size) - 9 - 12) in
  sm <-- decodeField_String MaxBytesForStr ;;
  dret {| GNSSSatCount := GNSSSatCount; GNSSSignal := GNSSSignal;
          MaxHeight := MaxHeight; MaxDist := MaxDist; BatLevel := BatLevel;
          BatWarning := BatWarning; WindLevel := WindLevel; DJICam := DJICam;
          FlightMode := FlightMode; MissionID := MissionID;
          DroneSerial := fst sm |}.

Definition Deserialize (this : Packet_ExtendedTelemetry) (SourcePacket : Packet)
  : option (bool * Packet_ExtendedTelemetry) :=
  match CheckHashSizeAndPID SourcePacket 1 with
  | None => None
  | Some false => Some (false, this)
  | Some true =>
      if (length (m_data SourcePacket) <? 9 + 16)%nat then Some (false, this)
      else
        match decode_payload (decode_fields (length (m_data SourcePacket))) SourcePacket with
        | Some this' => Some (true, this')
        | None => None
        end
  end.
End ExtendedTelemetry.

Module Acknowledgment.
Record Packet_Acknowledgment : Type := { Positive : Z; SourcePID : Z }.

Definition eqb (this Other : Packet_Acknowledgment) : bool :=
  (Positive this =? Positive Other) && (SourcePID this =? SourcePID Other).

Definition Serialize (this : Packet_Acknowledgment) (TargetPacket : Packet) : Packet :=
  let TargetPacket := Clear TargetPacket in
  let TargetPacket := AddHeader TargetPacket (to_uint32 (9 + 2)) (to_uint8 3) in
  let data := m_data TargetPacket in
  let data := encodeField_uint8 data (Positive this) in
  let data := encodeField_uint8 data (SourcePID this) in
  AddHash (set_data TargetPacket data).

Definition decode_fields : Dec Packet_Acknowledgment :=
  Positive  <-- decodeField_uint8 ;;
  SourcePID <-- decodeField_uint8 ;;
  dret {| Positive := Positive; SourcePID := SourcePID |}.

Definition Deserialize (this : Packet_Acknowledgment) (SourcePacket : Packet)
  : option (bool * Packet_Acknowledgment) :=
  match CheckHashSizeAndPID SourcePacket 3 with
  | None => None
  | Some false => Some (false, this)
  | Some true =>
      if negb (length (m_data SourcePacket) =? 9 + 2)%nat then Some (false, this)
      else
        match decode_payload decode_fields SourcePacket with
        | Some this' => Some (true, this')
        | None => None
        end
  end.
End Acknowledgment.

Module MessageString.
Record Packet_MessageString : Type := { Type_ : Z; Message : string }.

Definition eqb (this Other : Packet_MessageString) : bool :=
  (Type_ this =? Type_ Other) && String.eqb (Message this) (Message Other).

Definition Serialize (this : Packet_MessageString) (TargetPacket : Packet) : Packet :=
  let TargetPacket := Clear TargetPacket in
  let TargetPacket :=
    AddHeader TargetPacket
      (to_uint32 (9 + 1 + 4 + string_size (Message this))) (to_uint8 4) in
  let data := m_data TargetPacket in
  let data := encodeField_uint8  data (Type_ this) in
  let data := encodeField_String data (Message this) in
  AddHash (set_data TargetPacket data).

Definition decode_fields (size : nat) : Dec Packet_MessageString :=
  Type_ <-- decodeField_uint8 ;;
  let MaxBytesForStr := to_uint32 (to_uint32 (Z.of_nat size) - 9 - 1) in
  sm <-- decodeField_String MaxBytesForStr ;;
  dret {| Type_ := Type_; Message := fst sm |}.

Definition Deserialize (this : Packet_MessageString) (SourcePacket : Packet)
  : option (bool * Packet_MessageString) :=
  match CheckHashSizeAndPID SourcePacket 4 with
  | None => None
  | Some false => Some (false, this)
  | Some true =>
      if (length (m_data SourcePacket) <? 9 + 5)%nat then Some (false, this)
      else
        match decode_payload (decode_fields (length (m_data SourcePacket))) SourcePacket with
        | Some this' => Some (true, this')
        | None => None
        end
  end.
End MessageString.

Module EmergencyCommand.
Record Packet_EmergencyCommand : Type := { Action : Z }.

Definition eqb (this Other : Packet_EmergencyCommand) : bool :=
  Action this =? Action Other.

Definition Serialize (this : Packet_EmergencyCommand) (TargetPacket : Packet) : Packet :=
  let TargetPacket := Clear TargetPacket in
  let TargetPacket := AddHeader TargetPacket (to_uint32 (9 + 1)) (to_uint8 255) in
  let data := m_data TargetPacket in
  let data := encodeField_uint8 data (Action this) in
  AddHash (set_data TargetPacket data).

Definition decode_fields : Dec Packet_EmergencyCommand :=
  Action <-- decodeField_uint8 ;;
  dret {| Action := Action |}.

Definition Deserialize (this : Packet_EmergencyCommand) (SourcePacket : Packet)
  : option (bool * Packet_EmergencyCommand) :=
  match CheckHashSizeAndPID SourcePacket 255 with
  | None => None
  | Some false => Some (false, this)
  | Some true =>
      if negb (length (m_data SourcePacket) =? 9 + 1)%nat then Some (false, this)
      else
        match decode_payload decode_fields SourcePacket with
        | Some this' => Some (true, this')
        | None => None
        end
  end.
End EmergencyCommand.

Module CameraControl.
Record Packet_CameraControl : Type := { Action : Z; TargetFPS : Z }.

Definition eqb (this Other : Packet_CameraControl) : bool :=
  (Action this =? Action Other) && float_eqb (TargetFPS this) (TargetFPS Other).

Definition Serialize (this : Packet_CameraControl) (TargetPacket : Packet) : Packet :=
  let TargetPacket := Clear TargetPacket in
  let TargetPacket := AddHeader TargetPacket (to_uint32 (9 + 5)) (to_uint8 254) in
  let data := m_data TargetPacket in
  let data := encodeField_uint8   data (Action this) in
  let data := encodeField_float32 data (TargetFPS this) in
  AddHash (set_data TargetPacket data).

Definition decode_fields : Dec Packet_CameraControl :=
  Action    <-- decodeField_uint8 ;;
  TargetFPS <-- decodeField_float32 ;;
  dret {| Action := Action; TargetFPS := TargetFPS |}.

Definition Deserialize (this : Packet_CameraControl) (SourcePacket : Packet)
  : option (bool * Packet_CameraControl) :=
  match CheckHashSizeAndPID SourcePacket 254 with
  | None => None
  | Some false => Some (false, this)
  | Some true =>
      if negb (length (m_data SourcePacket) =? 9 + 5)%nat then Some (false, this)
      else
        match decode_payload decode_fields SourcePacket with
        | Some this' => Some (true, this')
        | None => None
        end
  end.
End CameraControl.

(** [struct Waypoint]: angles in radians; NaN in [LoiterTime] or
    [GimbalPitch] means that the action is absent. *)
Record Waypoint : Type := {
  Latitude : Z; Longitude : Z; RelAltitude : Z;
  CornerRadius : Z; Speed : Z; LoiterTime : Z; GimbalPitch : Z
}.

Definition Waypoint_eqb (this Other : Waypoint) : bool :=
  double_eqb (Latitude this) (Latitude Other) &&
  double_eqb (Longitude this) (Longitude Other) &&
  double_eqb (RelAltitude this) (RelAltitude Other) &&
  float_eqb (CornerRadius this) (CornerRadius Other) &&
  float_eqb (Speed this) (Speed Other) &&
  float_eqb (LoiterTime this) (LoiterTime Other) &&
  float_eqb (GimbalPitch this) (GimbalPitch Other).

(** [x*180.0/PI] and [x*PI/180.0] on [double]. *)
Definition deg_of_rad (x : Z) : Z := double_div (double_mul x d_180_0) PI.
Definition rad_of_deg (x : Z) : Z := double_div (double_mul x PI) d_180_0.

Module ExecuteWaypointMission.
Record Packet_ExecuteWaypointMission : Type := {
  LandAtEnd : Z; CurvedFlight : Z; Waypoints : list Waypoint
}.

(** The loop of [operator==] over the indices [n], [n+1], ... of two
    vectors of equal size, given by their elements from [n] on. *)
Fixpoint waypoints_eqb (ws ws' : list Waypoint) : bool :=
  match ws, ws' with
  | w :: ws, w' :: ws' => if negb (Waypoint_eqb w w') then false else waypoints_eqb ws ws'
  | _, _ => true
  end.

Definition eqb (this Other : Packet_ExecuteWaypointMission) : bool :=
  if negb (LandAtEnd this =? LandAtEnd Other) || negb (CurvedFlight this =? CurvedFlight Other)
  then false
  else if negb (length (Waypoints this) =? length (Waypoints Other))%nat then false
  else waypoints_eqb (Waypoints this) (Waypoints Other).

(** The body of the loop over the waypoints in [Serialize]. *)
Definition encode_waypoint (data : list Z) (waypoint : Waypoint) : list Z :=
  let data := encodeField_float64 data (deg_of_rad (Latitude waypoint)) in
  let data := encodeField_float64 data (deg_of_rad (Longitude waypoint)) in
  let data := encodeField_float64 data (RelAltitude waypoint) in
  let data := encodeField_float32 data (CornerRadius waypoint) in
  let data := encodeField_float32 data (Speed waypoint) in
  let data := encodeField_float32 data (LoiterTime waypoint) in
  encodeField_float32 data
    (float_of_double (deg_of_rad (double_of_float (GimbalPitch waypoint)))).

Definition Serialize (this : Packet_ExecuteWaypointMission) (TargetPacket : Packet) : Packet :=
  let TargetPacket := Clear TargetPacket in
  let TargetPacket :=
    AddHeader TargetPacket
      (to_uint32 (9 + 2 + to_uint32 (40 * to_uint32 (Z.of_nat (length (Waypoints this))))))
      (to_uint8 253) in
  let data := m_data TargetPacket in
  let data := encodeField_uint8 data (LandAtEnd this) in
  let data := encodeField_uint8 data (CurvedFlight this) in
  let data := fold_left encode_waypoint (Waypoints this) data in
  AddHash (set_data TargetPacket data).

(** The body of the loop in [Deserialize]: one waypoint is appended. *)
Definition decode_waypoint : Dec Waypoint :=
  Latitude     <-- decodeField_float64 ;;
  Longitude    <-- decodeField_float64 ;;
  RelAltitude  <-- decodeField_float64 ;;
  CornerRadius <-- decodeField_float32 ;;
  Speed        <-- decodeField_float32 ;;
  LoiterTime   <-- decodeField_float32 ;;
  GimbalPitch  <-- decodeField_float32 ;;
  dret {| Latitude := rad_of_deg Latitude;
          Longitude := rad_of_deg Longitude;
          RelAltitude := RelAltitude;
          CornerRadius := CornerRadius;
          Speed := Speed;
          LoiterTime := LoiterTime;
          GimbalPitch := float_of_double (rad_of_deg (double_of_float GimbalPitch)) |}.

Fixpoint decode_waypoints (numWaypoints : nat) (Waypoints : list Waypoint)
  : Dec (list Waypoint) :=
  match numWaypoints with
  | O => dret Waypoints
  | S n =>
      waypoint <-- decode_waypoint ;;
      decode_waypoints n (Waypoints ++ [waypoint])
  end.

Definition Deserialize (this : Packet_ExecuteWaypointMission) (SourcePacket : Packet)
  : option (bool * Packet_ExecuteWaypointMission) :=
  match CheckHashSizeAndPID SourcePacket 253 with
  | None => None
  | Some false => Some (false, this)
  | Some true =>
      if (length (m_data SourcePacket) <? 9 + 2 + 40)%nat then Some (false, this)
      else
        decode_payload
          (LandAtEnd <-- decodeField_uint8 ;;
           CurvedFlight <-- decodeField_uint8 ;;
           let this := {| LandAtEnd := LandAtEnd; CurvedFlight := CurvedFlight;
                          Waypoints := [] |} in
           let waypointBytes :=
             to_uint32 (to_uint32 (Z.of_nat (length (m_data SourcePacket))) - 9 - 2) in
           if negb (waypointBytes mod 40 =? 0) then dret (false, this)
           else
             let numWaypoints := waypointBytes / 40 in
             Waypoints <-- decode_waypoints (Z.to_nat numWaypoints) [] ;;
             dret (true, {| LandAtEnd := LandAtEnd; CurvedFlight := CurvedFlight;
                            Waypoints := Waypoints |}))
          SourcePacket
  end.
End ExecuteWaypointMission.

Module VirtualStickCommand.
Record Packet_VirtualStickCommand : Type := {
  Mode : Z; Yaw : Z; V_x : Z; V_y : Z; HAG : Z; timeout : Z
}.

Definition eqb (this Other : Packet_VirtualStickCommand) : bool :=
  (Mode this =? Mode Other) &&
  float_eqb (Yaw this) (Yaw Other) &&
  float_eqb (V_x this) (V_x Other) &&
  float_eqb (V_y this) (V_y Other) &&
  float_eqb (HAG this) (HAG Other) &&
  float_eqb (timeout this) (timeout Other).

(** "Map to degrees in the range [-180, 180]": the [float yaw_deg] that
    [Serialize] computes from [Yaw]. *)
Definition yaw_deg_of (Yaw : Z) : Z :=
  let yaw_deg := float_of_double (deg_of_rad (double_of_float Yaw)) in
  let yaw_deg := float_of_double (fmod (double_of_float yaw_deg) d_360_0) in
  let yaw_deg :=
    if double_ltb (double_of_float yaw_deg) d_0_0
    then float_of_double (double_add (double_of_float yaw_deg) d_360_0)
    else yaw_deg in
  let yaw_deg :=
    if double_ltb d_180_0 (double_of_float yaw_deg)
    then float_of_double (double_sub (double_of_float yaw_deg) d_360_0)
    else yaw_deg in
  yaw_deg.

Definition Serialize (this : Packet_VirtualStickCommand) (TargetPacket : Packet) : Packet :=
  let TargetPacket := Clear TargetPacket in
  let TargetPacket := AddHeader TargetPacket (to_uint32 (9 + 21)) (to_uint8 252) in
  let data := m_data TargetPacket in
  let data := encodeField_uint8   data (Mode this) in
  let yaw_deg := yaw_deg_of (Yaw this) in
  let data := encodeField_float32 data yaw_deg in
  let data := encodeField_float32 data (V_x this) in
  let data := encodeField_float32 data (V_y this) in
  let data := encodeField_float32 data (HAG this) in
  let data := encodeField_float32 data (timeout this) in
  AddHash (set_data TargetPacket data).

Definition decode_fields : Dec Packet_VirtualStickCommand :=
  Mode    <-- decodeField_uint8 ;;
  Yaw     <-- decodeField_float32 ;;
  V_x     <-- decodeField_float32 ;;
  V_y     <-- decodeField_float32 ;;
  HAG     <-- decodeField_float32 ;;
  timeout <-- decodeField_float32 ;;
  dret {| Mode := Mode;
          Yaw := float_of_double (rad_of_deg (double_of_float Yaw));
          V_x := V_x; V_y := V_y; HAG := HAG; timeout := timeout |}.

Definition Deserialize (this : Packet_VirtualStickCommand) (SourcePacket : Packet)
  : option (bool * Packet_VirtualStickCommand) :=
  match CheckHashSizeAndPID SourcePacket 252 with
  | None => None
  | Some false => Some (false, this)
  | Some true =>
      if negb (length (m_data SourcePacket) =? 9 + 21)%nat then Some (false, this)
      else
        match decode_payload decode_fields SourcePacket with
        | Some this' => Some (true, this')
        | None => None
        end
  end.
End VirtualStickCommand.

(** *** Raw images

    Of a [cv::Mat] the codec uses [type()], [rows], [cols] and
    [at<cv::Vec3b>(row, col)].  The embedding keeps these: the pixels, each
    the triple of the channels 0, 1, 2 (blue, green, red), lie row by row
    in a list, as they do in the memory of a continuous matrix.  [rows] and
    [cols] are [int]; the products of [int] are modelled where they do not
    overflow. *)
Module Image.
Record Mat : Type := {
  type_ : Z;
  rows : Z;
  cols : Z;
  pixels : list (Z * Z * Z)
}.

Definition CV_8UC3 : Z := 16.

(** [x.at<cv::Vec3b>(row, col)], and the assignment to it. *)
Definition at_ (x : Mat) (row col : Z) : Z * Z * Z :=
  nth (Z.to_nat (row * cols x + col)) (pixels x) (0, 0, 0).

Definition set_at (x : Mat) (row col : Z) (pixel : Z * Z * Z) : Mat :=
  {| type_ := type_ x; rows := rows x; cols := cols x;
     pixels := <[Z.to_nat (row * cols x + col) := pixel]> (pixels x) |}.

(** [cv::Mat(rows, cols, CV_8UC3)]: the pixels are not initialised; the
    embedding fills them with zeros, and the allocation always succeeds. *)
Definition new_Mat (rows cols : Z) : Mat :=
  {| type_ := CV_8UC3; rows := rows; cols := cols;
     pixels := repeat (0, 0, 0) (Z.to_nat (rows * cols)) |}.

(** The values that [for (int i = 0; i < n; i++)] gives to [i]. *)
Definition range (n : Z) : list Z := map Z.of_nat (seq 0 (Z.to_nat n)).

Definition encodeField_Image (Buffer : list Z) (x : Mat) : list Z :=
  if negb (type_ x =? CV_8UC3) then Buffer
  else
    let Buffer := encodeField_uint16 Buffer (to_uint16 (rows x)) in
    let Buffer := encodeField_uint16 Buffer (to_uint16 (cols x)) in
    fold_left
      (fun Buffer row =>
         fold_left
           (fun Buffer col =>
              let pixel := at_ x row col in
              let Buffer := encodeField_uint8 Buffer (snd pixel) in
              let Buffer := encodeField_uint8 Buffer (snd (fst pixel)) in
              encodeField_uint8 Buffer (fst (fst pixel)))
           (range (cols x)) Buffer)
      (range (rows x)) Buffer.

(** A loop whose body decodes. *)
Fixpoint dfold {S A : Type} (body : S -> A -> Dec S) (l : list A) (s : S) : Dec S :=
  match l with
  | [] => dret s
  | a :: l' => s' <-- body s a ;; dfold body l' s'
  end.

(** [MaxBytes] is passed by reference: the decoder returns its new value
    next to the image.  [nrows] and [ncols] are the [rows] and [cols] of
    the source. *)
Definition decodeField_Image (MaxBytes : Z) : Dec (Mat * Z) :=
  if MaxBytes <? 4 then
    _ <-- advance (Z.to_nat MaxBytes) ;;
    dret (new_Mat 0 0, 0)
  else
    nrows <-- decodeField_uint16 ;;
    ncols <-- decodeField_uint16 ;;
    let totalBytes := to_uint32 (to_uint32 (to_uint32 (nrows * ncols) * 3) + 4) in
    if totalBytes >? MaxBytes then
      _ <-- advance (Z.to_nat MaxBytes) ;;
      dret (new_Mat 0 0, 0)
    else
      Image <-- dfold
        (fun Image row =>
           dfold
             (fun Image col =>
                R <-- decodeField_uint8 ;;
                G <-- decodeField_uint8 ;;
                B <-- decodeField_uint8 ;;
                dret (set_at Image row col (B, G, R)))
             (range (cols Image)) Image)
        (range (rows (new_Mat nrows ncols))) (new_Mat nrows ncols) ;;
      dret (Image, MaxBytes).

Record Packet_Image : Type := { TargetFPS : Z; Frame : Mat }.

Definition pixel_eqb (A B : Z * Z * Z) : bool :=
  negb (negb (fst (fst A) =? fst (fst B)) || negb (snd (fst A) =? snd (fst B))
        || negb (snd A =? snd B)).

Definition eqb (this Other : Packet_Image) : bool :=
  if negb (float_eqb (TargetFPS this) (TargetFPS Other)) then false
  else if negb (rows (Frame this) =? rows (Frame Other))
          || negb (cols (Frame this) =? cols (Frame Other)) then false
  else if negb (type_ (Frame this) =? type_ (Frame Other)) then false
  else
    forallb
      (fun row =>
         forallb
           (fun col => pixel_eqb (at_ (Frame this) row col) (at_ (Frame Other) row col))
           (range (cols (Frame this))))
      (range (rows (Frame this))).

Definition Serialize (this : Packet_Image) (TargetPacket : Packet) : Packet :=
  let TargetPacket := Clear TargetPacket in
  let TargetPacket :=
    AddHeader TargetPacket
      (to_uint32 (9 + 4 + 4 + to_uint32 (rows (Frame this) * cols (Frame this) * 3)))
      (to_uint8 2) in
  let data := m_data TargetPacket in
  let data := encodeField_float32 data (TargetFPS this) in
  let data := encodeField_Image data (Frame this) in
  AddHash (set_data TargetPacket data).

Definition decode_fields (size : nat) : Dec Packet_Image :=
  TargetFPS <-- decodeField_float32 ;;
  let MaxBytesForImage := to_uint32 (to_uint32 (Z.of_nat size) - 9 - 4) in
  im <-- decodeField_Image MaxBytesForImage ;;
  dret {| TargetFPS := TargetFPS; Frame := fst im |}.

Definition Deserialize (this : Packet_Image) (SourcePacket : Packet)
  : option (bool * Packet_Image) :=
  match CheckHashSizeAndPID SourcePacket 2 with
  | None => None
  | Some false => Some (false, this)
  | Some true =>
      if (length (m_data SourcePacket) <? 9 + 8)%nat then Some (false, this)
      else
        match decode_payload (decode_fields (length (m_data SourcePacket))) SourcePacket with
        | Some this' => Some (true, this')
        | None => None
        end
  end.
End Image.

(** [cv::Mat] and the JPEG encoder of OpenCV are outside the repository:
    the image type, the test [x.type() == CV_8UC3] and the bytes that
    [cv::imencode(".jpg", x, buff, param)] leaves in [buff] are parameters. *)
Module CompressedImage.
Section OpenCV.
Variable Mat : Type.
Variable is_CV_8UC3 : Mat -> bool.
Variable imencode_jpg : Mat -> list Z.

Record Packet_CompressedImage : Type := { TargetFPS : Z; Frame : Mat }.

Definition encodeField_CompressedImage (Buffer : list Z) (x : Mat) : list Z :=
  if negb (is_CV_8UC3 x) then Buffer
  else
    let buff := imencode_jpg x in
    Buffer ++ buff.

Definition Serialize (this : Packet_CompressedImage) (TargetPacket : Packet) : Packet :=
  let TargetPacket := Clear TargetPacket in
  let TargetPacket := AddHeader TargetPacket (to_uint32 0) (to_uint8 5) in
  let data := m_data TargetPacket in
  let data := encodeField_float32 data (TargetFPS this) in
  let data := encodeField_CompressedImage data (Frame this) in
  let packetSize := to_uint32 (to_uint32 (Z.of_nat (length data)) + 2) in
  let data := <[2%nat := to_uint8 (Z.shiftr packetSize 24)]> data in
  let data := <[3%nat := to_uint8 (Z.shiftr packetSize 16)]> data in
  let data := <[4%nat := to_uint8 (Z.shiftr packetSize 8)]> data in
  let data := <[5%nat := to_uint8 packetSize]> data in
  AddHash (set_data TargetPacket data).

(** The JPEG decoder is outside the repository as well: the image that
    [cv::imdecode(buffer, cv::IMREAD_COLOR)] returns and the empty
    [cv::Mat()] are parameters. *)
Variable imdecode_color : list Z -> Mat.
Variable empty_Mat : Mat.

(** [std::vector<uint8_t> buffer(Iter, Iter + NumBytes)] copies the range
    and leaves the iterator where it is; a range that ends behind the end
    of the vector is a read outside it. *)
Definition decodeField_CompressedImage (NumBytes : Z) : Dec Mat :=
  fun buf Iter =>
    if (Iter + Z.to_nat NumBytes <=? length buf)%nat then
      let buffer := take (Z.to_nat NumBytes) (drop Iter buf) in
      let image := imdecode_color buffer in
      if negb (is_CV_8UC3 image) then Some (empty_Mat, Iter)
      else Some (image, Iter)
    else None.

Definition decode_fields (size : nat) : Dec Packet_CompressedImage :=
  TargetFPS <-- decodeField_float32 ;;
  let JPEGNumBytes := to_uint32 (to_uint32 (Z.of_nat size) - 9 - 4) in
  Frame <-- decodeField_CompressedImage JPEGNumBytes ;;
  dret {| TargetFPS := TargetFPS; Frame := Frame |}.

Definition Deserialize (this : Packet_CompressedImage) (SourcePacket : Packet)
  : option (bool * Packet_CompressedImage) :=
  match CheckHashSizeAndPID SourcePacket 5 with
  | None => None
  | Some false => Some (false, this)
  | Some true =>
      if (length (m_data SourcePacket) <? 9 + 4)%nat then Some (false, this)
      else
        match decode_payload (decode_fields (length (m_data SourcePacket))) SourcePacket with
        | Some this' => Some (true, this')
        | None => None
        end
  end.
End OpenCV.
End CompressedImage.

(* ------------------------------------------------------------------ *)
(** ** Notions used to state the properties *)

(** The bytes of a [w]-byte unsigned integer, most significant first, and
    the number that a sequence of bytes denotes, most significant first. *)
Fixpoint be_bytes (w : nat) (x : Z) : list Z :=
  match w with
  | O => []
  | S w' => to_uint8 (Z.shiftr x (8 * Z.of_nat w')) :: be_bytes w' x
  end.

Definition be_value (bs : list Z) : Z := fold_left (fun v b => v * 256 + b) bs 0.

(** The part of a vector that holds [n] bytes from offset [off] on. *)
Definition slice (off n : nat) (data : list Z) : list Z := take n (drop off data).

(** The codes of the characters of a string. *)
Fixpoint string_bytes (x : string) : list Z :=
  match x with
  | EmptyString => []
  | String c x' => uint8_of_char c :: string_bytes x'
  end.

(** [reads d bytes v]: wherever [bytes] lies in a vector, the decoder [d]
    started at its first byte returns [v] and leaves the iterator just
    behind its last byte. *)
Definition reads {A} (d : Dec A) (bytes : list Z) (v : A) : Prop :=
  forall pre post,
    d (pre ++ bytes ++ post) (length pre) = Some (v, (length pre + length bytes)%nat).

(** The two-stage running sum in the words of the protocol description:
    byte by byte, [accA += byte; accB += accA], both modulo 256, from
    [accA = accB = 0]. *)
Inductive RunningSums : list Z -> Z -> Z -> Prop :=
| RunningSums_nil : RunningSums [] 0 0
| RunningSums_snoc bytes byte accA accB :
    RunningSums bytes accA accB ->
    RunningSums (bytes ++ [byte]) ((accA + byte) mod 256)
                ((accB + (accA + byte) mod 256) mod 256).

(** A complete packet around [payload]: sync field, size, PID, payload and
    the two hash bytes. *)
Definition frame_body (Size PID : Z) (payload : list Z) : list Z :=
  [218; 167] ++ be_bytes 4 Size ++ [to_uint8 PID] ++ payload.

Definition frame (Size PID : Z) (payload : list Z) : list Z :=
  let body := frame_body Size PID payload in
  body ++ [fst (hash_loop body (length body)); snd (hash_loop body (length body))].

(** The sync field [0xDA, 0xA7] lies in the vector at index [i]. *)
Definition sync_at (data : list Z) (i : nat) : Prop :=
  data !! i = Some 218 /\ data !! S i = Some 167.

(** [i] is the first index from 1 on at which the sync field lies. *)
Definition first_sync (data : list Z) (i : nat) : Prop :=
  (1 <= i)%nat /\ sync_at data i /\
  forall j, (1 <= j < i)%nat -> ~ sync_at data j.

(** The sync field lies nowhere in the vector from index 1 on. *)
Definition no_sync (data : list Z) : Prop :=
  forall j, (1 <= j)%nat -> ~ sync_at data j.

(** [bytes_ok] as a test. *)
Definition bytes_okb (data : list Z) : bool :=
  forallb (fun b => (0 <=? b) && (b <? 256)) data.

(** A packet that was not used before. *)
Definition fresh_packet : Packet :=
  {| m_data := []; m_size := 0; m_PID := 0; M_highLevelFieldsValid := false |}.

(** A receive buffer that holds the given bytes. *)
Definition packet_of (data : list Z) : Packet :=
  {| m_data := data; m_size := 0; m_PID := 0; M_highLevelFieldsValid := false |}.

(** The total size that the header of a packet advertises: the cached value
    when the cache is valid, the size field at byte offsets 2-5 otherwise. *)
Definition advertised_size (p : Packet) : Z :=
  if M_highLevelFieldsValid p then m_size p else be_value (slice 2 4 (m_data p)).

(** A buffer of 8 bytes whose header advertises 7. *)
Definition overlong_packet : Packet := packet_of [218; 167; 0; 0; 0; 7; 3; 0].

(** A MessageString packet (PID 4, 14 bytes, valid hash) whose string
    length field holds [0xFFFFFFFF]. *)
Definition oversized_string_packet : Packet :=
  packet_of (frame 14 4 [0; 255; 255; 255; 255]).

(** [consumes d n]: wherever [n] bytes are left in a vector, the decoder
    [d] returns a value and moves the iterator by [n]; it does so whatever
    the bytes are. *)
Definition consumes {A} (d : Dec A) (n : nat) : Prop :=
  forall buf it, (it + n <= length buf)%nat ->
                 exists v, d buf it = Some (v, (it + n)%nat).

(** An ExecuteWaypointMission packet (PID 253, valid hash) of 52 bytes: its
    waypoint list holds 41 bytes. *)
Definition misaligned_mission_packet : Packet :=
  packet_of (frame 52 253 (repeat 1 43)).

(** The default-constructed [Waypoint]: [CornerRadius = 0.2f],
    [Speed = 1.0f], both optional fields absent. *)
Definition default_waypoint : Waypoint :=
  {| Latitude := 0; Longitude := 0; RelAltitude := 0;
     CornerRadius := 0x3E4CCCCD; Speed := 0x3F800000;
     LoiterTime := nanf; GimbalPitch := nanf |}.

(** A mission of one default waypoint, and its packet. *)
Definition one_waypoint_mission : ExecuteWaypointMission.Packet_ExecuteWaypointMission :=
  {| ExecuteWaypointMission.LandAtEnd := 1;
     ExecuteWaypointMission.CurvedFlight := 0;
     ExecuteWaypointMission.Waypoints := [default_waypoint] |}.

Definition one_waypoint_packet : Packet :=
  ExecuteWaypointMission.Serialize one_waypoint_mission fresh_packet.

(** For the examples, an image is the byte sequence that the JPEG encoder
    makes of it. *)
Definition stub_image_message : CompressedImage.Packet_CompressedImage (list Z) :=
  {| CompressedImage.TargetFPS := 0x41200000;
     CompressedImage.Frame := [255; 216; 255; 217] |}.

Definition stub_image_packet : Packet :=
  CompressedImage.Serialize (list Z) (fun _ => true) (fun x => x)
                            stub_image_message fresh_packet.

(** An encoder output of [2^32 - 13] bytes, and the packet that
    [Serialize] makes of an image with that output: with the four bytes of
    [TargetFPS] and the nine of header and hash it is [2^32] bytes long. *)
Definition huge_jpeg : list Z := repeat 0 (Z.to_nat (2^32 - 13)).

Definition huge_image_packet : Packet :=
  CompressedImage.Serialize unit (fun _ => true) (fun _ => huge_jpeg)
    {| CompressedImage.TargetFPS := 0x41200000; CompressedImage.Frame := tt |}
    fresh_packet.

(** *** Values that survive the wire

    The values of the fields lie in the range of their types, and the
    packet length fits the 32-bit size field. *)

Definition CoreTelemetry_fits (m : CoreTelemetry.Packet_CoreTelemetry) : Prop :=
  is_uint8 (CoreTelemetry.IsFlying m) /\
  is_uint64 (CoreTelemetry.Latitude m) /\ is_uint64 (CoreTelemetry.Longitude m) /\
  is_uint64 (CoreTelemetry.Altitude m) /\ is_uint64 (CoreTelemetry.HAG m) /\
  is_uint32 (CoreTelemetry.V_N m) /\ is_uint32 (CoreTelemetry.V_E m) /\
  is_uint32 (CoreTelemetry.V_D m) /\
  is_uint64 (CoreTelemetry.Yaw m) /\ is_uint64 (CoreTelemetry.Pitch m) /\
  is_uint64 (CoreTelemetry.Roll m).

Definition ExtendedTelemetry_fits (m : ExtendedTelemetry.Packet_ExtendedTelemetry) : Prop :=
  is_uint16 (ExtendedTelemetry.GNSSSatCount m) /\
  is_uint8 (ExtendedTelemetry.GNSSSignal m) /\ is_uint8 (ExtendedTelemetry.MaxHeight m) /\
  is_uint8 (ExtendedTelemetry.MaxDist m) /\ is_uint8 (ExtendedTelemetry.BatLevel m) /\
  is_uint8 (ExtendedTelemetry.BatWarning m) /\ is_uint8 (ExtendedTelemetry.WindLevel m) /\
  is_uint8 (ExtendedTelemetry.DJICam m) /\ is_uint8 (ExtendedTelemetry.FlightMode m) /\
  is_uint16 (ExtendedTelemetry.MissionID m) /\
  9 + 12 + 4 + string_size (ExtendedTelemetry.DroneSerial m) < 2^32.

Definition Acknowledgment_fits (m : Acknowledgment.Packet_Acknowledgment) : Prop :=
  is_uint8 (Acknowledgment.Positive m) /\ is_uint8 (Acknowledgment.SourcePID m).

Definition MessageString_fits (m : MessageString.Packet_MessageString) : Prop :=
  is_uint8 (MessageString.Type_ m) /\
  9 + 1 + 4 + string_size (MessageString.Message m) < 2^32.

Definition EmergencyCommand_fits (m : EmergencyCommand.Packet_EmergencyCommand) : Prop :=
  is_uint8 (EmergencyCommand.Action m).

Definition CameraControl_fits (m : CameraControl.Packet_CameraControl) : Prop :=
  is_uint8 (CameraControl.Action m) /\ is_uint32 (CameraControl.TargetFPS m).

Definition Waypoint_fits (w : Waypoint) : Prop :=
  is_uint64 (Latitude w) /\ is_uint64 (Longitude w) /\ is_uint64 (RelAltitude w) /\
  is_uint32 (CornerRadius w) /\ is_uint32 (Speed w) /\
  is_uint32 (LoiterTime w) /\ is_uint32 (GimbalPitch w).

Definition ExecuteWaypointMission_fits
    (m : ExecuteWaypointMission.Packet_ExecuteWaypointMission) : Prop :=
  is_uint8 (ExecuteWaypointMission.LandAtEnd m) /\
  is_uint8 (ExecuteWaypointMission.CurvedFlight m) /\
  Forall Waypoint_fits (ExecuteWaypointMission.Waypoints m) /\
  9 + 2 + 40 * Z.of_nat (length (ExecuteWaypointMission.Waypoints m)) < 2^32.

Definition VirtualStickCommand_fits
    (m : VirtualStickCommand.Packet_VirtualStickCommand) : Prop :=
  is_uint8 (VirtualStickCommand.Mode m) /\
  is_uint32 (VirtualStickCommand.Yaw m) /\ is_uint32 (VirtualStickCommand.V_x m) /\
  is_uint32 (VirtualStickCommand.V_y m) /\ is_uint32 (VirtualStickCommand.HAG m) /\
  is_uint32 (VirtualStickCommand.timeout m).

(** What [Deserialize] makes of a serialized waypoint: the angles have gone
    through the conversion to degrees and back. *)
Definition Waypoint_through_wire (w : Waypoint) : Waypoint :=
  {| Latitude := rad_of_deg (deg_of_rad (Latitude w));
     Longitude := rad_of_deg (deg_of_rad (Longitude w));
     RelAltitude := RelAltitude w;
     CornerRadius := CornerRadius w;
     Speed := Speed w;
     LoiterTime := LoiterTime w;
     GimbalPitch :=
       float_of_double (rad_of_deg (double_of_float
         (float_of_double (deg_of_rad (double_of_float (GimbalPitch w)))))) |}.

Definition VirtualStickCommand_through_wire
    (m : VirtualStickCommand.Packet_VirtualStickCommand)
  : VirtualStickCommand.Packet_VirtualStickCommand :=
  {| VirtualStickCommand.Mode := VirtualStickCommand.Mode m;
     VirtualStickCommand.Yaw :=
       float_of_double (rad_of_deg (double_of_float
         (VirtualStickCommand.yaw_deg_of (VirtualStickCommand.Yaw m))));
     VirtualStickCommand.V_x := VirtualStickCommand.V_x m;
     VirtualStickCommand.V_y := VirtualStickCommand.V_y m;
     VirtualStickCommand.HAG := VirtualStickCommand.HAG m;
     VirtualStickCommand.timeout := VirtualStickCommand.timeout m |}.

(** The 40 bytes of a waypoint on the wire. *)
Definition waypoint_bytes (w : Waypoint) : list Z :=
  be_bytes 8 (deg_of_rad (Latitude w)) ++
  be_bytes 8 (deg_of_rad (Longitude w)) ++
  be_bytes 8 (RelAltitude w) ++
  be_bytes 4 (CornerRadius w) ++
  be_bytes 4 (Speed w) ++
  be_bytes 4 (LoiterTime w) ++
  be_bytes 4 (float_of_double (deg_of_rad (double_of_float (GimbalPitch w)))).

(** The waypoint that the 40 bytes at offset [off] of a vector denote:
    three doubles and four floats, most significant byte first, in the
    order latitude, longitude, altitude, corner radius, speed, loiter
    time, gimbal pitch, the three angles in degrees. *)
Definition waypoint_at (data : list Z) (off : nat) : Waypoint :=
  {| Latitude := rad_of_deg (be_value (slice off 8 data));
     Longitude := rad_of_deg (be_value (slice (off + 8) 8 data));
     RelAltitude := be_value (slice (off + 16) 8 data);
     CornerRadius := be_value (slice (off + 24) 4 data);
     Speed := be_value (slice (off + 28) 4 data);
     LoiterTime := be_value (slice (off + 32) 4 data);
     GimbalPitch :=
       float_of_double (rad_of_deg (double_of_float
         (be_value (slice (off + 36) 4 data)))) |}.

(** *** Example messages *)

Definition ack_example : Acknowledgment.Packet_Acknowledgment :=
  {| Acknowledgment.Positive := 1; Acknowledgment.SourcePID := 253 |}.

Definition emergency_example : EmergencyCommand.Packet_EmergencyCommand :=
  {| EmergencyCommand.Action := 2 |}.

(** [Action = 1], [TargetFPS = 10.0f]. *)
Definition camera_example : CameraControl.Packet_CameraControl :=
  {| CameraControl.Action := 1; CameraControl.TargetFPS := 0x41200000 |}.

(** Flying at 45.0, -93.0 degrees, 250.0 m, 10.0 m above ground, 1.0 m/s
    north, heading 90.0 degrees. *)
Definition telemetry_example : CoreTelemetry.Packet_CoreTelemetry :=
  {| CoreTelemetry.IsFlying := 1;
     CoreTelemetry.Latitude := 0x4046800000000000;
     CoreTelemetry.Longitude := 0xC057400000000000;
     CoreTelemetry.Altitude := 0x406F400000000000;
     CoreTelemetry.HAG := 0x4024000000000000;
     CoreTelemetry.V_N := 0x3F800000;
     CoreTelemetry.V_E := 0;
     CoreTelemetry.V_D := 0;
     CoreTelemetry.Yaw := 0x4056800000000000;
     CoreTelemetry.Pitch := 0;
     CoreTelemetry.Roll := 0 |}.

Definition extended_example : ExtendedTelemetry.Packet_ExtendedTelemetry :=
  {| ExtendedTelemetry.GNSSSatCount := 12; ExtendedTelemetry.GNSSSignal := 5;
     ExtendedTelemetry.MaxHeight := 1; ExtendedTelemetry.MaxDist := 0;
     ExtendedTelemetry.BatLevel := 87; ExtendedTelemetry.BatWarning := 0;
     ExtendedTelemetry.WindLevel := 1; ExtendedTelemetry.DJICam := 1;
     ExtendedTelemetry.FlightMode := 9; ExtendedTelemetry.MissionID := 513;
     ExtendedTelemetry.DroneSerial := "0TQDF6D" |}.

Definition message_example : MessageString.Packet_MessageString :=
  {| MessageString.Type_ := 1; MessageString.Message := "hello" |}.

(** Mode A, yaw 1.5707964f rad, 1.0 m/s along x, 10.0 m above ground,
    timeout 2.0 s. *)
Definition stick_example : VirtualStickCommand.Packet_VirtualStickCommand :=
  {| VirtualStickCommand.Mode := 0;
     VirtualStickCommand.Yaw := 0x3FC90FDB;
     VirtualStickCommand.V_x := 0x3F800000;
     VirtualStickCommand.V_y := 0;
     VirtualStickCommand.HAG := 0x41200000;
     VirtualStickCommand.timeout := 0x40000000 |}.

(** No floating-point field of the waypoint is a NaN. *)
Definition Waypoint_no_nan (w : Waypoint) : bool :=
  negb (double_is_nan (Latitude w)) && negb (double_is_nan (Longitude w)) &&
  negb (double_is_nan (RelAltitude w)) &&
  negb (float_is_nan (CornerRadius w)) && negb (float_is_nan (Speed w)) &&
  negb (float_is_nan (LoiterTime w)) && negb (float_is_nan (GimbalPitch w)).

(** A waypoint at 0.7 rad, -2.1 rad, 30.0 m above home, loitering 5.0 s with
    the gimbal pitched by -0.5 rad, and the mission that flies to it. *)
Definition survey_waypoint : Waypoint :=
  {| Latitude := 0x3FE6666666666666; Longitude := 0xC000CCCCCCCCCCCD;
     RelAltitude := 0x403E000000000000;
     CornerRadius := 0x3E4CCCCD; Speed := 0x3F800000;
     LoiterTime := 0x40A00000; GimbalPitch := 0xBF000000 |}.

Definition survey_mission : ExecuteWaypointMission.Packet_ExecuteWaypointMission :=
  {| ExecuteWaypointMission.LandAtEnd := 0;
     ExecuteWaypointMission.CurvedFlight := 1;
     ExecuteWaypointMission.Waypoints := [survey_waypoint; survey_waypoint] |}.

(** *** Raw images on the wire *)

(** The three bytes of a pixel on the wire: red, green, blue. *)
Definition pixel_bytes (pixel : Z * Z * Z) : list Z :=
  [to_uint8 (snd pixel); to_uint8 (snd (fst pixel)); to_uint8 (fst (fst pixel))].

Definition pixel_ok (pixel : Z * Z * Z) : Prop :=
  is_uint8 (fst (fst pixel)) /\ is_uint8 (snd (fst pixel)) /\ is_uint8 (snd pixel).

(** A three-channel 8-bit image whose dimensions fit the 16-bit fields and
    whose packet length stays in the range of [int]. *)
Definition Mat_ok (x : Image.Mat) : Prop :=
  Image.type_ x = Image.CV_8UC3 /\
  0 <= Image.rows x < 2^16 /\ 0 <= Image.cols x < 2^16 /\
  length (Image.pixels x) = Z.to_nat (Image.rows x * Image.cols x) /\
  Forall pixel_ok (Image.pixels x) /\
  9 + 4 + 4 + Image.rows x * Image.cols x * 3 < 2^31.

(** The pixels [l] with those from index [k] on replaced by [ps]. *)
Definition overwrite (l : list (Z * Z * Z)) (k : nat) (ps : list (Z * Z * Z))
  : list (Z * Z * Z) :=
  take k l ++ ps ++ drop (k + length ps) l.

(** A 2 x 2 image and its message at 10.0 frames per second. *)
Definition checker_image : Image.Mat :=
  {| Image.type_ := Image.CV_8UC3; Image.rows := 2; Image.cols := 2;
     Image.pixels := [(255, 0, 0); (0, 255, 0); (0, 0, 255); (10, 20, 30)] |}.

Definition image_example : Image.Packet_Image :=
  {| Image.TargetFPS := 0x41200000; Image.Frame := checker_image |}.

(** The matrix [x] with other pixels. *)
Definition with_pixels (x : Image.Mat) (l : list (Z * Z * Z)) : Image.Mat :=
  {| Image.type_ := Image.type_ x; Image.rows := Image.rows x;
     Image.cols := Image.cols x; Image.pixels := l |}.

(** A single-channel 8-bit frame (type [CV_8UC1], 0) of 2 by 2 pixels; the
    codec never reads its pixels. *)
Definition gray_image_example : Image.Packet_Image :=
  {| Image.TargetFPS := 0x41200000;
     Image.Frame := {| Image.type_ := 0; Image.rows := 2; Image.cols := 2;
                       Image.pixels := [] |} |}.

(** The bytes of a Packet_Image packet (PID 2, valid size field and hash)
    that announces a frame of [rows] by [cols] pixels and carries the
    bytes [rest] behind the two dimensions. *)
Definition image_frame (fps rows cols : Z) (rest : list Z) : list Z :=
  frame (Z.of_nat (length rest + 17)) 2
        (be_bytes 4 fps ++ be_bytes 2 rows ++ be_bytes 2 cols ++ rest).

(** A packet that announces 100 by 100 pixels and carries two of them. *)
Definition truncated_image_packet : Packet :=
  packet_of (image_frame 0x41200000 100 100 [1; 2; 3; 4; 5; 6]).

(** A packet of 18 bytes that announces 45761 by 62571 pixels:
    [3 * 45761 * 62571 + 4 = 2^33 + 5]. *)
Definition wrapping_image_packet : Packet :=
  packet_of (image_frame 0x41200000 45761 62571 [7]).
(* ================================================================== *)
(** * Properties *)

(* ------------------------------------------------------------------ *)
(** ** Big-endian layout of the integer fields *)

Lemma encodeField_uint8_bytes Buffer x :
  encodeField_uint8 Buffer x = Buffer ++ be_bytes 1 x.
Proof. unfold encodeField_uint8. simpl. rewrite Z.shiftr_0_r. reflexivity. Qed.

Lemma encodeField_uint16_bytes Buffer x :
  encodeField_uint16 Buffer x = Buffer ++ be_bytes 2 x.
Proof.
  unfold encodeField_uint16. cbn [be_bytes]. rewrite <- !app_assoc.
  simpl. rewrite Z.shiftr_0_r. reflexivity.
Qed.

Lemma encodeField_uint32_bytes Buffer x :
  encodeField_uint32 Buffer x = Buffer ++ be_bytes 4 x.
Proof.
  unfold encodeField_uint32. cbn [be_bytes]. rewrite <- !app_assoc.
  simpl. rewrite Z.shiftr_0_r. reflexivity.
Qed.

Lemma encodeField_uint64_bytes Buffer x :
  encodeField_uint64 Buffer x = Buffer ++ be_bytes 8 x.
Proof.
  unfold encodeField_uint64. cbn [be_bytes]. rewrite <- !app_assoc.
  simpl. rewrite Z.shiftr_0_r. reflexivity.
Qed.

Lemma be_bytes_length w x : length (be_bytes w x) = w.
Proof. induction w; simpl; congruence. Qed.

Lemma to_uint8_range x : is_uint8 (to_uint8 x).
Proof. unfold is_uint8, to_uint8. apply Z.mod_pos_bound. lia. Qed.

Lemma be_bytes_ok w x : bytes_ok (be_bytes w x).
Proof.
  induction w; simpl; constructor; auto using to_uint8_range.
Qed.

Lemma be_value_acc bs a :
  fold_left (fun v b => v * 256 + b) bs a
  = a * 256 ^ Z.of_nat (length bs) + be_value bs.
Proof.
  unfold be_value. revert a. induction bs as [|b bs IH]; intros a.
  - simpl. lia.
  - cbn [fold_left length]. rewrite (IH (a * 256 + b)), (IH (0 * 256 + b)).
    rewrite Nat2Z.inj_succ, Z.pow_succ_r by lia. lia.
Qed.

Lemma be_value_app bs bs' :
  be_value (bs ++ bs') = be_value bs * 256 ^ Z.of_nat (length bs') + be_value bs'.
Proof.
  unfold be_value at 1. rewrite fold_left_app. apply be_value_acc.
Qed.

Lemma be_value_cons b bs :
  be_value (b :: bs) = b * 256 ^ Z.of_nat (length bs) + be_value bs.
Proof. change (b :: bs) with ([b] ++ bs). rewrite be_value_app. reflexivity. Qed.

Lemma be_value_be_bytes w x :
  be_value (be_bytes w x) = x mod 2 ^ (8 * Z.of_nat w).
Proof.
  induction w as [|w IH].
  - simpl. rewrite Z.mod_1_r. reflexivity.
  - cbn [be_bytes]. rewrite be_value_cons, IH, be_bytes_length.
    unfold to_uint8. rewrite Z.shiftr_div_pow2 by lia.
    replace (8 * Z.of_nat (S w)) with (8 * Z.of_nat w + 8) by lia.
    rewrite Z.pow_add_r by lia.
    replace (256 ^ Z.of_nat w) with (2 ^ (8 * Z.of_nat w))
      by (rewrite Z.pow_mul_r by lia; reflexivity).
    rewrite Z.rem_mul_r by lia. lia.
Qed.

Lemma be_value_range bs : bytes_ok bs -> 0 <= be_value bs < 256 ^ Z.of_nat (length bs).
Proof.
  induction 1 as [|b bs Hb _ IH].
  - simpl. unfold be_value. simpl. lia.
  - rewrite be_value_cons. cbn [length]. rewrite Nat2Z.inj_succ, Z.pow_succ_r by lia.
    unfold is_uint8 in Hb. change (2^8) with 256 in Hb.
    assert (0 < 256 ^ Z.of_nat (length bs)) by (apply Z.pow_pos_nonneg; lia).
    nia.
Qed.

(* ------------------------------------------------------------------ *)
(** ** Decoders read what encoders write *)

Lemma reads_ret {A} (v : A) : reads (dret v) [] v.
Proof. intros pre post. unfold dret. simpl. rewrite Nat.add_0_r. reflexivity. Qed.

Lemma reads_bind {A B} (d : Dec A) (k : A -> Dec B) bs bs' v v' :
  reads d bs v -> reads (k v) bs' v' -> reads (dbind d k) (bs ++ bs') v'.
Proof.
  intros Hd Hk pre post. unfold dbind.
  rewrite <- app_assoc, Hd.
  specialize (Hk (pre ++ bs) post).
  rewrite <- app_assoc, length_app in Hk. rewrite Hk.
  rewrite length_app, Nat.add_assoc. reflexivity.
Qed.

(** The last field of a message: nothing is read after it. *)
Lemma reads_bind_ret {A B} (d : Dec A) (f : A -> B) bs v :
  reads d bs v -> reads (dbind d (fun x => dret (f x))) bs (f v).
Proof.
  intros Hd. rewrite <- (app_nil_r bs).
  eapply reads_bind; [exact Hd | apply reads_ret].
Qed.

Lemma reads_deref_incr b : reads deref_incr [b] b.
Proof.
  intros pre post. unfold deref_incr.
  rewrite lookup_app_r, Nat.sub_diag by lia. simpl.
  f_equal. f_equal. lia.
Qed.

Lemma reads_uint8 x : is_uint8 x -> reads decodeField_uint8 (be_bytes 1 x) x.
Proof.
  intros Hx. unfold decodeField_uint8. cbn [be_bytes].
  replace (to_uint8 (Z.shiftr x (8 * Z.of_nat 0))) with x.
  - apply reads_deref_incr.
  - simpl. rewrite Z.shiftr_0_r. unfold to_uint8, is_uint8 in *.
    rewrite Z.mod_small; lia.
Qed.

Ltac unfold_uint :=
  unfold is_uint8, is_uint16, is_uint32, is_uint64,
         to_uint8, to_uint16, to_uint32, to_uint64 in *;
  change (2^8) with 256 in *; change (2^16) with 65536 in *;
  change (2^32) with 4294967296 in *;
  change (2^64) with 18446744073709551616 in *.

Ltac mod_small :=
  repeat match goal with
         | |- context [?a mod ?b] => rewrite (Z.mod_small a b) by lia
         end.

Lemma reads_uint16_value b0 b1 :
  is_uint8 b0 -> is_uint8 b1 ->
  reads decodeField_uint16 [b0; b1] (be_value [b0; b1]).
Proof.
  intros H0 H1. unfold decodeField_uint16.
  change [b0; b1] with ([b0] ++ [b1]).
  eapply reads_bind; [apply reads_deref_incr|].
  replace (be_value ([b0] ++ [b1]))
    with (to_uint16 (to_uint16 (Z.shiftl (to_uint16 b0) 8) + b1)).
  - apply (reads_bind_ret deref_incr
             (fun b1 => to_uint16 (to_uint16 (Z.shiftl (to_uint16 b0) 8) + b1))).
    apply reads_deref_incr.
  - unfold be_value. simpl. rewrite Z.shiftl_mul_pow2 by lia.
    unfold_uint. mod_small. lia.
Qed.

Lemma reads_uint32_value b0 b1 b2 b3 :
  is_uint8 b0 -> is_uint8 b1 -> is_uint8 b2 -> is_uint8 b3 ->
  reads decodeField_uint32 [b0; b1; b2; b3] (be_value [b0; b1; b2; b3]).
Proof.
  intros H0 H1 H2 H3. unfold decodeField_uint32.
  change [b0; b1; b2; b3] with ([b0] ++ [b1] ++ [b2] ++ [b3]).
  do 3 (eapply reads_bind; [apply reads_deref_incr|]).
  match goal with
  | |- reads (dbind _ ?k) _ ?v =>
      let f := constr:(fun b3 : Z => to_uint32 (to_uint32 (Z.shiftl (to_uint32 (to_uint32 (Z.shiftl (to_uint32 (to_uint32 (Z.shiftl (to_uint32 b0) 8) + b1)) 8) + b2)) 8) + b3)) in
      replace v with (f b3); [apply (reads_bind_ret deref_incr f), reads_deref_incr|]
  end.
  unfold be_value. simpl. rewrite !Z.shiftl_mul_pow2 by lia.
  unfold_uint. mod_small. lia.
Qed.

Lemma reads_uint64_value b0 b1 b2 b3 b4 b5 b6 b7 :
  is_uint8 b0 -> is_uint8 b1 -> is_uint8 b2 -> is_uint8 b3 ->
  is_uint8 b4 -> is_uint8 b5 -> is_uint8 b6 -> is_uint8 b7 ->
  reads decodeField_uint64 [b0; b1; b2; b3; b4; b5; b6; b7]
        (be_value [b0; b1; b2; b3; b4; b5; b6; b7]).
Proof.
  intros H0 H1 H2 H3 H4 H5 H6 H7. unfold decodeField_uint64.
  change [b0; b1; b2; b3; b4; b5; b6; b7]
    with ([b0] ++ [b1] ++ [b2] ++ [b3] ++ [b4] ++ [b5] ++ [b6] ++ [b7]).
  do 7 (eapply reads_bind; [apply reads_deref_incr|]).
  match goal with
  | |- reads (dbind _ (fun x => dret (@?f x))) _ ?v =>
      replace v with (f b7); [apply (reads_bind_ret deref_incr f), reads_deref_incr|]
  end.
  unfold be_value. simpl. rewrite !Z.shiftl_mul_pow2 by lia.
  unfold_uint. mod_small. lia.
Qed.

Lemma be_bytes_uint8 w x : Forall is_uint8 (be_bytes w x).
Proof. apply be_bytes_ok. Qed.

Lemma reads_uint16 x : is_uint16 x -> reads decodeField_uint16 (be_bytes 2 x) x.
Proof.
  intros Hx.
  pose proof (be_value_be_bytes 2 x) as Hv.
  rewrite Z.mod_small in Hv by (unfold is_uint16 in Hx; simpl; lia).
  rewrite <- Hv at 2. cbn [be_bytes].
  apply reads_uint16_value; apply to_uint8_range.
Qed.

Lemma reads_uint32 x : is_uint32 x -> reads decodeField_uint32 (be_bytes 4 x) x.
Proof.
  intros Hx.
  pose proof (be_value_be_bytes 4 x) as Hv.
  rewrite Z.mod_small in Hv by (unfold is_uint32 in Hx; simpl; lia).
  rewrite <- Hv at 2. cbn [be_bytes].
  apply reads_uint32_value; apply to_uint8_range.
Qed.

Lemma reads_uint64 x : is_uint64 x -> reads decodeField_uint64 (be_bytes 8 x) x.
Proof.
  intros Hx.
  pose proof (be_value_be_bytes 8 x) as Hv.
  rewrite Z.mod_small in Hv by (unfold is_uint64 in Hx; simpl; lia).
  rewrite <- Hv at 2. cbn [be_bytes].
  apply reads_uint64_value; apply to_uint8_range.
Qed.

Lemma reads_float32 x : is_uint32 x -> reads decodeField_float32 (be_bytes 4 x) x.
Proof. exact (reads_uint32 x). Qed.

Lemma reads_float64 x : is_uint64 x -> reads decodeField_float64 (be_bytes 8 x) x.
Proof. exact (reads_uint64 x). Qed.

(** *** Strings *)

Lemma uint8_of_char_range c : is_uint8 (uint8_of_char c).
Proof.
  unfold is_uint8, uint8_of_char. pose proof (N_ascii_bounded c). simpl. lia.
Qed.

Lemma char_of_uint8_of_char c : char_of_uint8 (uint8_of_char c) = c.
Proof.
  unfold char_of_uint8, uint8_of_char. rewrite N2Z.id. apply ascii_N_embedding.
Qed.

Lemma push_chars_bytes Buffer x : push_chars Buffer x = Buffer ++ string_bytes x.
Proof.
  revert Buffer. induction x as [|c x IH]; intros Buffer; simpl.
  - rewrite app_nil_r. reflexivity.
  - rewrite IH, <- app_assoc. reflexivity.
Qed.

Lemma string_bytes_length x : length (string_bytes x) = String.length x.
Proof. induction x; simpl; congruence. Qed.

Lemma encodeField_String_bytes Buffer x :
  encodeField_String Buffer x
  = Buffer ++ be_bytes 4 (to_uint32 (string_size x)) ++ string_bytes x.
Proof.
  unfold encodeField_String.
  rewrite push_chars_bytes, encodeField_uint32_bytes, <- app_assoc. reflexivity.
Qed.

Lemma string_app_assoc (a b c : string) : ((a ++ b) ++ c = a ++ (b ++ c))%string.
Proof. induction a; simpl; congruence. Qed.

Lemma string_app_nil_r (a : string) : (a ++ "" = a)%string.
Proof. induction a; simpl; congruence. Qed.

Lemma read_chars_string x post n it str :
  read_chars (string_bytes x ++ post) n (n + string_size x) it str
  = Some ((str ++ x)%string, (it + String.length x)%nat).
Proof.
  revert n it str. induction x as [|c x IH]; intros n it str.
  - unfold string_size. simpl. rewrite Z.add_0_r.
    destruct post; simpl; rewrite Z.ltb_irrefl, Nat.add_0_r, string_app_nil_r; reflexivity.
  - cbn [string_bytes app read_chars].
    replace (n <? n + string_size (String c x)) with true
      by (symmetry; apply Z.ltb_lt; unfold string_size; simpl String.length; lia).
    replace (n + string_size (String c x)) with ((n + 1) + string_size x)
      by (unfold string_size; simpl String.length; lia).
    rewrite IH, char_of_uint8_of_char, string_app_assoc. simpl.
    f_equal. f_equal. lia.
Qed.

Lemma reads_String x MaxBytes :
  string_size x + 4 <= MaxBytes -> MaxBytes < 2^32 ->
  reads (decodeField_String MaxBytes)
        (be_bytes 4 (to_uint32 (string_size x)) ++ string_bytes x)
        (x, MaxBytes - (string_size x + 4)).
Proof.
  intros Hle Hmax.
  assert (Hsz : 0 <= string_size x) by (unfold string_size; lia).
  assert (Hu : to_uint32 (string_size x) = string_size x)
    by (unfold to_uint32; apply Z.mod_small; lia).
  rewrite Hu. unfold decodeField_String.
  replace (MaxBytes <? 4) with false by (symmetry; apply Z.ltb_ge; lia).
  eapply reads_bind; [apply reads_uint32; unfold is_uint32; lia|].
  replace (to_uint32 (string_size x + 4)) with (string_size x + 4)
    by (unfold to_uint32; rewrite Z.mod_small; lia).
  replace (string_size x + 4 >? MaxBytes) with false
    by (symmetry; rewrite Z.gtb_ltb; apply Z.ltb_ge; lia).
  replace (to_uint32 (MaxBytes - (string_size x + 4))) with (MaxBytes - (string_size x + 4))
    by (unfold to_uint32; rewrite Z.mod_small; lia).
  apply (reads_bind_ret _ (fun str => (str, MaxBytes - (string_size x + 4)))).
  intros pre post.
  rewrite drop_app_length.
  pose proof (read_chars_string x post 0 (length pre) EmptyString) as H.
  rewrite Z.add_0_l in H. rewrite H, string_bytes_length. reflexivity.
Qed.

(** *** Decoding at an offset of a vector *)

Lemma slice_length off n (data : list Z) :
  (off + n <= length data)%nat -> length (slice off n data) = n.
Proof. intros H. unfold slice. rewrite length_take, length_drop. lia. Qed.

Lemma slice_split off n (data : list Z) :
  data = take off data ++ slice off n data ++ drop (off + n) data.
Proof.
  unfold slice. rewrite <- (take_drop off data) at 1. f_equal.
  rewrite <- (take_drop n (drop off data)) at 1. f_equal.
  rewrite drop_drop. reflexivity.
Qed.

Lemma reads_at {A} (d : Dec A) bs v off data :
  reads d bs v -> slice off (length bs) data = bs ->
  (off + length bs <= length data)%nat ->
  d data off = Some (v, (off + length bs)%nat).
Proof.
  intros Hd Hs Hlen.
  rewrite (slice_split off (length bs) data) at 1. rewrite Hs.
  specialize (Hd (take off data) (drop (off + length bs) data)).
  rewrite length_take, Nat.min_l in Hd by lia. exact Hd.
Qed.

Lemma bytes_ok_slice off n data : bytes_ok data -> bytes_ok (slice off n data).
Proof.
  unfold bytes_ok, slice. intros H.
  apply Forall_take, Forall_drop, H.
Qed.

Lemma decodeField_uint32_at data off :
  bytes_ok data -> (off + 4 <= length data)%nat ->
  decodeField_uint32 data off = Some (be_value (slice off 4 data), (off + 4)%nat).
Proof.
  intros Hok Hlen.
  pose proof (slice_length off 4 data Hlen) as Hl.
  pose proof (bytes_ok_slice off 4 data Hok) as Hs.
  destruct (slice off 4 data) as [|b0 [|b1 [|b2 [|b3 [|? ?]]]]] eqn:E; try discriminate.
  unfold bytes_ok in Hs. rewrite !Forall_cons in Hs.
  destruct Hs as (H0 & H1 & H2 & H3 & _).
  apply (reads_at decodeField_uint32 [b0; b1; b2; b3]); auto using reads_uint32_value.
Qed.

Lemma deref_incr_at data off b :
  data !! off = Some b -> deref_incr data off = Some (b, S off).
Proof. intros H. unfold deref_incr. rewrite H. reflexivity. Qed.

(* ------------------------------------------------------------------ *)
(** ** The hash *)

Lemma hash_loop_all data : hash_loop data (length data) = fold_left hash_step data (0, 0).
Proof. unfold hash_loop. rewrite firstn_all. reflexivity. Qed.

Lemma hash_loop_take data count :
  hash_loop data count = fold_left hash_step (take count data) (0, 0).
Proof. reflexivity. Qed.

Lemma RunningSums_fold bytes :
  RunningSums bytes (fst (fold_left hash_step bytes (0, 0)))
              (snd (fold_left hash_step bytes (0, 0))).
Proof.
  induction bytes as [|b bytes IH] using rev_ind.
  - constructor.
  - rewrite fold_left_app. cbn [fold_left]. unfold hash_step at 1 3.
    cbn [fst snd]. unfold to_uint8. change (2^8) with 256.
    constructor. exact IH.
Qed.

Lemma RunningSums_unique bytes accA accB :
  RunningSums bytes accA accB -> fold_left hash_step bytes (0, 0) = (accA, accB).
Proof.
  induction 1 as [|bytes b a c _ IH].
  - reflexivity.
  - rewrite fold_left_app, IH. reflexivity.
Qed.

Lemma RunningSums_range bytes accA accB :
  RunningSums bytes accA accB -> is_uint8 accA /\ is_uint8 accB.
Proof.
  destruct 1; unfold is_uint8; change (2^8) with 256.
  - lia.
  - split; apply Z.mod_pos_bound; lia.
Qed.

(** The sums in closed form: [accA] is the sum of the bytes, and [accB] the
    sum of the bytes weighted by their distance to the end, modulo 256. *)
Lemma RunningSums_closed_form bytes accA accB :
  RunningSums bytes accA accB ->
  accA = (fold_right Z.add 0 bytes) mod 256 /\
  accB = (fold_right Z.add 0
            (imap (fun i b => (Z.of_nat (length bytes) - Z.of_nat i) * b) bytes)) mod 256.
Proof.
  induction 1 as [|bytes b a c _ [IHa IHc]].
  - split; reflexivity.
  - assert (Hsum : forall l l' : list Z,
               fold_right Z.add 0 (l ++ l') = fold_right Z.add 0 l + fold_right Z.add 0 l').
    { induction l; intros; simpl; [lia | rewrite IHl; lia]. }
    assert (Hw : forall (l : list Z) k,
               fold_right Z.add 0 (imap (fun i x => (k + 1 - Z.of_nat i) * x) l)
               = fold_right Z.add 0 (imap (fun i x => (k - Z.of_nat i) * x) l)
                 + fold_right Z.add 0 l).
    { induction l as [|x l IHl]; intros k; [reflexivity|].
      cbn [imap fold_right].
      rewrite (imap_ext _ (fun i y => ((k - 1) + 1 - Z.of_nat i) * y) l)
        by (intros; simpl; f_equal; lia).
      rewrite IHl.
      rewrite (imap_ext (fun i y => (k - 1 - Z.of_nat i) * y)
                        (fun i y => (k - Z.of_nat (S i)) * y) l)
        by (intros; simpl; f_equal; lia).
      unfold compose. simpl Z.of_nat. lia. }
    split.
    + rewrite Hsum, IHa. simpl. rewrite Z.add_0_r, Zplus_mod_idemp_l. reflexivity.
    + rewrite imap_app, Hsum, length_app. cbn [length imap fold_right].
      rewrite Nat2Z.inj_add. simpl (Z.of_nat 1).
      rewrite Hw, IHc, IHa.
      generalize (fold_right Z.add 0 bytes).
      generalize (fold_right Z.add 0
                    (imap (fun i x => (Z.of_nat (length bytes) - Z.of_nat i) * x) bytes)).
      intros W T. rewrite Nat.add_0_r.
      replace ((Z.of_nat (length bytes) + 1 - Z.of_nat (length bytes)) * b + 0) with b by lia.
      Z.div_mod_to_equations. lia.
Qed.

Lemma hash_step_range acc b : is_uint8 (fst (hash_step acc b)) /\ is_uint8 (snd (hash_step acc b)).
Proof. unfold hash_step. simpl. split; apply to_uint8_range. Qed.

Lemma to_uint8_small x : is_uint8 x -> to_uint8 x = x.
Proof. unfold is_uint8, to_uint8. intros. apply Z.mod_small. lia. Qed.

Lemma AddHash_data p :
  m_data (AddHash p)
  = m_data p ++ [fst (fold_left hash_step (m_data p) (0, 0));
                 snd (fold_left hash_step (m_data p) (0, 0))].
Proof.
  unfold AddHash. rewrite hash_loop_all.
  pose proof (RunningSums_fold (m_data p)) as HR.
  apply RunningSums_range in HR. destruct HR as [Ha Hb].
  destruct (fold_left hash_step (m_data p) (0, 0)) as [hashA hashB]. simpl in *.
  unfold encodeField_uint8. rewrite !to_uint8_small by assumption.
  rewrite <- app_assoc. reflexivity.
Qed.

(** C4.  [AddHash] appends exactly two bytes to the buffer, [accA] then
    [accB], where [accA] and [accB] are the two-stage running sums computed
    byte by byte over every byte already in the buffer as [accA += byte;
    accB += accA], both modulo 256 (and there is one such pair only); the
    cached fields are untouched.  For a buffer holding exactly the bytes
    [0x00, 0x01, 0x02] the two appended bytes are 3 and 4. *)
Theorem AddHash_appends_running_sums :
  (forall p : Packet, exists accA accB,
      RunningSums (m_data p) accA accB /\
      (forall a b, RunningSums (m_data p) a b -> a = accA /\ b = accB) /\
      m_data (AddHash p) = m_data p ++ [accA; accB] /\
      length (m_data (AddHash p)) = (length (m_data p) + 2)%nat /\
      m_size (AddHash p) = m_size p /\ m_PID (AddHash p) = m_PID p /\
      M_highLevelFieldsValid (AddHash p) = M_highLevelFieldsValid p) /\
  (forall size PID valid,
      m_data (AddHash {| m_data := [0; 1; 2]; m_size := size; m_PID := PID;
                         M_highLevelFieldsValid := valid |})
      = [0; 1; 2; 3; 4]).
Proof.
  split.
  - intros p.
    exists (fst (fold_left hash_step (m_data p) (0, 0))),
           (snd (fold_left hash_step (m_data p) (0, 0))).
    split; [apply RunningSums_fold|].
    split.
    { intros a b H. apply RunningSums_unique in H. rewrite H. auto. }
    split; [apply AddHash_data|].
    split; [rewrite AddHash_data, length_app; reflexivity|].
    unfold AddHash. destruct (hash_loop _ _). auto.
  - intros. reflexivity.
Qed.

(* ------------------------------------------------------------------ *)
(** ** [CheckHash] *)

Lemma nth_lookup_Z (data : list Z) n b : data !! n = Some b -> nth n data 0 = b.
Proof. intros H. apply nth_lookup_Some with (d := 0) in H. exact H. Qed.

Lemma lookup_nth_Z (data : list Z) n : (n < length data)%nat -> data !! n = Some (nth n data 0).
Proof.
  intros H. destruct (lookup_lt_is_Some_2 data n H) as [b Hb].
  rewrite Hb. f_equal. symmetry. apply nth_lookup_Z, Hb.
Qed.

(** C5.  [CheckHash] returns true if and only if the buffer holds at least
    9 bytes, the big-endian 32-bit size field at byte offsets 2-5 equals the
    buffer's length, and the two-stage running sum over all bytes except the
    last two equals those last two bytes ([accA] at [length-2], [accB] at
    [length-1]); in every other case it returns false. *)
Theorem CheckHash_true_iff (p : Packet) :
  bytes_ok (m_data p) ->
  (CheckHash p = Some true <->
     (9 <= length (m_data p))%nat /\
     be_value (slice 2 4 (m_data p)) = Z.of_nat (length (m_data p)) /\
     exists accA accB,
       RunningSums (take (length (m_data p) - 2) (m_data p)) accA accB /\
       m_data p !! (length (m_data p) - 2)%nat = Some accA /\
       m_data p !! (length (m_data p) - 1)%nat = Some accB) /\
  (CheckHash p = Some true \/ CheckHash p = Some false).
Proof.
  intros Hok. unfold CheckHash.
  destruct (length (m_data p) <? 9)%nat eqn:Hlen.
  { apply Nat.ltb_lt in Hlen. split; [|auto].
    split; [discriminate|]. intros [H _]. lia. }
  apply Nat.ltb_ge in Hlen.
  rewrite decodeField_uint32_at by (auto; lia).
  destruct (be_value (slice 2 4 (m_data p)) =? Z.of_nat (length (m_data p))) eqn:Hsize; simpl.
  2:{ apply Z.eqb_neq in Hsize. split; [|auto].
      split; [discriminate|]. intros (_ & H & _). contradiction. }
  apply Z.eqb_eq in Hsize.
  rewrite hash_loop_take.
  pose proof (RunningSums_fold (take (length (m_data p) - 2) (m_data p))) as HR.
  destruct (fold_left hash_step (take (length (m_data p) - 2) (m_data p)) (0, 0))
    as [hashA hashB] eqn:Hfold.
  simpl in HR.
  split.
  2:{ destruct (_ && _); auto. }
  split.
  - intros H. injection H as H. apply andb_true_iff in H. destruct H as [Ha Hb].
    apply Z.eqb_eq in Ha, Hb.
    split; [exact Hlen|]. split; [exact Hsize|].
    exists hashA, hashB. split; [exact HR|].
    rewrite Ha at 1. rewrite Hb at 1.
    split; apply lookup_nth_Z; lia.
  - intros (_ & _ & accA & accB & HR' & Ha & Hb).
    apply RunningSums_unique in HR'. rewrite Hfold in HR'. injection HR' as -> ->.
    apply nth_lookup_Z in Ha, Hb. rewrite Ha, Hb, !Z.eqb_refl. reflexivity.
Qed.

Lemma bytes_okb_ok data : bytes_okb data = true -> bytes_ok data.
Proof.
  unfold bytes_okb, bytes_ok. induction data as [|b data IH]; simpl; intros H.
  - constructor.
  - apply andb_true_iff in H. destruct H as [Hb H].
    constructor; [|exact (IH H)].
    apply andb_true_iff in Hb. unfold is_uint8. change (2^8) with 256. lia.
Qed.

Lemma CheckHash_true_iff_witness :
  let p := Acknowledgment.Serialize
             {| Acknowledgment.Positive := 1; Acknowledgment.SourcePID := 253 |}
             fresh_packet in
  bytes_ok (m_data p) /\ CheckHash p = Some true /\
  ((CheckHash p = Some true <->
     (9 <= length (m_data p))%nat /\
     be_value (slice 2 4 (m_data p)) = Z.of_nat (length (m_data p)) /\
     exists accA accB,
       RunningSums (take (length (m_data p) - 2) (m_data p)) accA accB /\
       m_data p !! (length (m_data p) - 2)%nat = Some accA /\
       m_data p !! (length (m_data p) - 1)%nat = Some accB) /\
   (CheckHash p = Some true \/ CheckHash p = Some false)).
Proof.
  intros p.
  assert (Hok : bytes_ok (m_data p)) by (apply bytes_okb_ok; vm_compute; reflexivity).
  split; [exact Hok|]. split; [reflexivity|].
  exact (CheckHash_true_iff p Hok).
Defined.

(* ------------------------------------------------------------------ *)
(** ** [ForwardScanForSync] *)

Lemma sync_at_test data i :
  (i + 1 <? length data)%nat
  && ((nth i data 0 =? 218) && (nth (i + 1) data 0 =? 167)) = true
  <-> sync_at data i.
Proof.
  unfold sync_at. rewrite !andb_true_iff, Nat.ltb_lt, !Z.eqb_eq.
  replace (i + 1)%nat with (S i) by lia. split.
  - intros (Hlen & H0 & H1). split.
    + rewrite <- H0. apply lookup_nth_Z. lia.
    + rewrite <- H1. apply lookup_nth_Z. lia.
  - intros [H0 H1]. split.
    + apply lookup_lt_Some in H1. lia.
    + split; apply nth_lookup_Z; assumption.
Qed.

Lemma scan_loop_spec data fuel : forall i,
  (length data <= i + fuel)%nat ->
  match scan_loop data i fuel with
  | Some k => (i <= k)%nat /\ sync_at data k /\
              forall j, (i <= j < k)%nat -> ~ sync_at data j
  | None => forall j, (i <= j)%nat -> ~ sync_at data j
  end.
Proof.
  induction fuel as [|fuel IH]; intros i Hfuel.
  - simpl. intros j Hj [_ H]. apply lookup_lt_Some in H. lia.
  - cbn [scan_loop].
    pose proof (sync_at_test data i) as Ht.
    destruct (i + 1 <? length data)%nat eqn:Hlt.
    + destruct ((nth i data 0 =? 218) && (nth (i + 1) data 0 =? 167)) eqn:Hm.
      * split; [lia|]. split; [apply Ht; reflexivity|]. intros j Hj. lia.
      * specialize (IH (S i) ltac:(lia)).
        assert (Hni : ~ sync_at data i) by (rewrite <- Ht; simpl; discriminate).
        destruct (scan_loop data (S i) fuel) as [k|].
        -- destruct IH as (Hk & Hs & Hmin). split; [lia|]. split; [exact Hs|].
           intros j Hj. destruct (Nat.eq_dec j i) as [->|]; [exact Hni|].
           apply Hmin. lia.
        -- intros j Hj. destruct (Nat.eq_dec j i) as [->|]; [exact Hni|].
           apply IH. lia.
    + apply Nat.ltb_ge in Hlt.
      intros j Hj [_ H]. apply lookup_lt_Some in H. lia.
Qed.

Lemma first_sync_unique data i k : first_sync data i -> first_sync data k -> i = k.
Proof.
  intros (Hi & Hsi & Hmi) (Hk & Hsk & Hmk).
  destruct (Nat.lt_trichotomy i k) as [H|[H|H]]; [|exact H|].
  - exfalso. apply (Hmk i); [lia | exact Hsi].
  - exfalso. apply (Hmi k); [lia | exact Hsk].
Qed.

Lemma ForwardScanForSync_found p i :
  first_sync (m_data p) i ->
  ForwardScanForSync p
  = {| m_data := drop i (m_data p); m_size := m_size p; m_PID := m_PID p;
       M_highLevelFieldsValid := false |}.
Proof.
  intros Hf. unfold ForwardScanForSync.
  destruct (m_data p) as [|b data] eqn:E.
  { destruct Hf as (_ & [H _] & _). rewrite lookup_nil in H. discriminate. }
  rewrite <- E in *.
  pose proof (scan_loop_spec (m_data p) (length (m_data p)) 1 ltac:(lia)) as Hs.
  destruct (scan_loop (m_data p) 1 (length (m_data p))) as [k|].
  - destruct Hs as (Hk & Hsk & Hmin).
    assert (first_sync (m_data p) k) by (split; [lia|]; split; assumption).
    rewrite (first_sync_unique _ _ _ Hf H). reflexivity.
  - destruct Hf as (Hi & Hsi & _). exfalso. apply (Hs i Hi Hsi).
Qed.

Lemma ForwardScanForSync_not_found p :
  m_data p <> [] -> no_sync (m_data p) ->
  ForwardScanForSync p
  = if (1 <? length (m_data p))%nat && (List.last (m_data p) 0 =? 218)
    then {| m_data := [218]; m_size := m_size p; m_PID := m_PID p;
            M_highLevelFieldsValid := false |}
    else {| m_data := []; m_size := m_size p; m_PID := m_PID p;
            M_highLevelFieldsValid := false |}.
Proof.
  intros Hne Hno. unfold ForwardScanForSync.
  destruct (m_data p) as [|b data] eqn:E; [contradiction|].
  rewrite <- E in *.
  pose proof (scan_loop_spec (m_data p) (length (m_data p)) 1 ltac:(lia)) as Hs.
  destruct (scan_loop (m_data p) 1 (length (m_data p))) as [k|]; [|reflexivity].
  destruct Hs as (Hk & Hsk & _). exfalso. apply (Hno k Hk Hsk).
Qed.

Lemma first_sync_or_none data : (exists i, first_sync data i) \/ no_sync data.
Proof.
  pose proof (scan_loop_spec data (length data) 1 ltac:(lia)) as Hs.
  destruct (scan_loop data 1 (length data)) as [k|].
  - left. exists k. destruct Hs as (Hk & Hsk & Hmin). split; [lia|]. split; assumption.
  - right. exact Hs.
Qed.

Lemma last_lookup_Z (data : list Z) :
  data <> [] -> List.last data 0 = nth (length data - 1) data 0.
Proof.
  intros Hne. destruct data as [|b data] using rev_ind; [contradiction|].
  rewrite last_last, length_app. simpl.
  rewrite app_nth2 by lia. replace (_ - _)%nat with 0%nat by lia. reflexivity.
Qed.

(** C2, as stated, fails on the one-byte buffer [0xDA]: the sync field
    occurs nowhere and the last byte is [0xDA], so the buffer would have to
    be replaced by that single byte and thereby keep its length, while
    [ForwardScanForSync] clears it. *)
Lemma ForwardScanForSync_single_sync_byte :
  let p := packet_of [218] in
  m_data p <> [] /\ no_sync (m_data p) /\ List.last (m_data p) 0 = 218 /\
  m_data (ForwardScanForSync p) = [] /\
  m_data (ForwardScanForSync p) <> [218].
Proof.
  simpl. split; [discriminate|]. split.
  - intros j Hj [_ H]. apply lookup_lt_Some in H. simpl in H. lia.
  - split; [reflexivity|]. split; [reflexivity | discriminate].
Qed.

(** C2, amended.  On a non-empty buffer [ForwardScanForSync] behaves as
    follows.  If the sync marker [0xDA, 0xA7] occurs fully inside the buffer
    starting at some index >= 1, every byte before the first such occurrence
    is discarded.  Otherwise, if the buffer holds more than one byte and its
    last byte is [0xDA], the buffer is replaced by that single byte.
    Otherwise the buffer is cleared.  In every case the cached header fields
    are invalidated and the buffer is at least one byte smaller on exit than
    on entry. *)
Theorem ForwardScanForSync_spec (p : Packet) :
  m_data p <> [] ->
  (forall i, first_sync (m_data p) i ->
             m_data (ForwardScanForSync p) = drop i (m_data p)) /\
  (no_sync (m_data p) ->
   (1 < length (m_data p))%nat /\ List.last (m_data p) 0 = 218 ->
   m_data (ForwardScanForSync p) = [218]) /\
  (no_sync (m_data p) ->
   ~ ((1 < length (m_data p))%nat /\ List.last (m_data p) 0 = 218) ->
   m_data (ForwardScanForSync p) = []) /\
  M_highLevelFieldsValid (ForwardScanForSync p) = false /\
  (length (m_data (ForwardScanForSync p)) < length (m_data p))%nat.
Proof.
  intros Hne.
  assert (Hlen : (0 < length (m_data p))%nat)
    by (destruct (m_data p); [contradiction | simpl; lia]).
  split; [|split; [|split]].
  - intros i Hf. rewrite (ForwardScanForSync_found p i Hf). reflexivity.
  - intros Hno [H1 H2]. rewrite (ForwardScanForSync_not_found p Hne Hno).
    apply Nat.ltb_lt in H1. apply Z.eqb_eq in H2. rewrite H1, H2. reflexivity.
  - intros Hno Hn. rewrite (ForwardScanForSync_not_found p Hne Hno).
    destruct ((1 <? length (m_data p))%nat && (List.last (m_data p) 0 =? 218)) eqn:E;
      [|reflexivity].
    apply andb_true_iff in E. destruct E as [H1 H2].
    apply Nat.ltb_lt in H1. apply Z.eqb_eq in H2. tauto.
  - destruct (first_sync_or_none (m_data p)) as [[i Hf]|Hno].
    + rewrite (ForwardScanForSync_found p i Hf). simpl.
      split; [reflexivity|]. rewrite length_drop.
      destruct Hf as (Hi & _). lia.
    + rewrite (ForwardScanForSync_not_found p Hne Hno).
      destruct ((1 <? length (m_data p))%nat && (List.last (m_data p) 0 =? 218)) eqn:E;
        simpl; (split; [reflexivity|]); [|lia].
      apply andb_true_iff in E. destruct E as [H1 _]. apply Nat.ltb_lt in H1. lia.
Qed.

Lemma ForwardScanForSync_spec_witness :
  let p := packet_of [255; 255; 255; 218; 167; 0; 0; 0; 11; 3; 1; 253; 154; 142] in
  first_sync (m_data p) 3 /\
  m_data (ForwardScanForSync p) = [218; 167; 0; 0; 0; 11; 3; 1; 253; 154; 142] /\
  (length (m_data (ForwardScanForSync p)) < length (m_data p))%nat.
Proof.
  intros p.
  assert (Hne : m_data p <> []) by discriminate.
  assert (Hf : first_sync (m_data p) 3).
  { split; [lia|]. split; [split; reflexivity|].
    intros j Hj [H _].
    assert (j = 1 \/ j = 2)%nat as [-> | ->] by lia; discriminate. }
  pose proof (ForwardScanForSync_spec p Hne) as (Hfound & _ & _ & _ & Hshrink).
  split; [exact Hf|]. split; [exact (Hfound 3%nat Hf) | exact Hshrink].
Defined.

(* ------------------------------------------------------------------ *)
(** ** [BytesNeeded] *)

Lemma cache_header_spec p :
  bytes_ok (m_data p) -> (7 <= length (m_data p))%nat ->
  exists p', cache_header p = Some p' /\
             m_data p' = m_data p /\ m_size p' = advertised_size p /\
             M_highLevelFieldsValid p' = true.
Proof.
  intros Hok Hlen. unfold cache_header, advertised_size.
  destruct (M_highLevelFieldsValid p) eqn:Hv.
  - exists p. auto.
  - unfold dbind at 1. rewrite decodeField_uint32_at by (auto; lia).
    unfold dbind, decodeField_uint8. simpl Nat.add.
    rewrite (deref_incr_at _ _ _ (lookup_nth_Z (m_data p) 6 ltac:(lia))).
    unfold dret. eexists. split; [reflexivity|]. simpl. auto.
Qed.

(** C10.  Whenever at least 7 bytes are buffered, [BytesNeeded] returns
    true and sets [ByteCount] to the advertised total size minus the current
    buffer length, computed in unsigned 32-bit arithmetic.  In particular,
    if the buffer already holds more bytes than the advertised size, the
    reported count wraps modulo 2^32 to [2^32 - (length - size)], a very
    large value, rather than being zero or negative. *)
Theorem BytesNeeded_wraps (p : Packet) (ByteCount : Z) :
  bytes_ok (m_data p) -> is_uint32 (m_size p) ->
  (7 <= length (m_data p))%nat ->
  exists p' count,
    BytesNeeded p ByteCount = Some (true, count, p') /\
    count = (advertised_size p - Z.of_nat (length (m_data p)) mod 2^32) mod 2^32 /\
    (advertised_size p < Z.of_nat (length (m_data p)) < 2^32 ->
     count = 2^32 - (Z.of_nat (length (m_data p)) - advertised_size p) /\
     2^32 - Z.of_nat (length (m_data p)) <= count < 2^32) /\
    (Z.of_nat (length (m_data p)) <= advertised_size p ->
     Z.of_nat (length (m_data p)) < 2^32 ->
     count = advertised_size p - Z.of_nat (length (m_data p))).
Proof.
  intros Hok Hsz Hlen.
  destruct (cache_header_spec p Hok Hlen) as (p' & Hc & Hd & Hs & Hv).
  assert (Hadv : is_uint32 (advertised_size p)).
  { unfold advertised_size. destruct (M_highLevelFieldsValid p); [exact Hsz|].
    pose proof (be_value_range (slice 2 4 (m_data p)) (bytes_ok_slice _ _ _ Hok)) as Hr.
    rewrite slice_length in Hr by lia. unfold is_uint32. simpl in Hr. lia. }
  exists p', (to_uint32 (m_size p' - to_uint32 (Z.of_nat (length (m_data p'))))).
  split.
  { unfold BytesNeeded.
    replace (length (m_data p) <? 7)%nat with false by (symmetry; apply Nat.ltb_ge; lia).
    rewrite Hc. reflexivity. }
  rewrite Hd, Hs. unfold to_uint32. split; [reflexivity|].
  unfold is_uint32 in Hadv.
  split.
  - intros H. rewrite (Z.mod_small (Z.of_nat _)) by lia.
    replace (advertised_size p - Z.of_nat (length (m_data p)))
      with (2^32 - (Z.of_nat (length (m_data p)) - advertised_size p) + (-1) * 2^32) by lia.
    rewrite Z.mod_add by lia. rewrite Z.mod_small by lia. lia.
  - intros H H'. rewrite (Z.mod_small (Z.of_nat _)) by lia.
    rewrite Z.mod_small by lia. reflexivity.
Qed.

Lemma BytesNeeded_wraps_witness :
  exists p' count,
    BytesNeeded overlong_packet 0 = Some (true, count, p') /\
    count = 4294967295.
Proof.
  assert (Hok : bytes_ok (m_data overlong_packet))
    by (apply bytes_okb_ok; vm_compute; reflexivity).
  assert (Hsz : is_uint32 (m_size overlong_packet)) by (unfold is_uint32; simpl; lia).
  assert (Hlen : (7 <= length (m_data overlong_packet))%nat) by (simpl; lia).
  destruct (BytesNeeded_wraps overlong_packet 0 Hok Hsz Hlen)
    as (p' & count & Hb & Hcount & _).
  exists p', count. split; [exact Hb|]. rewrite Hcount. reflexivity.
Defined.

(* ------------------------------------------------------------------ *)
(** ** [decodeField_String] and its byte budget *)

(** With fewer than 4 bytes of budget the decoder reads nothing, returns
    the empty string, zeroes the budget and moves the iterator to the end
    of the budget. *)
Lemma decodeField_String_short_budget MaxBytes buf it :
  0 <= MaxBytes < 4 ->
  decodeField_String MaxBytes buf it
  = Some ((EmptyString, 0), (it + Z.to_nat MaxBytes)%nat).
Proof.
  intros H. unfold decodeField_String.
  replace (MaxBytes <? 4) with true by (symmetry; apply Z.ltb_lt; lia).
  reflexivity.
Qed.

(** When the declared length and its prefix exceed the budget without
    leaving 32 bits, the decoder returns the empty string and zeroes the
    budget; the iterator, which has passed the 4-byte prefix already, is
    moved by the whole budget and so ends 4 bytes behind it. *)
Lemma decodeField_String_over_budget MaxBytes buf it size :
  4 <= MaxBytes ->
  decodeField_uint32 buf it = Some (size, (it + 4)%nat) ->
  MaxBytes < size + 4 < 2^32 ->
  decodeField_String MaxBytes buf it
  = Some ((EmptyString, 0), (it + 4 + Z.to_nat MaxBytes)%nat).
Proof.
  intros Hb Hd Hs. unfold decodeField_String.
  replace (MaxBytes <? 4) with false by (symmetry; apply Z.ltb_ge; lia).
  unfold dbind at 1. rewrite Hd.
  replace (to_uint32 (size + 4)) with (size + 4)
    by (unfold to_uint32; rewrite Z.mod_small; lia).
  replace (size + 4 >? MaxBytes) with true
    by (symmetry; rewrite Z.gtb_ltb; apply Z.ltb_lt; lia).
  reflexivity.
Qed.

Lemma read_chars_short rest : forall n size it str,
  n + Z.of_nat (length rest) < size -> read_chars rest n size it str = None.
Proof.
  induction rest as [|b rest IH]; intros n size it str H; cbn [read_chars].
  - replace (n <? size) with true by (symmetry; apply Z.ltb_lt; simpl in H; lia).
    reflexivity.
  - replace (n <? size) with true
      by (symmetry; apply Z.ltb_lt; simpl length in H; lia).
    apply IH. simpl length in H. lia.
Qed.

(** When the declared length is within 4 of [2^32], its sum with the prefix
    wraps around and passes the test against the budget: the decoder then
    reads [size] characters and dereferences the iterator beyond the end of
    every vector shorter than that. *)
Lemma decodeField_String_length_wraps MaxBytes buf it size :
  4 <= MaxBytes ->
  decodeField_uint32 buf it = Some (size, (it + 4)%nat) ->
  2^32 - 4 <= size < 2^32 ->
  Z.of_nat (length buf) < 2^32 - 4 ->
  decodeField_String MaxBytes buf it = None.
Proof.
  intros Hb Hd Hs Hlen. unfold decodeField_String.
  replace (MaxBytes <? 4) with false by (symmetry; apply Z.ltb_ge; lia).
  unfold dbind at 1. rewrite Hd.
  replace (to_uint32 (size + 4)) with (size + 4 - 2^32).
  2:{ unfold to_uint32. replace (size + 4) with (size + 4 - 2^32 + 1 * 2^32) by lia.
      rewrite Z.mod_add by lia. rewrite Z.mod_small; lia. }
  replace (size + 4 - 2^32 >? MaxBytes) with false
    by (symmetry; rewrite Z.gtb_ltb; apply Z.ltb_ge; lia).
  unfold dbind. rewrite read_chars_short; [reflexivity|].
  rewrite length_drop. lia.
Qed.

(** C3, where the code departs from it.  In the well-formed MessageString
    packet [oversized_string_packet] the string field declares the length
    [0xFFFFFFFF] with a budget of 4 bytes left: [decodeField_String] does not
    return the empty string but reads on beyond the end of the packet, and
    so does [Packet_MessageString::Deserialize].  And where the declared
    length (5) exceeds the budget (6) without wrapping, the empty string is
    returned and the budget zeroed, but the iterator ends at 10, 4 bytes
    behind the budget. *)
Theorem decodeField_String_overruns :
  CheckHashSizeAndPID oversized_string_packet 4 = Some true /\
  decodeField_String 4 (m_data oversized_string_packet) 8%nat = None /\
  (forall this, MessageString.Deserialize this oversized_string_packet = None) /\
  decodeField_String 6 [0; 0; 0; 5; 97; 98] 0%nat = Some ((EmptyString, 0), 10%nat).
Proof.
  split; [reflexivity|]. split; [reflexivity|]. split; [|reflexivity].
  intros this. reflexivity.
Qed.

(* ------------------------------------------------------------------ *)
(** ** Decoders of fixed size *)

Lemma consumes_ret {A} (v : A) : consumes (dret v) 0.
Proof. intros buf it _. exists v. unfold dret. rewrite Nat.add_0_r. reflexivity. Qed.

Lemma consumes_bind {A B} (d : Dec A) (k : A -> Dec B) n m :
  consumes d n -> (forall v, consumes (k v) m) -> consumes (dbind d k) (n + m).
Proof.
  intros Hd Hk buf it Hlen. unfold dbind.
  destruct (Hd buf it ltac:(lia)) as [v Hv]. rewrite Hv.
  destruct (Hk v buf (it + n)%nat ltac:(lia)) as [v' Hv']. rewrite Hv'.
  exists v'. f_equal. f_equal. lia.
Qed.

Lemma consumes_deref_incr : consumes deref_incr 1.
Proof.
  intros buf it Hlen. unfold deref_incr.
  destruct (lookup_lt_is_Some_2 buf it ltac:(lia)) as [b Hb]. rewrite Hb.
  exists b. f_equal. f_equal. lia.
Qed.

Lemma consumes_uint8 : consumes decodeField_uint8 1.
Proof. exact consumes_deref_incr. Qed.

Ltac consumes_tac :=
  repeat first
    [ apply consumes_ret
    | apply (consumes_bind _ _ 1); [apply consumes_deref_incr | intros ?] ].

Lemma consumes_uint32 : consumes decodeField_uint32 4.
Proof.
  unfold decodeField_uint32. change 4%nat with (1 + (1 + (1 + (1 + 0))))%nat.
  consumes_tac.
Qed.

Lemma consumes_uint64 : consumes decodeField_uint64 8.
Proof.
  unfold decodeField_uint64.
  change 8%nat with (1 + (1 + (1 + (1 + (1 + (1 + (1 + (1 + 0))))))))%nat.
  consumes_tac.
Qed.

Lemma consumes_decode_waypoint : consumes ExecuteWaypointMission.decode_waypoint 40.
Proof.
  unfold ExecuteWaypointMission.decode_waypoint, decodeField_float64, decodeField_float32.
  change 40%nat with (8 + (8 + (8 + (4 + (4 + (4 + (4 + 0)))))))%nat.
  repeat first
    [ apply consumes_ret
    | apply (consumes_bind _ _ 8); [apply consumes_uint64 | intros ?]
    | apply (consumes_bind _ _ 4); [apply consumes_uint32 | intros ?] ].
Qed.

Lemma decode_waypoints_spec n : forall acc buf it,
  (it + 40 * n <= length buf)%nat ->
  exists ws,
    ExecuteWaypointMission.decode_waypoints n acc buf it
    = Some (acc ++ ws, (it + 40 * n)%nat) /\
    length ws = n /\
    forall k, (k < n)%nat ->
      exists w, ExecuteWaypointMission.decode_waypoint buf (it + 40 * k)%nat
                = Some (w, (it + 40 * S k)%nat) /\
                ws !! k = Some w.
Proof.
  induction n as [|n IH]; intros acc buf it Hlen.
  - exists []. cbn [ExecuteWaypointMission.decode_waypoints]. unfold dret.
    rewrite app_nil_r.
    split; [f_equal; f_equal; lia|]. split; [reflexivity|]. intros k Hk. lia.
  - cbn [ExecuteWaypointMission.decode_waypoints]. unfold dbind.
    destruct (consumes_decode_waypoint buf it ltac:(lia)) as [w Hw]. rewrite Hw.
    destruct (IH (acc ++ [w]) buf (it + 40)%nat ltac:(lia)) as (ws & Hws & Hl & Hk).
    exists (w :: ws). rewrite Hws.
    split; [rewrite <- app_assoc; f_equal; f_equal; lia|].
    split; [cbn [length]; lia|].
    intros [|k] Hlt.
    + exists w. rewrite Nat.mul_0_r, Nat.add_0_r. split; [|reflexivity].
      rewrite Hw. f_equal; f_equal; lia.
    + destruct (Hk k ltac:(lia)) as (w' & Hd & Hl').
      exists w'. split; [|exact Hl'].
      replace (it + 40 * S k)%nat with (it + 40 + 40 * k)%nat by lia.
      rewrite Hd. f_equal; f_equal; lia.
Qed.

(* ------------------------------------------------------------------ *)
(** ** What a validated packet is *)

Lemma deref_incr_inv buf it b it' :
  deref_incr buf it = Some (b, it') -> buf !! it = Some b /\ it' = S it.
Proof.
  unfold deref_incr. destruct (buf !! it); [|discriminate].
  intros H. injection H as -> <-. auto.
Qed.

Lemma decodeField_uint32_inv buf it v it' :
  decodeField_uint32 buf it = Some (v, it') -> is_uint32 v /\ it' = (it + 4)%nat.
Proof.
  unfold decodeField_uint32, dbind, dret. intros H.
  destruct (deref_incr buf it) as [[b0 i0]|] eqn:E0; [|discriminate].
  destruct (deref_incr buf i0) as [[b1 i1]|] eqn:E1; [|discriminate].
  destruct (deref_incr buf i1) as [[b2 i2]|] eqn:E2; [|discriminate].
  destruct (deref_incr buf i2) as [[b3 i3]|] eqn:E3; [|discriminate].
  apply deref_incr_inv in E0, E1, E2, E3.
  destruct E0 as [_ ->], E1 as [_ ->], E2 as [_ ->], E3 as [_ ->].
  injection H as <- <-. split; [|lia].
  unfold is_uint32, to_uint32. apply Z.mod_pos_bound. lia.
Qed.

Lemma CheckHashSizeAndPID_true p PID :
  CheckHashSizeAndPID p PID = Some true ->
  CheckHash p = Some true /\
  (9 <= length (m_data p))%nat /\ Z.of_nat (length (m_data p)) < 2^32 /\
  nth 6 (m_data p) 0 = PID.
Proof.
  unfold CheckHashSizeAndPID. intros H.
  destruct (CheckHash p) as [[|]|] eqn:Hc; try discriminate.
  split; [reflexivity|].
  unfold CheckHash in Hc.
  destruct (length (m_data p) <? 9)%nat eqn:Hlen; [discriminate|].
  apply Nat.ltb_ge in Hlen. split; [exact Hlen|].
  destruct (decodeField_uint32 (m_data p) 2%nat) as [[size it']|] eqn:Hd; [|discriminate].
  apply decodeField_uint32_inv in Hd. destruct Hd as [Hsz _].
  destruct (size =? Z.of_nat (length (m_data p))) eqn:Hs; [|discriminate].
  apply Z.eqb_eq in Hs. rewrite <- Hs. split; [apply Hsz|].
  unfold decodeField_uint8 in H.
  destruct (deref_incr (m_data p) 6%nat) as [[v it'']|] eqn:E; [|discriminate].
  apply deref_incr_inv in E. destruct E as [E _].
  injection H as H. apply Z.eqb_eq in H. subst v.
  apply nth_lookup_Z, E.
Qed.

(* ------------------------------------------------------------------ *)
(** ** [Packet_ExecuteWaypointMission::Deserialize] *)

Lemma EWM_Deserialize_unfold this src :
  CheckHashSizeAndPID src 253 = Some true ->
  (51 <= length (m_data src))%nat ->
  ExecuteWaypointMission.Deserialize this src
  = let LandAtEnd := nth 7 (m_data src) 0 in
    let CurvedFlight := nth 8 (m_data src) 0 in
    let waypointBytes := Z.of_nat (length (m_data src)) - 11 in
    if negb (waypointBytes mod 40 =? 0) then
      Some (false, {| ExecuteWaypointMission.LandAtEnd := LandAtEnd;
                      ExecuteWaypointMission.CurvedFlight := CurvedFlight;
                      ExecuteWaypointMission.Waypoints := [] |})
    else
      match ExecuteWaypointMission.decode_waypoints
              (Z.to_nat (waypointBytes / 40)) [] (m_data src) 9%nat with
      | Some (Waypoints, _) =>
          Some (true, {| ExecuteWaypointMission.LandAtEnd := LandAtEnd;
                         ExecuteWaypointMission.CurvedFlight := CurvedFlight;
                         ExecuteWaypointMission.Waypoints := Waypoints |})
      | None => None
      end.
Proof.
  intros Hc Hlen. unfold ExecuteWaypointMission.Deserialize. rewrite Hc.
  apply CheckHashSizeAndPID_true in Hc. destruct Hc as (_ & _ & Hsz & _).
  replace (length (m_data src) <? 9 + 2 + 40)%nat with false
    by (symmetry; apply Nat.ltb_ge; simpl; lia).
  unfold decode_payload, dbind, decodeField_uint8.
  rewrite (deref_incr_at _ _ _ (lookup_nth_Z (m_data src) 7 ltac:(lia))).
  rewrite (deref_incr_at _ _ _ (lookup_nth_Z (m_data src) 8 ltac:(lia))).
  replace (to_uint32 (to_uint32 (Z.of_nat (length (m_data src))) - 9 - 2))
    with (Z.of_nat (length (m_data src)) - 11)
    by (unfold to_uint32; mod_small; lia).
  cbv zeta.
  destruct (negb ((Z.of_nat (length (m_data src)) - 11) mod 40 =? 0)); [reflexivity|].
  destruct (ExecuteWaypointMission.decode_waypoints _ _ _ _) as [[ws it]|]; reflexivity.
Qed.

Lemma decodeField_uint64_at data off :
  bytes_ok data -> (off + 8 <= length data)%nat ->
  decodeField_uint64 data off = Some (be_value (slice off 8 data), (off + 8)%nat).
Proof.
  intros Hok Hlen.
  pose proof (slice_length off 8 data Hlen) as Hl.
  pose proof (bytes_ok_slice off 8 data Hok) as Hs.
  destruct (slice off 8 data)
    as [|b0 [|b1 [|b2 [|b3 [|b4 [|b5 [|b6 [|b7 [|? ?]]]]]]]]] eqn:E; try discriminate.
  unfold bytes_ok in Hs. rewrite !Forall_cons in Hs.
  destruct Hs as (H0 & H1 & H2 & H3 & H4 & H5 & H6 & H7 & _).
  apply (reads_at decodeField_uint64 [b0; b1; b2; b3; b4; b5; b6; b7]);
    auto using reads_uint64_value.
Qed.

Lemma decode_waypoint_at data off :
  bytes_ok data -> (off + 40 <= length data)%nat ->
  ExecuteWaypointMission.decode_waypoint data off
  = Some (waypoint_at data off, (off + 40)%nat).
Proof.
  intros Hok Hlen.
  unfold ExecuteWaypointMission.decode_waypoint, decodeField_float64, decodeField_float32.
  unfold dbind at 1. rewrite (decodeField_uint64_at data off Hok) by lia.
  unfold dbind at 1. rewrite (decodeField_uint64_at data (off + 8) Hok) by lia.
  unfold dbind at 1. rewrite (decodeField_uint64_at data (off + 8 + 8) Hok) by lia.
  unfold dbind at 1. rewrite (decodeField_uint32_at data (off + 8 + 8 + 8) Hok) by lia.
  unfold dbind at 1. rewrite (decodeField_uint32_at data (off + 8 + 8 + 8 + 4) Hok) by lia.
  unfold dbind at 1. rewrite (decodeField_uint32_at data (off + 8 + 8 + 8 + 4 + 4) Hok) by lia.
  unfold dbind at 1.
  rewrite (decodeField_uint32_at data (off + 8 + 8 + 8 + 4 + 4 + 4) Hok) by lia.
  unfold dret, waypoint_at.
  replace (off + 8 + 8)%nat with (off + 16)%nat by lia.
  replace (off + 16 + 8)%nat with (off + 24)%nat by lia.
  replace (off + 24 + 4)%nat with (off + 28)%nat by lia.
  replace (off + 28 + 4)%nat with (off + 32)%nat by lia.
  replace (off + 32 + 4)%nat with (off + 36)%nat by lia.
  replace (off + 36 + 4)%nat with (off + 40)%nat by lia.
  reflexivity.
Qed.

Lemma decode_waypoints_at n : forall acc data it,
  bytes_ok data -> (it + 40 * n <= length data)%nat ->
  ExecuteWaypointMission.decode_waypoints n acc data it
  = Some (acc ++ map (fun k => waypoint_at data (it + 40 * k)) (seq 0 n),
          (it + 40 * n)%nat).
Proof.
  induction n as [|n IH]; intros acc data it Hok Hlen.
  - cbn [ExecuteWaypointMission.decode_waypoints seq map]. unfold dret.
    rewrite app_nil_r. f_equal. f_equal. lia.
  - cbn [ExecuteWaypointMission.decode_waypoints]. unfold dbind.
    rewrite (decode_waypoint_at data it Hok) by lia.
    rewrite (IH (acc ++ [waypoint_at data it]) data (it + 40)%nat Hok) by lia.
    cbn [seq map]. rewrite <- app_assoc. cbn [app].
    rewrite <- seq_shift, map_map.
    rewrite Nat.mul_0_r, Nat.add_0_r.
    f_equal. f_equal; [|lia]. f_equal. f_equal.
    apply map_ext. intros k. f_equal. lia.
Qed.

(** C6.  On a validated packet, [Packet_ExecuteWaypointMission::Deserialize]
    returns false whenever the total length is below 51 bytes (9 of header
    and hash, 2 flag bytes, 40 bytes of one waypoint) or the waypoint-list
    byte count (length minus 11) is not a multiple of 40.  When the length
    is valid it returns true with the two flags taken from the bytes at
    offsets 7 and 8 and with exactly [(length-11)/40] waypoints, in the
    order of the packet: the fields of the [n]-th are the three doubles
    and four floats that the 40 bytes at offset [9 + 40*n] hold, most
    significant byte first, the three angles converted from degrees. *)
Theorem EWM_Deserialize_length_check this src :
  CheckHashSizeAndPID src 253 = Some true ->
  bytes_ok (m_data src) ->
  ((length (m_data src) < 51)%nat ->
   ExecuteWaypointMission.Deserialize this src = Some (false, this)) /\
  ((51 <= length (m_data src))%nat ->
   (Z.of_nat (length (m_data src)) - 11) mod 40 <> 0 ->
   exists this', ExecuteWaypointMission.Deserialize this src = Some (false, this')) /\
  ((51 <= length (m_data src))%nat ->
   (Z.of_nat (length (m_data src)) - 11) mod 40 = 0 ->
   exists this',
     ExecuteWaypointMission.Deserialize this src = Some (true, this') /\
     ExecuteWaypointMission.LandAtEnd this' = nth 7 (m_data src) 0 /\
     ExecuteWaypointMission.CurvedFlight this' = nth 8 (m_data src) 0 /\
     Z.of_nat (length (ExecuteWaypointMission.Waypoints this'))
     = (Z.of_nat (length (m_data src)) - 11) / 40 /\
     forall n, (n < length (ExecuteWaypointMission.Waypoints this'))%nat ->
       ExecuteWaypointMission.Waypoints this' !! n
       = Some (waypoint_at (m_data src) (9 + 40 * n))).
Proof.
  intros Hc Hok. split; [|split].
  - intros Hlen. unfold ExecuteWaypointMission.Deserialize. rewrite Hc.
    replace (length (m_data src) <? 9 + 2 + 40)%nat with true
      by (symmetry; apply Nat.ltb_lt; simpl; lia).
    reflexivity.
  - intros Hlen Hmod. rewrite (EWM_Deserialize_unfold this src Hc Hlen). cbv zeta.
    replace (_ mod 40 =? 0) with false by (symmetry; apply Z.eqb_neq; exact Hmod).
    simpl. eexists. reflexivity.
  - intros Hlen Hmod. rewrite (EWM_Deserialize_unfold this src Hc Hlen). cbv zeta.
    rewrite Hmod. simpl negb. cbv iota.
    set (N := Z.to_nat ((Z.of_nat (length (m_data src)) - 11) / 40)).
    assert (HN : Z.of_nat N = (Z.of_nat (length (m_data src)) - 11) / 40).
    { unfold N. rewrite Z2Nat.id; [reflexivity|]. apply Z.div_pos; lia. }
    assert (Hfit : (9 + 40 * N <= length (m_data src))%nat).
    { pose proof (Z.div_mod (Z.of_nat (length (m_data src)) - 11) 40 ltac:(lia)). lia. }
    rewrite (decode_waypoints_at N [] (m_data src) 9%nat Hok Hfit).
    cbn [app]. eexists. split; [reflexivity|].
    cbn [ExecuteWaypointMission.LandAtEnd ExecuteWaypointMission.CurvedFlight
         ExecuteWaypointMission.Waypoints].
    split; [reflexivity|]. split; [reflexivity|].
    rewrite length_map, length_seq. split; [exact HN|].
    intros n Hn. rewrite list_lookup_fmap, lookup_seq_lt by exact Hn. reflexivity.
Qed.

Lemma EWM_Deserialize_length_check_witness :
  CheckHashSizeAndPID one_waypoint_packet 253 = Some true /\
  exists this',
    ExecuteWaypointMission.Deserialize one_waypoint_mission one_waypoint_packet
    = Some (true, this') /\
    Z.of_nat (length (ExecuteWaypointMission.Waypoints this')) = 1 /\
    ExecuteWaypointMission.Waypoints this' !! 0%nat
    = Some (waypoint_at (m_data one_waypoint_packet) 9).
Proof.
  assert (Hc : CheckHashSizeAndPID one_waypoint_packet 253 = Some true)
    by (vm_compute; reflexivity).
  assert (Hok : bytes_ok (m_data one_waypoint_packet))
    by (apply bytes_okb_ok; vm_compute; reflexivity).
  split; [exact Hc|].
  destruct (EWM_Deserialize_length_check one_waypoint_mission one_waypoint_packet Hc Hok)
    as (_ & _ & H).
  destruct (H ltac:(vm_compute; lia) ltac:(vm_compute; reflexivity))
    as (this' & Hd & _ & _ & Hn & Hw).
  exists this'. split; [exact Hd|].
  split; [rewrite Hn; vm_compute; reflexivity|].
  apply (Hw 0%nat). apply Nat2Z.inj_lt. rewrite Hn. vm_compute. reflexivity.
Defined.

(** C9.  When [Packet_ExecuteWaypointMission::Deserialize] fails because the
    waypoint-list byte count is not a multiple of 40, it returns false after
    having overwritten the target's [LandAtEnd] and [CurvedFlight] with the
    bytes at offsets 7 and 8 of the packet and cleared the target's
    [Waypoints]: whatever the target held before is lost. *)
Theorem EWM_Deserialize_failure_not_atomic this src :
  CheckHashSizeAndPID src 253 = Some true ->
  (51 <= length (m_data src))%nat ->
  (Z.of_nat (length (m_data src)) - 11) mod 40 <> 0 ->
  ExecuteWaypointMission.Deserialize this src
  = Some (false, {| ExecuteWaypointMission.LandAtEnd := nth 7 (m_data src) 0;
                    ExecuteWaypointMission.CurvedFlight := nth 8 (m_data src) 0;
                    ExecuteWaypointMission.Waypoints := [] |}).
Proof.
  intros Hc Hlen Hmod. rewrite (EWM_Deserialize_unfold this src Hc Hlen). cbv zeta.
  replace (_ mod 40 =? 0) with false by (symmetry; apply Z.eqb_neq; exact Hmod).
  reflexivity.
Qed.

Lemma EWM_Deserialize_failure_not_atomic_witness :
  exists this',
    ExecuteWaypointMission.Deserialize one_waypoint_mission misaligned_mission_packet
    = Some (false, this') /\
    this' <> one_waypoint_mission /\
    ExecuteWaypointMission.Waypoints this' = [].
Proof.
  eexists. split.
  - apply (EWM_Deserialize_failure_not_atomic one_waypoint_mission misaligned_mission_packet).
    + vm_compute. reflexivity.
    + vm_compute. lia.
    + vm_compute. discriminate.
  - split; [|reflexivity]. vm_compute. discriminate.
Defined.

(* ------------------------------------------------------------------ *)
(** ** [Packet_CompressedImage::Serialize] *)

Lemma AddHeader_Clear_data TargetPacket Size PID :
  m_data (AddHeader (Clear TargetPacket) Size PID)
  = [218; 167] ++ be_bytes 4 Size ++ [to_uint8 PID].
Proof.
  unfold AddHeader, Clear, set_data. cbn [m_data].
  rewrite encodeField_uint16_bytes, encodeField_uint32_bytes.
  unfold encodeField_uint8. rewrite <- !app_assoc. reflexivity.
Qed.

Lemma frame_length Size PID payload :
  length (frame Size PID payload) = (length payload + 9)%nat.
Proof.
  unfold frame, frame_body. rewrite !length_app, be_bytes_length. simpl. lia.
Qed.

Lemma frame_size_field Size PID payload :
  slice 2 4 (frame Size PID payload) = be_bytes 4 Size.
Proof. reflexivity. Qed.

Lemma patch_size_field (b0 b1 b2 b3 b4 b5 v2 v3 v4 v5 : Z) rest :
  <[5%nat := v5]> (<[4%nat := v4]> (<[3%nat := v3]> (<[2%nat := v2]>
     (b0 :: b1 :: b2 :: b3 :: b4 :: b5 :: rest))))
  = b0 :: b1 :: v2 :: v3 :: v4 :: v5 :: rest.
Proof. reflexivity. Qed.

Lemma CompressedImage_Serialize_data {Mat : Type} (is_CV_8UC3 : Mat -> bool)
      (imencode_jpg : Mat -> list Z)
      (this : CompressedImage.Packet_CompressedImage Mat) TargetPacket :
  let payload :=
    be_bytes 4 (CompressedImage.TargetFPS Mat this) ++
    (if is_CV_8UC3 (CompressedImage.Frame Mat this)
     then imencode_jpg (CompressedImage.Frame Mat this) else []) in
  m_data (CompressedImage.Serialize Mat is_CV_8UC3 imencode_jpg this TargetPacket)
  = frame (to_uint32 (to_uint32 (Z.of_nat (length payload + 7)) + 2)) 5 payload.
Proof.
  intros payload. unfold CompressedImage.Serialize.
  rewrite AddHash_data. unfold set_data at 1 2 3. cbn [m_data].
  rewrite AddHeader_Clear_data.
  unfold encodeField_float32. rewrite encodeField_uint32_bytes.
  assert (Hdata :
    CompressedImage.encodeField_CompressedImage Mat is_CV_8UC3 imencode_jpg
      (([218; 167] ++ be_bytes 4 (to_uint32 0) ++ [to_uint8 (to_uint8 5)])
         ++ be_bytes 4 (CompressedImage.TargetFPS Mat this))
      (CompressedImage.Frame Mat this)
    = [218; 167; 0; 0; 0; 0; 5] ++ payload).
  { unfold CompressedImage.encodeField_CompressedImage, payload.
    destruct (is_CV_8UC3 _); cbn [negb]; rewrite ?app_nil_r, <- ?app_assoc; reflexivity. }
  rewrite Hdata.
  replace (length ([218; 167; 0; 0; 0; 0; 5] ++ payload)) with (length payload + 7)%nat
    by (rewrite length_app; simpl; lia).
  set (packetSize := to_uint32 (to_uint32 (Z.of_nat (length payload + 7)) + 2)).
  cbn [app]. rewrite patch_size_field.
  unfold frame. rewrite hash_loop_all. unfold frame_body. cbn [be_bytes app].
  change (8 * Z.of_nat 3) with 24. change (8 * Z.of_nat 2) with 16.
  change (8 * Z.of_nat 1) with 8. change (8 * Z.of_nat 0) with 0.
  rewrite Z.shiftr_0_r. reflexivity.
Qed.

(* ------------------------------------------------------------------ *)
(** ** Serialized packets are valid frames *)

Lemma Serialize_frame TargetPacket Size PID payload :
  m_data (AddHash (set_data (AddHeader (Clear TargetPacket) Size PID)
                            (m_data (AddHeader (Clear TargetPacket) Size PID) ++ payload)))
  = frame Size PID payload.
Proof.
  rewrite AddHash_data. unfold set_data. cbn [m_data].
  rewrite AddHeader_Clear_data. unfold frame. rewrite hash_loop_all.
  unfold frame_body. rewrite <- !app_assoc. reflexivity.
Qed.

Lemma frame_body_length Size PID payload :
  length (frame_body Size PID payload) = (length payload + 7)%nat.
Proof. unfold frame_body. rewrite !length_app, be_bytes_length. simpl. lia. Qed.

Lemma frame_CheckHash p Size PID payload :
  m_data p = frame Size PID payload ->
  Size = Z.of_nat (length payload + 9) -> Size < 2^32 ->
  CheckHash p = Some true.
Proof.
  intros Hd HS Hfit. unfold CheckHash. rewrite Hd, frame_length.
  replace (length payload + 9 <? 9)%nat with false by (symmetry; apply Nat.ltb_ge; lia).
  assert (Hrd : decodeField_uint32 (frame Size PID payload) 2%nat = Some (Size, 6%nat)).
  { unfold frame, frame_body.
    pose proof (reads_uint32 Size ltac:(unfold is_uint32; lia)) as Hr.
    specialize (Hr [218; 167]). rewrite <- !app_assoc. rewrite Hr, be_bytes_length.
    reflexivity. }
  rewrite Hrd. rewrite HS at 1. rewrite Z.eqb_refl. cbn [negb].
  unfold frame.
  set (body := frame_body Size PID payload).
  assert (Hbl : length body = (length payload + 7)%nat) by apply frame_body_length.
  replace (length payload + 9 - 2)%nat with (length body) by lia.
  unfold hash_loop at 1. rewrite take_app_length.
  rewrite hash_loop_all.
  destruct (fold_left hash_step body (0, 0)) as [hashA hashB]. cbn [fst snd].
  replace (length body) with (length body + 0)%nat at 1 by lia.
  rewrite app_nth2_plus. cbn [nth].
  replace (length payload + 9 - 1)%nat with (length body + 1)%nat by lia.
  rewrite app_nth2_plus. cbn [nth].
  rewrite !Z.eqb_refl. reflexivity.
Qed.

Lemma frame_CheckHashSizeAndPID p Size PID payload PID' :
  m_data p = frame Size PID payload ->
  Size = Z.of_nat (length payload + 9) -> Size < 2^32 ->
  CheckHashSizeAndPID p PID' = Some (to_uint8 PID =? PID').
Proof.
  intros Hd HS Hfit. unfold CheckHashSizeAndPID.
  rewrite (frame_CheckHash p Size PID payload Hd HS Hfit).
  rewrite Hd. reflexivity.
Qed.

(* ------------------------------------------------------------------ *)
(** ** The size field of [Packet_CompressedImage::Serialize] *)

Lemma frame_hash_bytes Size PID payload :
  let data := frame Size PID payload in
  exists accA accB,
    RunningSums (take (length data - 2) data) accA accB /\
    drop (length data - 2) data = [accA; accB].
Proof.
  cbv zeta. rewrite frame_length. unfold frame. cbv zeta.
  set (body := frame_body Size PID payload).
  assert (Hbl : length body = (length payload + 7)%nat) by apply frame_body_length.
  replace (length payload + 9 - 2)%nat with (length body) by lia.
  rewrite take_app_length, drop_app_length, hash_loop_all.
  eexists _, _. split; [apply RunningSums_fold|reflexivity].
Qed.

Lemma CompressedImage_Serialize_frame {Mat : Type} (is_CV_8UC3 : Mat -> bool)
      (imencode_jpg : Mat -> list Z)
      (this : CompressedImage.Packet_CompressedImage Mat) TargetPacket :
  let jpeg := if is_CV_8UC3 (CompressedImage.Frame Mat this)
              then imencode_jpg (CompressedImage.Frame Mat this) else [] in
  let payload := be_bytes 4 (CompressedImage.TargetFPS Mat this) ++ jpeg in
  m_data (CompressedImage.Serialize Mat is_CV_8UC3 imencode_jpg this TargetPacket)
  = frame (Z.of_nat (4 + length jpeg + 9) mod 2^32) 5 payload /\
  length (m_data (CompressedImage.Serialize Mat is_CV_8UC3 imencode_jpg this TargetPacket))
  = (4 + length jpeg + 9)%nat /\
  be_value (slice 2 4
    (m_data (CompressedImage.Serialize Mat is_CV_8UC3 imencode_jpg this TargetPacket)))
  = Z.of_nat (4 + length jpeg + 9) mod 2^32.
Proof.
  intros jpeg payload.
  pose proof (CompressedImage_Serialize_data is_CV_8UC3 imencode_jpg this TargetPacket) as Hd.
  cbv zeta in Hd. fold jpeg in Hd. fold payload in Hd.
  assert (Hpl : length payload = (4 + length jpeg)%nat)
    by (unfold payload; rewrite length_app, be_bytes_length; reflexivity).
  assert (Hsz : to_uint32 (to_uint32 (Z.of_nat (length payload + 7)) + 2)
                = Z.of_nat (4 + length jpeg + 9) mod 2^32).
  { unfold to_uint32. rewrite Zplus_mod_idemp_l. f_equal. lia. }
  rewrite Hsz in Hd. rewrite Hd.
  split; [reflexivity|]. split; [rewrite frame_length; lia|].
  rewrite frame_size_field, be_value_be_bytes.
  change (2 ^ (8 * Z.of_nat 4)) with (2^32). apply Z.mod_mod. lia.
Qed.

(** C7.  After [Packet_CompressedImage::Serialize] the four bytes at offsets
    2-5 of the packet, read as a big-endian unsigned 32-bit integer, hold
    the packet's final total length (4 bytes of [TargetFPS], the JPEG
    bytes, 9 bytes of header and hash) reduced modulo 2^32: the length
    itself whenever it is below 2^32.  The header is first written with
    the placeholder size 0, and the hash is appended after the patch: the
    last two bytes are the running sums of all the bytes before them, the
    patched size field among them, so that a packet shorter than 2^32
    bytes passes [CheckHash]. *)
Theorem CompressedImage_size_field_patched {Mat : Type} (is_CV_8UC3 : Mat -> bool)
      (imencode_jpg : Mat -> list Z)
      (this : CompressedImage.Packet_CompressedImage Mat) TargetPacket :
  let p := CompressedImage.Serialize Mat is_CV_8UC3 imencode_jpg this TargetPacket in
  let jpeg := if is_CV_8UC3 (CompressedImage.Frame Mat this)
              then imencode_jpg (CompressedImage.Frame Mat this) else [] in
  let n := length (m_data p) in
  slice 2 4 (m_data (AddHeader (Clear TargetPacket) (to_uint32 0) (to_uint8 5)))
  = [0; 0; 0; 0] /\
  n = (4 + length jpeg + 9)%nat /\
  be_value (slice 2 4 (m_data p)) = Z.of_nat n mod 2^32 /\
  (exists accA accB,
     RunningSums (take (n - 2) (m_data p)) accA accB /\
     drop (n - 2) (m_data p) = [accA; accB]) /\
  (Z.of_nat n < 2^32 ->
   be_value (slice 2 4 (m_data p)) = Z.of_nat n /\
   decodeField_uint32 (m_data p) 2%nat = Some (Z.of_nat n, 6%nat) /\
   CheckHash p = Some true).
Proof.
  intros p jpeg n.
  destruct (CompressedImage_Serialize_frame is_CV_8UC3 imencode_jpg this TargetPacket)
    as (Hd & Hlen & Hval).
  cbv zeta in Hd, Hlen, Hval. fold jpeg in Hd, Hlen, Hval. fold p in Hd, Hlen, Hval.
  fold n in Hlen.
  split; [reflexivity|]. split; [exact Hlen|].
  split; [rewrite Hval, Hlen; reflexivity|].
  split.
  - unfold n. rewrite Hd. apply frame_hash_bytes.
  - intros Hfit. rewrite <- Hlen in Hd, Hval.
    rewrite Z.mod_small in Hd, Hval by lia.
    split; [exact Hval|].
    assert (Hpl : Z.of_nat n = Z.of_nat (length (be_bytes 4 (CompressedImage.TargetFPS Mat this)
                                                   ++ jpeg) + 9)).
    { rewrite Hlen, length_app, be_bytes_length. lia. }
    split.
    + rewrite Hd. unfold frame, frame_body.
      pose proof (reads_uint32 (Z.of_nat n) ltac:(unfold is_uint32; lia)) as Hr.
      specialize (Hr [218; 167]). rewrite <- !app_assoc.
      rewrite Hr, be_bytes_length. reflexivity.
    + apply (frame_CheckHash p _ _ _ Hd Hpl Hfit).
Qed.

Lemma CompressedImage_size_field_patched_witness :
  be_value (slice 2 4 (m_data stub_image_packet)) = 17 /\
  length (m_data stub_image_packet) = 17%nat /\
  CheckHash stub_image_packet = Some true.
Proof.
  destruct (CompressedImage_size_field_patched
              (fun _ : list Z => true) (fun x => x)
              stub_image_message fresh_packet) as (_ & Hlen & _ & _ & H).
  destruct (H ltac:(vm_compute; reflexivity)) as (Hval & _ & Hc).
  split; [etransitivity; [exact Hval|vm_compute; reflexivity]|].
  split; [exact Hlen|exact Hc].
Defined.

(** C7, the case that the size field cannot hold: a packet of [2^32]
    bytes carries the size 0. *)
Lemma CompressedImage_size_field_wraps :
  Z.of_nat (length (m_data huge_image_packet)) = 2^32 /\
  be_value (slice 2 4 (m_data huge_image_packet)) = 0.
Proof.
  unfold huge_image_packet.
  destruct (CompressedImage_Serialize_frame (fun _ : unit => true) (fun _ => huge_jpeg)
              {| CompressedImage.TargetFPS := 0x41200000; CompressedImage.Frame := tt |}
              fresh_packet) as (_ & Hlen & Hval).
  cbv beta iota zeta in Hlen, Hval.
  assert (Hn : Z.of_nat (4 + length huge_jpeg + 9) = 2^32).
  { unfold huge_jpeg. rewrite repeat_length. lia. }
  rewrite Hlen, Hval, Hn. split; [reflexivity|]. apply Z_mod_same_full.
Qed.

Lemma frame_payload {A} (d : Dec A) p Size PID payload v :
  m_data p = frame Size PID payload ->
  reads d payload v -> decode_payload d p = Some v.
Proof.
  intros Hd Hr. unfold decode_payload. rewrite Hd. unfold frame, frame_body.
  set (pre := [218; 167] ++ be_bytes 4 Size ++ [to_uint8 PID]).
  replace ([218; 167] ++ be_bytes 4 Size ++ [to_uint8 PID] ++ payload)
    with (pre ++ payload) by (unfold pre; rewrite <- !app_assoc; reflexivity).
  rewrite <- app_assoc.
  assert (Hlen : length pre = 7%nat)
    by (unfold pre; rewrite !length_app, be_bytes_length; reflexivity).
  specialize (Hr pre). rewrite Hlen in Hr. rewrite Hr. reflexivity.
Qed.

(* ------------------------------------------------------------------ *)
(** ** Round trips of the messages without floating-point conversion *)

Ltac serialize_frame :=
  cbv zeta; unfold encodeField_float32, encodeField_float64;
  rewrite ?encodeField_String_bytes, ?encodeField_uint8_bytes,
    ?encodeField_uint16_bytes, ?encodeField_uint32_bytes, ?encodeField_uint64_bytes;
  rewrite <- ?app_assoc; apply Serialize_frame.

Ltac reads_field :=
  match goal with
  | |- reads decodeField_uint8 _ _ => apply reads_uint8
  | |- reads decodeField_uint16 _ _ => apply reads_uint16
  | |- reads decodeField_float32 _ _ => apply reads_float32
  | |- reads decodeField_float64 _ _ => apply reads_float64
  end; assumption.

Ltac reads_fields :=
  repeat match goal with
         | |- reads (dbind ?d (fun x => dret (@?f x))) (be_bytes _ ?v) _ =>
             apply (reads_bind_ret d f _ v); reads_field
         | |- reads (dbind _ _) (_ ++ _) _ =>
             eapply reads_bind; [reads_field | cbv beta]
         end.

Lemma Acknowledgment_Serialize_data this TargetPacket :
  m_data (Acknowledgment.Serialize this TargetPacket)
  = frame (to_uint32 (9 + 2)) (to_uint8 3)
          (be_bytes 1 (Acknowledgment.Positive this) ++
           be_bytes 1 (Acknowledgment.SourcePID this)).
Proof. unfold Acknowledgment.Serialize. serialize_frame. Qed.

(** X1.  [Packet_Acknowledgment]: when both fields are bytes, [Deserialize] of the
    packet that [Serialize] builds succeeds, whatever the target and the
    packet held before, and leaves the serialized value in the target. *)
Theorem Acknowledgment_roundtrip this target TargetPacket :
  is_uint8 (Acknowledgment.Positive this) ->
  is_uint8 (Acknowledgment.SourcePID this) ->
  Acknowledgment.Deserialize target (Acknowledgment.Serialize this TargetPacket)
  = Some (true, this).
Proof.
  intros H1 H2.
  pose proof (Acknowledgment_Serialize_data this TargetPacket) as Hd.
  unfold Acknowledgment.Deserialize.
  rewrite (frame_CheckHashSizeAndPID _ _ _ _ 3 Hd)
    by (rewrite ?length_app, ?be_bytes_length; vm_compute; reflexivity).
  change (to_uint8 (to_uint8 3) =? 3) with true. cbv iota.
  rewrite Hd at 1. rewrite frame_length, !length_app, !be_bytes_length.
  cbn [Nat.add Nat.eqb negb].
  erewrite (frame_payload _ _ _ _ _ this Hd); [reflexivity|].
  unfold Acknowledgment.decode_fields. destruct this as [Positive SourcePID].
  cbn [Acknowledgment.Positive Acknowledgment.SourcePID] in *.
  reads_fields.
Qed.

Ltac roundtrip_fixed Hd pid v :=
  rewrite (frame_CheckHashSizeAndPID _ _ _ _ pid Hd)
    by (rewrite ?length_app, ?be_bytes_length; vm_compute; reflexivity);
  match goal with
  | |- context [to_uint8 (to_uint8 ?c) =? pid] =>
      change (to_uint8 (to_uint8 c) =? pid) with true
  end;
  cbv iota;
  rewrite Hd at 1; rewrite frame_length, ?length_app, ?be_bytes_length;
  cbn [Nat.add Nat.eqb negb];
  erewrite (frame_payload _ _ _ _ _ v Hd); [reflexivity|].

Lemma EmergencyCommand_Serialize_data this TargetPacket :
  m_data (EmergencyCommand.Serialize this TargetPacket)
  = frame (to_uint32 (9 + 1)) (to_uint8 255)
          (be_bytes 1 (EmergencyCommand.Action this)).
Proof.
  unfold EmergencyCommand.Serialize. cbv zeta.
  rewrite encodeField_uint8_bytes. apply Serialize_frame.
Qed.

(** X2.  [Packet_EmergencyCommand]: when [Action] is a byte, [Deserialize] of the
    packet that [Serialize] builds succeeds and leaves the serialized value
    in the target. *)
Theorem EmergencyCommand_roundtrip this target TargetPacket :
  EmergencyCommand_fits this ->
  EmergencyCommand.Deserialize target (EmergencyCommand.Serialize this TargetPacket)
  = Some (true, this).
Proof.
  unfold EmergencyCommand_fits. intros H1.
  pose proof (EmergencyCommand_Serialize_data this TargetPacket) as Hd.
  unfold EmergencyCommand.Deserialize.
  roundtrip_fixed Hd 255 this.
  unfold EmergencyCommand.decode_fields. destruct this as [Action].
  cbn [EmergencyCommand.Action] in *. reads_fields.
Qed.

Lemma CameraControl_Serialize_data this TargetPacket :
  m_data (CameraControl.Serialize this TargetPacket)
  = frame (to_uint32 (9 + 5)) (to_uint8 254)
          (be_bytes 1 (CameraControl.Action this) ++
           be_bytes 4 (CameraControl.TargetFPS this)).
Proof. unfold CameraControl.Serialize. serialize_frame. Qed.

(** X3.  [Packet_CameraControl]: [Deserialize] of the packet that [Serialize]
    builds succeeds and gives back [Action] and the bit pattern of
    [TargetFPS] unchanged (NaN patterns included). *)
Theorem CameraControl_roundtrip this target TargetPacket :
  CameraControl_fits this ->
  CameraControl.Deserialize target (CameraControl.Serialize this TargetPacket)
  = Some (true, this).
Proof.
  unfold CameraControl_fits. intros [H1 H2].
  pose proof (CameraControl_Serialize_data this TargetPacket) as Hd.
  unfold CameraControl.Deserialize.
  roundtrip_fixed Hd 254 this.
  unfold CameraControl.decode_fields. destruct this as [Action TargetFPS].
  cbn [CameraControl.Action CameraControl.TargetFPS] in *. reads_fields.
Qed.

Lemma CoreTelemetry_Serialize_data this TargetPacket :
  m_data (CoreTelemetry.Serialize this TargetPacket)
  = frame (to_uint32 (9 + 69)) (to_uint8 0)
          (be_bytes 1 (CoreTelemetry.IsFlying this) ++
           be_bytes 8 (CoreTelemetry.Latitude this) ++
           be_bytes 8 (CoreTelemetry.Longitude this) ++
           be_bytes 8 (CoreTelemetry.Altitude this) ++
           be_bytes 8 (CoreTelemetry.HAG this) ++
           be_bytes 4 (CoreTelemetry.V_N this) ++
           be_bytes 4 (CoreTelemetry.V_E this) ++
           be_bytes 4 (CoreTelemetry.V_D this) ++
           be_bytes 8 (CoreTelemetry.Yaw this) ++
           be_bytes 8 (CoreTelemetry.Pitch this) ++
           be_bytes 8 (CoreTelemetry.Roll this)).
Proof. unfold CoreTelemetry.Serialize. serialize_frame. Qed.

(** X4.  [Packet_CoreTelemetry]: [Deserialize] of the packet that [Serialize]
    builds succeeds and gives back [IsFlying] and the bit pattern of every
    floating-point field unchanged: no field goes through arithmetic. *)
Theorem CoreTelemetry_roundtrip this target TargetPacket :
  CoreTelemetry_fits this ->
  CoreTelemetry.Deserialize target (CoreTelemetry.Serialize this TargetPacket)
  = Some (true, this).
Proof.
  unfold CoreTelemetry_fits. intros (H1 & H2 & H3 & H4 & H5 & H6 & H7 & H8 & H9 & H10 & H11).
  pose proof (CoreTelemetry_Serialize_data this TargetPacket) as Hd.
  unfold CoreTelemetry.Deserialize.
  roundtrip_fixed Hd 0 this.
  unfold CoreTelemetry.decode_fields. destruct this.
  cbn [CoreTelemetry.IsFlying CoreTelemetry.Latitude CoreTelemetry.Longitude
       CoreTelemetry.Altitude CoreTelemetry.HAG CoreTelemetry.V_N CoreTelemetry.V_E
       CoreTelemetry.V_D CoreTelemetry.Yaw CoreTelemetry.Pitch CoreTelemetry.Roll] in *.
  reads_fields.
Qed.

(** *** Messages that end in a string *)

Lemma MessageString_Serialize_data this TargetPacket :
  m_data (MessageString.Serialize this TargetPacket)
  = frame (to_uint32 (9 + 1 + 4 + string_size (MessageString.Message this))) (to_uint8 4)
          (be_bytes 1 (MessageString.Type_ this) ++
           be_bytes 4 (to_uint32 (string_size (MessageString.Message this))) ++
           string_bytes (MessageString.Message this)).
Proof. unfold MessageString.Serialize. serialize_frame. Qed.

(** X5.  [Packet_MessageString]: when [Type] is a byte and the packet length
    [14 + Message.size()] fits 32 bits, [Deserialize] of the packet that
    [Serialize] builds succeeds and gives back the type and the string. *)
Theorem MessageString_roundtrip this target TargetPacket :
  MessageString_fits this ->
  MessageString.Deserialize target (MessageString.Serialize this TargetPacket)
  = Some (true, this).
Proof.
  unfold MessageString_fits. intros [H1 Hfit].
  pose proof (MessageString_Serialize_data this TargetPacket) as Hd.
  destruct this as [Type_ Message].
  cbn [MessageString.Type_ MessageString.Message] in *.
  assert (Hs : 0 <= string_size Message) by (unfold string_size; lia).
  assert (Hlen : length (m_data (MessageString.Serialize
                   {| MessageString.Type_ := Type_; MessageString.Message := Message |}
                   TargetPacket))
                 = (String.length Message + 14)%nat).
  { rewrite Hd, frame_length, !length_app, !be_bytes_length, string_bytes_length. lia. }
  unfold MessageString.Deserialize.
  rewrite (frame_CheckHashSizeAndPID _ _ _ _ 4 Hd).
  2:{ rewrite !length_app, !be_bytes_length, string_bytes_length.
      unfold to_uint32, string_size in *. rewrite Z.mod_small; lia. }
  2:{ unfold to_uint32. apply Z.mod_pos_bound. lia. }
  change (to_uint8 (to_uint8 4) =? 4) with true. cbv iota.
  rewrite Hlen.
  replace (String.length Message + 14 <? 9 + 5)%nat with false
    by (symmetry; apply Nat.ltb_ge; lia).
  erewrite (frame_payload _ _ _ _ _
              {| MessageString.Type_ := Type_; MessageString.Message := Message |} Hd);
    [reflexivity|].
  unfold MessageString.decode_fields.
  eapply reads_bind; [apply reads_uint8; assumption|]. cbv beta zeta.
  replace (to_uint32 (to_uint32 (Z.of_nat (String.length Message + 14)) - 9 - 1))
    with (string_size Message + 4)
    by (unfold to_uint32, string_size in *; mod_small; lia).
  apply (reads_bind_ret _ (fun sm : string * Z =>
           {| MessageString.Type_ := Type_; MessageString.Message := fst sm |})
           _ (Message, string_size Message + 4 - (string_size Message + 4))).
  apply reads_String; lia.
Qed.

Lemma ExtendedTelemetry_Serialize_data this TargetPacket :
  m_data (ExtendedTelemetry.Serialize this TargetPacket)
  = frame (to_uint32 (9 + 12 + 4 + string_size (ExtendedTelemetry.DroneSerial this)))
          (to_uint8 1)
          (be_bytes 2 (ExtendedTelemetry.GNSSSatCount this) ++
           be_bytes 1 (ExtendedTelemetry.GNSSSignal this) ++
           be_bytes 1 (ExtendedTelemetry.MaxHeight this) ++
           be_bytes 1 (ExtendedTelemetry.MaxDist this) ++
           be_bytes 1 (ExtendedTelemetry.BatLevel this) ++
           be_bytes 1 (ExtendedTelemetry.BatWarning this) ++
           be_bytes 1 (ExtendedTelemetry.WindLevel this) ++
           be_bytes 1 (ExtendedTelemetry.DJICam this) ++
           be_bytes 1 (ExtendedTelemetry.FlightMode this) ++
           be_bytes 2 (ExtendedTelemetry.MissionID this) ++
           be_bytes 4 (to_uint32 (string_size (ExtendedTelemetry.DroneSerial this))) ++
           string_bytes (ExtendedTelemetry.DroneSerial this)).
Proof. unfold ExtendedTelemetry.Serialize. serialize_frame. Qed.

(** X6.  [Packet_ExtendedTelemetry]: when the fields fit their widths and the
    packet length [25 + DroneSerial.size()] fits 32 bits, [Deserialize] of
    the packet that [Serialize] builds succeeds and gives back every field. *)
Theorem ExtendedTelemetry_roundtrip this target TargetPacket :
  ExtendedTelemetry_fits this ->
  ExtendedTelemetry.Deserialize target (ExtendedTelemetry.Serialize this TargetPacket)
  = Some (true, this).
Proof.
  unfold ExtendedTelemetry_fits.
  intros (H1 & H2 & H3 & H4 & H5 & H6 & H7 & H8 & H9 & H10 & Hfit).
  pose proof (ExtendedTelemetry_Serialize_data this TargetPacket) as Hd.
  destruct this as [f1 f2 f3 f4 f5 f6 f7 f8 f9 f10 DroneSerial].
  cbn [ExtendedTelemetry.GNSSSatCount ExtendedTelemetry.GNSSSignal
       ExtendedTelemetry.MaxHeight ExtendedTelemetry.MaxDist ExtendedTelemetry.BatLevel
       ExtendedTelemetry.BatWarning ExtendedTelemetry.WindLevel ExtendedTelemetry.DJICam
       ExtendedTelemetry.FlightMode ExtendedTelemetry.MissionID
       ExtendedTelemetry.DroneSerial] in *.
  set (this := {| ExtendedTelemetry.GNSSSatCount := f1; ExtendedTelemetry.DroneSerial := DroneSerial |}) in *.
  assert (Hs : 0 <= string_size DroneSerial) by (unfold string_size; lia).
  assert (Hlen : length (m_data (ExtendedTelemetry.Serialize this TargetPacket))
                 = (String.length DroneSerial + 25)%nat).
  { rewrite Hd, frame_length, !length_app, !be_bytes_length, string_bytes_length. lia. }
  unfold ExtendedTelemetry.Deserialize.
  rewrite (frame_CheckHashSizeAndPID _ _ _ _ 1 Hd).
  2:{ rewrite !length_app, !be_bytes_length, string_bytes_length.
      unfold to_uint32, string_size in *. rewrite Z.mod_small; lia. }
  2:{ unfold to_uint32. apply Z.mod_pos_bound. lia. }
  change (to_uint8 (to_uint8 1) =? 1) with true. cbv iota.
  rewrite Hlen.
  replace (String.length DroneSerial + 25 <? 9 + 16)%nat with false
    by (symmetry; apply Nat.ltb_ge; lia).
  erewrite (frame_payload _ _ _ _ _ this Hd); [reflexivity|].
  unfold ExtendedTelemetry.decode_fields.
  do 10 (eapply reads_bind;
         [first [apply reads_uint8 | apply reads_uint16]; assumption | cbv beta]).
  cbv zeta.
  replace (to_uint32 (to_uint32 (Z.of_nat (String.length DroneSerial + 25)) - 9 - 12))
    with (string_size DroneSerial + 4)
    by (unfold to_uint32, string_size in *; mod_small; lia).
  apply (reads_bind_ret _ (fun sm : string * Z =>
           {| ExtendedTelemetry.GNSSSatCount := f1; ExtendedTelemetry.DroneSerial := fst sm |})
           _ (DroneSerial, string_size DroneSerial + 4 - (string_size DroneSerial + 4))).
  apply reads_String; lia.
Qed.

(* ------------------------------------------------------------------ *)
(** ** Round trips of the messages with angles *)

(** The arithmetic on some values: [pi] radians are 180.0 degrees; a NaN
    gimbal pitch goes to the wire with its sign and payload, the sentinel
    [std::nanf("")] unchanged; an infinite yaw makes [fmod] invalid and goes
    to the wire as the default NaN. *)
Example yaw_deg_of_pi : VirtualStickCommand.yaw_deg_of 0x40490FDB = 0x43340000.
Proof. vm_compute. reflexivity. Qed.

Example gimbal_pitch_nan_on_wire :
  float_of_double (deg_of_rad (double_of_float 0xFFC00001)) = 0xFFC00001 /\
  float_of_double (deg_of_rad (double_of_float 0x7F800001)) = 0x7FC00001 /\
  float_of_double (deg_of_rad (double_of_float nanf)) = nanf.
Proof. vm_compute. auto. Qed.

Example yaw_deg_of_infinity :
  VirtualStickCommand.yaw_deg_of 0x7F800000 = 0xFFC00000 /\
  VirtualStickCommand.yaw_deg_of 0xFF800000 = 0xFFC00000.
Proof. vm_compute. auto. Qed.

Lemma double_of_SF_range f : is_uint64 (double_of_SF f).
Proof. unfold double_of_SF, is_uint64, to_uint64. apply Z.mod_pos_bound. lia. Qed.

Lemma float_of_SF_range f : is_uint32 (float_of_SF f).
Proof. unfold float_of_SF, is_uint32, to_uint32. apply Z.mod_pos_bound. lia. Qed.

Lemma quiet_double_range x : is_uint64 (quiet_double x).
Proof. unfold quiet_double, is_uint64, to_uint64. apply Z.mod_pos_bound. lia. Qed.

Lemma double_mul_range x y : is_uint64 (double_mul x y).
Proof.
  unfold double_mul.
  destruct (double_is_nan x); [apply quiet_double_range|].
  destruct (double_is_nan y); [apply quiet_double_range|apply double_of_SF_range].
Qed.

Lemma double_div_range x y : is_uint64 (double_div x y).
Proof.
  unfold double_div.
  destruct (double_is_nan x); [apply quiet_double_range|].
  destruct (double_is_nan y); [apply quiet_double_range|apply double_of_SF_range].
Qed.

Lemma deg_of_rad_range x : is_uint64 (deg_of_rad x).
Proof. unfold deg_of_rad. apply double_div_range. Qed.

Lemma float_of_double_range x : is_uint32 (float_of_double x).
Proof.
  unfold float_of_double.
  destruct (double_is_nan x); [|apply float_of_SF_range].
  unfold is_uint32, sign_bit.
  assert (0 <= (x mod 2^51) / 2^29 < 2^22).
  { pose proof (Z.mod_pos_bound x (2^51) ltac:(lia)).
    split; [apply Z.div_pos; lia|apply Z.div_lt_upper_bound; lia]. }
  destruct (Z.testbit x 63); lia.
Qed.

Lemma yaw_deg_of_range Yaw : is_uint32 (VirtualStickCommand.yaw_deg_of Yaw).
Proof.
  unfold VirtualStickCommand.yaw_deg_of. cbv zeta.
  repeat match goal with
         | |- context [if ?b then _ else _] => destruct b
         end; apply float_of_double_range.
Qed.

Lemma VirtualStickCommand_Serialize_data this TargetPacket :
  m_data (VirtualStickCommand.Serialize this TargetPacket)
  = frame (to_uint32 (9 + 21)) (to_uint8 252)
          (be_bytes 1 (VirtualStickCommand.Mode this) ++
           be_bytes 4 (VirtualStickCommand.yaw_deg_of (VirtualStickCommand.Yaw this)) ++
           be_bytes 4 (VirtualStickCommand.V_x this) ++
           be_bytes 4 (VirtualStickCommand.V_y this) ++
           be_bytes 4 (VirtualStickCommand.HAG this) ++
           be_bytes 4 (VirtualStickCommand.timeout this)).
Proof. unfold VirtualStickCommand.Serialize. serialize_frame. Qed.

(** X7.  [Packet_VirtualStickCommand]: [Deserialize] of the packet that
    [Serialize] builds succeeds; [Mode], [V_x], [V_y], [HAG] and [timeout]
    come back bit for bit, and [Yaw] comes back as the degree value written
    by [Serialize], multiplied by [PI] and divided by 180.0 in [double] and
    rounded to [float]. *)
Theorem VirtualStickCommand_roundtrip this target TargetPacket :
  VirtualStickCommand_fits this ->
  VirtualStickCommand.Deserialize target (VirtualStickCommand.Serialize this TargetPacket)
  = Some (true, VirtualStickCommand_through_wire this).
Proof.
  unfold VirtualStickCommand_fits. intros (H1 & H2 & H3 & H4 & H5 & H6).
  pose proof (VirtualStickCommand_Serialize_data this TargetPacket) as Hd.
  pose proof (yaw_deg_of_range (VirtualStickCommand.Yaw this)) as Hy.
  unfold VirtualStickCommand.Deserialize.
  roundtrip_fixed Hd 252 (VirtualStickCommand_through_wire this).
  unfold VirtualStickCommand.decode_fields, VirtualStickCommand_through_wire.
  destruct this.
  cbn [VirtualStickCommand.Mode VirtualStickCommand.Yaw VirtualStickCommand.V_x
       VirtualStickCommand.V_y VirtualStickCommand.HAG VirtualStickCommand.timeout] in *.
  reads_fields.
Qed.

Lemma waypoint_bytes_length w : length (waypoint_bytes w) = 40%nat.
Proof. unfold waypoint_bytes. rewrite !length_app, !be_bytes_length. reflexivity. Qed.

Lemma encode_waypoint_bytes data w :
  ExecuteWaypointMission.encode_waypoint data w = data ++ waypoint_bytes w.
Proof.
  unfold ExecuteWaypointMission.encode_waypoint, waypoint_bytes. cbv zeta.
  unfold encodeField_float32, encodeField_float64.
  rewrite !encodeField_uint32_bytes, !encodeField_uint64_bytes, <- !app_assoc.
  reflexivity.
Qed.

Lemma encode_waypoints_bytes ws : forall data,
  fold_left ExecuteWaypointMission.encode_waypoint ws data
  = data ++ concat (map waypoint_bytes ws).
Proof.
  induction ws as [|w ws IH]; intros data; cbn [fold_left map concat].
  - rewrite app_nil_r. reflexivity.
  - rewrite IH, encode_waypoint_bytes, <- app_assoc. reflexivity.
Qed.

Lemma waypoints_bytes_length ws :
  length (concat (map waypoint_bytes ws)) = (40 * length ws)%nat.
Proof.
  induction ws as [|w ws IH]; cbn [map concat length]; [reflexivity|].
  rewrite length_app, waypoint_bytes_length, IH. lia.
Qed.

Lemma reads_waypoint w :
  Waypoint_fits w ->
  reads ExecuteWaypointMission.decode_waypoint (waypoint_bytes w) (Waypoint_through_wire w).
Proof.
  unfold Waypoint_fits. intros (H1 & H2 & H3 & H4 & H5 & H6 & H7).
  pose proof (deg_of_rad_range (Latitude w)) as Hlat.
  pose proof (deg_of_rad_range (Longitude w)) as Hlon.
  pose proof (float_of_double_range (deg_of_rad (double_of_float (GimbalPitch w)))) as Hg.
  unfold ExecuteWaypointMission.decode_waypoint, waypoint_bytes, Waypoint_through_wire.
  reads_fields.
Qed.

Lemma reads_waypoints ws : forall acc,
  Forall Waypoint_fits ws ->
  reads (ExecuteWaypointMission.decode_waypoints (length ws) acc)
        (concat (map waypoint_bytes ws))
        (acc ++ map Waypoint_through_wire ws).
Proof.
  induction ws as [|w ws IH]; intros acc Hfit; cbn [length map concat].
  - cbn [ExecuteWaypointMission.decode_waypoints]. rewrite app_nil_r. apply reads_ret.
  - cbn [ExecuteWaypointMission.decode_waypoints].
    apply Forall_cons in Hfit. destruct Hfit as [Hw Hws].
    eapply reads_bind; [apply reads_waypoint, Hw|].
    replace (acc ++ Waypoint_through_wire w :: map Waypoint_through_wire ws)
      with ((acc ++ [Waypoint_through_wire w]) ++ map Waypoint_through_wire ws)
      by (rewrite <- app_assoc; reflexivity).
    apply IH, Hws.
Qed.

Lemma ExecuteWaypointMission_Serialize_data this TargetPacket :
  m_data (ExecuteWaypointMission.Serialize this TargetPacket)
  = frame (to_uint32 (9 + 2 + to_uint32 (40 * to_uint32
             (Z.of_nat (length (ExecuteWaypointMission.Waypoints this))))))
          (to_uint8 253)
          (be_bytes 1 (ExecuteWaypointMission.LandAtEnd this) ++
           be_bytes 1 (ExecuteWaypointMission.CurvedFlight this) ++
           concat (map waypoint_bytes (ExecuteWaypointMission.Waypoints this))).
Proof.
  unfold ExecuteWaypointMission.Serialize. cbv zeta.
  rewrite encode_waypoints_bytes, !encodeField_uint8_bytes, <- !app_assoc.
  apply Serialize_frame.
Qed.

Lemma ExecuteWaypointMission_roundtrip_frame this target TargetPacket :
  ExecuteWaypointMission_fits this ->
  ExecuteWaypointMission.Waypoints this <> [] ->
  ExecuteWaypointMission.Deserialize target
    (ExecuteWaypointMission.Serialize this TargetPacket)
  = Some (true,
          {| ExecuteWaypointMission.LandAtEnd := ExecuteWaypointMission.LandAtEnd this;
             ExecuteWaypointMission.CurvedFlight := ExecuteWaypointMission.CurvedFlight this;
             ExecuteWaypointMission.Waypoints :=
               map Waypoint_through_wire (ExecuteWaypointMission.Waypoints this) |}).
Proof.
  unfold ExecuteWaypointMission_fits. intros (H1 & H2 & Hws & Hfit) Hne.
  pose proof (ExecuteWaypointMission_Serialize_data this TargetPacket) as Hd.
  destruct this as [LandAtEnd CurvedFlight Waypoints].
  cbn [ExecuteWaypointMission.LandAtEnd ExecuteWaypointMission.CurvedFlight
       ExecuteWaypointMission.Waypoints] in *.
  set (this := {| ExecuteWaypointMission.LandAtEnd := LandAtEnd;
                  ExecuteWaypointMission.Waypoints := Waypoints |}) in *.
  assert (HN : (1 <= length Waypoints)%nat)
    by (destruct Waypoints; [contradiction | simpl; lia]).
  assert (Hlen : length (m_data (ExecuteWaypointMission.Serialize this TargetPacket))
                 = (40 * length Waypoints + 11)%nat).
  { rewrite Hd, frame_length, !length_app, !be_bytes_length, waypoints_bytes_length. lia. }
  unfold ExecuteWaypointMission.Deserialize.
  rewrite (frame_CheckHashSizeAndPID _ _ _ _ 253 Hd).
  2:{ rewrite !length_app, !be_bytes_length, waypoints_bytes_length.
      unfold to_uint32. mod_small. lia. }
  2:{ unfold to_uint32. apply Z.mod_pos_bound. lia. }
  change (to_uint8 (to_uint8 253) =? 253) with true. cbv iota.
  rewrite Hlen.
  replace (40 * length Waypoints + 11 <? 9 + 2 + 40)%nat with false
    by (symmetry; apply Nat.ltb_ge; lia).
  eapply (frame_payload _ _ _ _ _ _ Hd).
  do 2 (eapply reads_bind; [apply reads_uint8; assumption | cbv beta]).
  cbv zeta.
  replace (to_uint32 (to_uint32 (Z.of_nat (40 * length Waypoints + 11)) - 9 - 2))
    with (40 * Z.of_nat (length Waypoints))
    by (unfold to_uint32; mod_small; lia).
  replace ((40 * Z.of_nat (length Waypoints)) mod 40) with 0
    by (rewrite Z.mul_comm, Z.mod_mul; lia).
  cbn [Z.eqb negb].
  replace (40 * Z.of_nat (length Waypoints) / 40) with (Z.of_nat (length Waypoints))
    by (rewrite Z.mul_comm, Z.div_mul; lia).
  rewrite Nat2Z.id.
  apply (reads_bind_ret _ (fun ws => (true,
           {| ExecuteWaypointMission.LandAtEnd := LandAtEnd;
              ExecuteWaypointMission.CurvedFlight := CurvedFlight;
              ExecuteWaypointMission.Waypoints := ws |}))
           _ (map Waypoint_through_wire Waypoints)).
  apply (reads_waypoints Waypoints [] Hws).
Qed.

(** X8.  [Packet_ExecuteWaypointMission]: for a mission of at least one waypoint
    whose length [11 + 40*N] fits 32 bits, [Deserialize] of the packet that
    [Serialize] builds succeeds with the two flags and as many waypoints, in
    order; [RelAltitude], [CornerRadius], [Speed] and [LoiterTime] of each
    come back bit for bit, [Latitude], [Longitude] and [GimbalPitch] after
    the conversion to degrees and back. *)
Theorem ExecuteWaypointMission_roundtrip this target TargetPacket :
  ExecuteWaypointMission_fits this ->
  ExecuteWaypointMission.Waypoints this <> [] ->
  ExecuteWaypointMission.Deserialize target
    (ExecuteWaypointMission.Serialize this TargetPacket)
  = Some (true,
          {| ExecuteWaypointMission.LandAtEnd := ExecuteWaypointMission.LandAtEnd this;
             ExecuteWaypointMission.CurvedFlight := ExecuteWaypointMission.CurvedFlight this;
             ExecuteWaypointMission.Waypoints :=
               map Waypoint_through_wire (ExecuteWaypointMission.Waypoints this) |}).
Proof. apply ExecuteWaypointMission_roundtrip_frame. Qed.


(** *** The round trips on the example messages *)

Ltac in_range :=
  repeat split; vm_compute; first [reflexivity | discriminate].

Lemma Acknowledgment_roundtrip_witness :
  Acknowledgment.Deserialize
    {| Acknowledgment.Positive := 0; Acknowledgment.SourcePID := 0 |}
    (Acknowledgment.Serialize ack_example fresh_packet)
  = Some (true, ack_example).
Proof.
  apply (Acknowledgment_roundtrip ack_example); in_range.
Defined.

Lemma EmergencyCommand_roundtrip_witness :
  EmergencyCommand.Deserialize {| EmergencyCommand.Action := 0 |}
    (EmergencyCommand.Serialize emergency_example fresh_packet)
  = Some (true, emergency_example).
Proof.
  apply (EmergencyCommand_roundtrip emergency_example).
  unfold EmergencyCommand_fits; in_range.
Defined.

Lemma CameraControl_roundtrip_witness :
  CameraControl.Deserialize
    {| CameraControl.Action := 0; CameraControl.TargetFPS := 0 |}
    (CameraControl.Serialize camera_example fresh_packet)
  = Some (true, camera_example).
Proof.
  apply (CameraControl_roundtrip camera_example).
  unfold CameraControl_fits; in_range.
Defined.

Lemma CoreTelemetry_roundtrip_witness :
  CoreTelemetry.Deserialize telemetry_example
    (CoreTelemetry.Serialize telemetry_example fresh_packet)
  = Some (true, telemetry_example).
Proof.
  apply (CoreTelemetry_roundtrip telemetry_example).
  unfold CoreTelemetry_fits; in_range.
Defined.

Lemma MessageString_roundtrip_witness :
  MessageString.Deserialize
    {| MessageString.Type_ := 0; MessageString.Message := "" |}
    (MessageString.Serialize message_example fresh_packet)
  = Some (true, message_example).
Proof.
  apply (MessageString_roundtrip message_example).
  unfold MessageString_fits; in_range.
Defined.

Lemma ExtendedTelemetry_roundtrip_witness :
  ExtendedTelemetry.Deserialize extended_example
    (ExtendedTelemetry.Serialize extended_example fresh_packet)
  = Some (true, extended_example).
Proof.
  apply (ExtendedTelemetry_roundtrip extended_example).
  unfold ExtendedTelemetry_fits; in_range.
Defined.

Lemma VirtualStickCommand_roundtrip_witness :
  VirtualStickCommand.Deserialize stick_example
    (VirtualStickCommand.Serialize stick_example fresh_packet)
  = Some (true, VirtualStickCommand_through_wire stick_example).
Proof.
  apply (VirtualStickCommand_roundtrip stick_example).
  unfold VirtualStickCommand_fits; in_range.
Defined.

Lemma ExecuteWaypointMission_roundtrip_witness :
  ExecuteWaypointMission.Deserialize one_waypoint_mission one_waypoint_packet
  = Some (true,
          {| ExecuteWaypointMission.LandAtEnd := 1;
             ExecuteWaypointMission.CurvedFlight := 0;
             ExecuteWaypointMission.Waypoints :=
               [Waypoint_through_wire default_waypoint] |}).
Proof.
  apply (ExecuteWaypointMission_roundtrip one_waypoint_mission).
  - unfold ExecuteWaypointMission_fits. simpl.
    split; [unfold is_uint8; lia|]. split; [unfold is_uint8; lia|].
    split; [|lia].
    constructor; [|constructor].
    unfold Waypoint_fits; in_range.
  - discriminate.
Defined.

(* ------------------------------------------------------------------ *)
(** ** [operator==] on floating-point fields *)

Lemma SFcompare_refl f : f <> S754_nan -> SFcompare f f = Some Eq.
Proof.
  destruct f as [s|s| |s m e]; intros H; try contradiction; simpl.
  - reflexivity.
  - destruct s; reflexivity.
  - destruct s; rewrite Z.compare_refl, Pos.compare_cont_refl; reflexivity.
Qed.

Lemma SFeqb_refl f : SFeqb f f = match f with S754_nan => false | _ => true end.
Proof.
  unfold SFeqb. destruct f as [s|s| |s m e]; try (rewrite SFcompare_refl; [reflexivity | discriminate]).
  reflexivity.
Qed.

Lemma float_eqb_refl x : float_eqb x x = negb (float_is_nan x).
Proof. unfold float_eqb, float_is_nan. rewrite SFeqb_refl. destruct (SF_of_float x); reflexivity. Qed.

Lemma double_eqb_refl x : double_eqb x x = negb (double_is_nan x).
Proof. unfold double_eqb, double_is_nan. rewrite SFeqb_refl. destruct (SF_of_double x); reflexivity. Qed.

Lemma SFeqb_nan_l f : SFeqb S754_nan f = false.
Proof. reflexivity. Qed.



(** X9.  [Waypoint::operator==] holds between a waypoint and itself exactly
    when none of its seven fields is a NaN; the default-constructed
    waypoint, whose [LoiterTime] and [GimbalPitch] are [std::nanf("")], is
    not equal to itself. *)
Theorem Waypoint_eqb_refl_iff_no_nan :
  (forall w, Waypoint_eqb w w = Waypoint_no_nan w) /\
  Waypoint_eqb default_waypoint default_waypoint = false.
Proof.
  split; [|reflexivity].
  intros w. unfold Waypoint_eqb, Waypoint_no_nan.
  rewrite !double_eqb_refl, !float_eqb_refl. reflexivity.
Qed.

Lemma waypoints_eqb_map (f : Waypoint -> Waypoint) ws :
  ExecuteWaypointMission.waypoints_eqb (map f ws) ws
  = forallb (fun w => Waypoint_eqb (f w) w) ws.
Proof.
  induction ws as [|w ws IH]; [reflexivity|].
  cbn [map ExecuteWaypointMission.waypoints_eqb forallb].
  rewrite IH. destruct (Waypoint_eqb (f w) w); reflexivity.
Qed.

(** X10.  For a mission of at least one waypoint whose packet length fits
    32 bits, the mission that [Deserialize] makes of the serialized packet
    compares equal to the original under [operator==] exactly when every
    waypoint, taken through the conversion to degrees and back, compares
    equal to itself before the conversion. *)
Theorem ExecuteWaypointMission_roundtrip_eqb this target TargetPacket :
  ExecuteWaypointMission_fits this ->
  ExecuteWaypointMission.Waypoints this <> [] ->
  exists this',
    ExecuteWaypointMission.Deserialize target
      (ExecuteWaypointMission.Serialize this TargetPacket) = Some (true, this') /\
    ExecuteWaypointMission.eqb this' this
    = forallb (fun w => Waypoint_eqb (Waypoint_through_wire w) w)
              (ExecuteWaypointMission.Waypoints this).
Proof.
  intros Hfit Hne. eexists. split.
  - apply ExecuteWaypointMission_roundtrip_frame; assumption.
  - unfold ExecuteWaypointMission.eqb.
    cbn [ExecuteWaypointMission.LandAtEnd ExecuteWaypointMission.CurvedFlight
         ExecuteWaypointMission.Waypoints].
    rewrite !Z.eqb_refl, length_map, Nat.eqb_refl. cbn [negb orb].
    apply waypoints_eqb_map.
Qed.



Lemma survey_mission_fits : ExecuteWaypointMission_fits survey_mission.
Proof.
  unfold ExecuteWaypointMission_fits.
  split; [in_range|]. split; [in_range|]. split; [|in_range].
  repeat constructor; unfold Waypoint_fits; in_range.
Qed.


Lemma ExecuteWaypointMission_roundtrip_eqb_witness :
  exists this',
    ExecuteWaypointMission.Deserialize one_waypoint_mission
      (ExecuteWaypointMission.Serialize survey_mission fresh_packet) = Some (true, this') /\
    ExecuteWaypointMission.eqb this' survey_mission = true.
Proof.
  destruct (ExecuteWaypointMission_roundtrip_eqb survey_mission one_waypoint_mission
              fresh_packet survey_mission_fits ltac:(discriminate))
    as (this' & Hd & He).
  exists this'. split; [exact Hd|]. rewrite He. vm_compute. reflexivity.
Defined.


(* ------------------------------------------------------------------ *)
(** ** No read outside the packet *)

Lemma CheckHash_total p : exists b, CheckHash p = Some b.
Proof.
  unfold CheckHash.
  destruct (length (m_data p) <? 9)%nat eqn:Hlen; [eauto|].
  apply Nat.ltb_ge in Hlen.
  destruct (consumes_uint32 (m_data p) 2%nat ltac:(lia)) as [size Hd].
  rewrite Hd.
  destruct (negb (size =? Z.of_nat (length (m_data p)))); [eauto|].
  destruct (hash_loop _ _). eauto.
Qed.

Lemma CheckHashSizeAndPID_total p PID : exists b, CheckHashSizeAndPID p PID = Some b.
Proof.
  unfold CheckHashSizeAndPID.
  destruct (CheckHash p) as [[|]|] eqn:Hc.
  - unfold CheckHash in Hc.
    destruct (length (m_data p) <? 9)%nat eqn:Hlen; [discriminate|].
    apply Nat.ltb_ge in Hlen.
    destruct (consumes_uint8 (m_data p) 6%nat ltac:(lia)) as [v Hv].
    rewrite Hv. eauto.
  - eauto.
  - destruct (CheckHash_total p) as [b Hb]. congruence.
Qed.

Lemma decode_payload_consumes {A} (d : Dec A) n src :
  consumes d n -> (7 + n <= length (m_data src))%nat ->
  exists v, decode_payload d src = Some v.
Proof.
  intros Hd Hlen. unfold decode_payload.
  destruct (Hd (m_data src) 7%nat Hlen) as [v Hv]. rewrite Hv. eauto.
Qed.

Ltac consumes_fields :=
  repeat match goal with
         | |- consumes (dret _) _ => apply consumes_ret
         | |- consumes (dbind decodeField_uint8 _) _ =>
             apply (consumes_bind _ _ 1); [apply consumes_uint8 | intros ?]
         | |- consumes (dbind decodeField_float32 _) _ =>
             apply (consumes_bind _ _ 4); [apply consumes_uint32 | intros ?]
         | |- consumes (dbind decodeField_float64 _) _ =>
             apply (consumes_bind _ _ 8); [apply consumes_uint64 | intros ?]
         end.

Lemma consumes_CoreTelemetry : consumes CoreTelemetry.decode_fields 69.
Proof.
  unfold CoreTelemetry.decode_fields.
  change 69%nat with (1 + (8 + (8 + (8 + (8 + (4 + (4 + (4 + (8 + (8 + (8 + 0)))))))))))%nat.
  consumes_fields.
Qed.

Lemma consumes_Acknowledgment : consumes Acknowledgment.decode_fields 2.
Proof.
  unfold Acknowledgment.decode_fields. change 2%nat with (1 + (1 + 0))%nat.
  consumes_fields.
Qed.

Lemma consumes_EmergencyCommand : consumes EmergencyCommand.decode_fields 1.
Proof.
  unfold EmergencyCommand.decode_fields. change 1%nat with (1 + 0)%nat.
  consumes_fields.
Qed.

Lemma consumes_CameraControl : consumes CameraControl.decode_fields 5.
Proof.
  unfold CameraControl.decode_fields. change 5%nat with (1 + (4 + 0))%nat.
  consumes_fields.
Qed.

Lemma consumes_VirtualStickCommand : consumes VirtualStickCommand.decode_fields 21.
Proof.
  unfold VirtualStickCommand.decode_fields.
  change 21%nat with (1 + (4 + (4 + (4 + (4 + (4 + 0))))))%nat.
  consumes_fields.
Qed.

Lemma EWM_Deserialize_total target src :
  exists r, ExecuteWaypointMission.Deserialize target src = Some r.
Proof.
  destruct (CheckHashSizeAndPID_total src 253) as [[|] Hc].
  - destruct (Nat.lt_ge_cases (length (m_data src)) 51) as [Hlen|Hlen].
    + unfold ExecuteWaypointMission.Deserialize. rewrite Hc.
      replace (length (m_data src) <? 9 + 2 + 40)%nat with true
        by (symmetry; apply Nat.ltb_lt; simpl; lia).
      eauto.
    + rewrite (EWM_Deserialize_unfold target src Hc Hlen). cbv zeta.
      destruct (negb _); [eauto|].
      set (N := Z.to_nat ((Z.of_nat (length (m_data src)) - 11) / 40)).
      assert (Hfit : (9 + 40 * N <= length (m_data src))%nat).
      { assert (Z.of_nat N = (Z.of_nat (length (m_data src)) - 11) / 40)
          by (unfold N; rewrite Z2Nat.id; [reflexivity | apply Z.div_pos; lia]).
        pose proof (Z.div_mod (Z.of_nat (length (m_data src)) - 11) 40 ltac:(lia)) as Hdm.
        pose proof (Z.mod_pos_bound (Z.of_nat (length (m_data src)) - 11) 40 ltac:(lia)).
        lia. }
      destruct (decode_waypoints_spec N [] (m_data src) 9%nat Hfit) as (ws & Hws & _).
      rewrite Hws. eauto.
  - unfold ExecuteWaypointMission.Deserialize. rewrite Hc. eauto.
Qed.

Ltac fixed_total Hc lenb cons :=
  rewrite Hc;
  match goal with
  | |- context [negb (length ?d =? ?n)%nat] =>
      destruct (length d =? n)%nat eqn:Hlen; cbn [negb]; [|eauto];
      apply Nat.eqb_eq in Hlen;
      match goal with
      | |- context [decode_payload ?f ?src] =>
          destruct (decode_payload_consumes f _ src cons ltac:(rewrite Hlen; simpl; lia))
            as [v Hv]; rewrite Hv; eauto
      end
  end.

(** X12.  The [Deserialize] methods of the messages of fixed layout, and of
    ExecuteWaypointMission, return on every buffer, valid or not, without
    ever dereferencing the iterator outside it. *)
Theorem Deserialize_never_reads_outside :
  (forall target src, exists r, CoreTelemetry.Deserialize target src = Some r) /\
  (forall target src, exists r, Acknowledgment.Deserialize target src = Some r) /\
  (forall target src, exists r, EmergencyCommand.Deserialize target src = Some r) /\
  (forall target src, exists r, CameraControl.Deserialize target src = Some r) /\
  (forall target src, exists r, VirtualStickCommand.Deserialize target src = Some r) /\
  (forall target src, exists r, ExecuteWaypointMission.Deserialize target src = Some r).
Proof.
  repeat split; intros target src; try apply EWM_Deserialize_total.
  - unfold CoreTelemetry.Deserialize.
    destruct (CheckHashSizeAndPID_total src 0) as [[|] Hc]; [|rewrite Hc; eauto].
    fixed_total Hc 78%nat consumes_CoreTelemetry.
  - unfold Acknowledgment.Deserialize.
    destruct (CheckHashSizeAndPID_total src 3) as [[|] Hc]; [|rewrite Hc; eauto].
    fixed_total Hc 11%nat consumes_Acknowledgment.
  - unfold EmergencyCommand.Deserialize.
    destruct (CheckHashSizeAndPID_total src 255) as [[|] Hc]; [|rewrite Hc; eauto].
    fixed_total Hc 10%nat consumes_EmergencyCommand.
  - unfold CameraControl.Deserialize.
    destruct (CheckHashSizeAndPID_total src 254) as [[|] Hc]; [|rewrite Hc; eauto].
    fixed_total Hc 14%nat consumes_CameraControl.
  - unfold VirtualStickCommand.Deserialize.
    destruct (CheckHashSizeAndPID_total src 252) as [[|] Hc]; [|rewrite Hc; eauto].
    fixed_total Hc 30%nat consumes_VirtualStickCommand.
Qed.

(* ------------------------------------------------------------------ *)
(** ** Packets of another type, and packets that are always valid *)




(** X14.  A mission without waypoints is serialized to a valid packet of 11
    bytes, and [Packet_ExecuteWaypointMission::Deserialize] refuses that
    packet: it returns false and leaves the target as it was. *)
Theorem ExecuteWaypointMission_empty_refused this target TargetPacket :
  ExecuteWaypointMission.Waypoints this = [] ->
  length (m_data (ExecuteWaypointMission.Serialize this TargetPacket)) = 11%nat /\
  CheckHashSizeAndPID (ExecuteWaypointMission.Serialize this TargetPacket) 253 = Some true /\
  ExecuteWaypointMission.Deserialize target
    (ExecuteWaypointMission.Serialize this TargetPacket) = Some (false, target).
Proof.
  intros Hempty.
  pose proof (ExecuteWaypointMission_Serialize_data this TargetPacket) as Hd.
  rewrite Hempty in Hd. cbn [map concat length] in Hd.
  assert (Hc : CheckHashSizeAndPID (ExecuteWaypointMission.Serialize this TargetPacket) 253
               = Some true).
  { rewrite (frame_CheckHashSizeAndPID _ _ _ _ 253 Hd); [reflexivity| |].
    - rewrite !length_app, !be_bytes_length. reflexivity.
    - reflexivity. }
  assert (Hlen : length (m_data (ExecuteWaypointMission.Serialize this TargetPacket)) = 11%nat).
  { rewrite Hd, frame_length, !length_app, !be_bytes_length. reflexivity. }
  split; [exact Hlen|]. split; [exact Hc|].
  unfold ExecuteWaypointMission.Deserialize. rewrite Hc, Hlen. reflexivity.
Qed.

Lemma ExecuteWaypointMission_empty_refused_witness :
  ExecuteWaypointMission.Deserialize survey_mission
    (ExecuteWaypointMission.Serialize
       {| ExecuteWaypointMission.LandAtEnd := 1;
          ExecuteWaypointMission.CurvedFlight := 0;
          ExecuteWaypointMission.Waypoints := [] |} fresh_packet)
  = Some (false, survey_mission).
Proof.
  apply (ExecuteWaypointMission_empty_refused
           {| ExecuteWaypointMission.LandAtEnd := 1;
              ExecuteWaypointMission.CurvedFlight := 0;
              ExecuteWaypointMission.Waypoints := [] |}).
  reflexivity.
Defined.

Lemma frame_bytes_ok Size PID payload :
  bytes_ok payload -> bytes_ok (frame Size PID payload).
Proof.
  intros Hp. unfold frame, frame_body, bytes_ok.
  pose proof (RunningSums_fold ([218; 167] ++ be_bytes 4 Size ++ [to_uint8 PID] ++ payload)) as HR.
  apply RunningSums_range in HR. destruct HR as [Ha Hb].
  rewrite hash_loop_all.
  repeat (apply Forall_app; split); try apply be_bytes_ok; try exact Hp.
  - constructor; [unfold is_uint8; lia|].
    constructor; [unfold is_uint8; lia | constructor].
  - constructor; [apply to_uint8_range | constructor].
  - constructor; [exact Ha|]. constructor; [exact Hb | constructor].
Qed.

Lemma bytes_ok_app l l' : bytes_ok l -> bytes_ok l' -> bytes_ok (l ++ l').
Proof. unfold bytes_ok. intros. apply Forall_app. auto. Qed.

Ltac fixed_valid Hd pid :=
  split; [rewrite Hd, frame_length, ?length_app, ?be_bytes_length; reflexivity|];
  split; [rewrite Hd; apply frame_bytes_ok;
          repeat (apply bytes_ok_app; [apply be_bytes_ok|]); apply be_bytes_ok|];
  rewrite (frame_CheckHashSizeAndPID _ _ _ _ pid Hd);
  [reflexivity
  |rewrite ?length_app, ?be_bytes_length; reflexivity
  |reflexivity].

(** X15.  Whatever the values of the fields and whatever the target packet
    held, [Serialize] of a message of fixed layout leaves in the packet a
    sequence of bytes of the documented length (78, 11, 10, 14 and 30) that
    passes [CheckHashSizeAndPID] with the PID of the message type. *)
Theorem Serialize_fixed_layout_valid :
  (forall this T,
      length (m_data (CoreTelemetry.Serialize this T)) = 78%nat /\
      bytes_ok (m_data (CoreTelemetry.Serialize this T)) /\
      CheckHashSizeAndPID (CoreTelemetry.Serialize this T) 0 = Some true) /\
  (forall this T,
      length (m_data (Acknowledgment.Serialize this T)) = 11%nat /\
      bytes_ok (m_data (Acknowledgment.Serialize this T)) /\
      CheckHashSizeAndPID (Acknowledgment.Serialize this T) 3 = Some true) /\
  (forall this T,
      length (m_data (EmergencyCommand.Serialize this T)) = 10%nat /\
      bytes_ok (m_data (EmergencyCommand.Serialize this T)) /\
      CheckHashSizeAndPID (EmergencyCommand.Serialize this T) 255 = Some true) /\
  (forall this T,
      length (m_data (CameraControl.Serialize this T)) = 14%nat /\
      bytes_ok (m_data (CameraControl.Serialize this T)) /\
      CheckHashSizeAndPID (CameraControl.Serialize this T) 254 = Some true) /\
  (forall this T,
      length (m_data (VirtualStickCommand.Serialize this T)) = 30%nat /\
      bytes_ok (m_data (VirtualStickCommand.Serialize this T)) /\
      CheckHashSizeAndPID (VirtualStickCommand.Serialize this T) 252 = Some true).
Proof.
  split; [|split; [|split; [|split]]]; intros this T.
  - pose proof (CoreTelemetry_Serialize_data this T) as Hd. fixed_valid Hd 0.
  - pose proof (Acknowledgment_Serialize_data this T) as Hd. fixed_valid Hd 3.
  - pose proof (EmergencyCommand_Serialize_data this T) as Hd. fixed_valid Hd 255.
  - pose proof (CameraControl_Serialize_data this T) as Hd. fixed_valid Hd 254.
  - pose proof (VirtualStickCommand_Serialize_data this T) as Hd. fixed_valid Hd 252.
Qed.

(* ------------------------------------------------------------------ *)
(** ** What the hash detects *)

Lemma hashA_is_sum bytes :
  fst (fold_left hash_step bytes (0, 0)) = (fold_right Z.add 0 bytes) mod 256.
Proof.
  pose proof (RunningSums_closed_form _ _ _ (RunningSums_fold bytes)) as [H _].
  exact H.
Qed.

Lemma sum_insert (l : list Z) i b old :
  l !! i = Some old ->
  fold_right Z.add 0 (<[i := b]> l) = fold_right Z.add 0 l - old + b.
Proof.
  revert i. induction l as [|x l IH]; intros [|i] H; try discriminate.
  - injection H as ->. simpl. lia.
  - change ((x :: l) !! S i) with (l !! i) in H.
    change (<[S i := b]> (x :: l)) with (x :: <[i := b]> l).
    cbn [fold_right]. rewrite (IH i H). lia.
Qed.

Lemma CheckHash_true_inv p :
  CheckHash p = Some true ->
  (9 <= length (m_data p))%nat /\
  fold_left hash_step (take (length (m_data p) - 2) (m_data p)) (0, 0)
  = (nth (length (m_data p) - 2) (m_data p) 0, nth (length (m_data p) - 1) (m_data p) 0).
Proof.
  unfold CheckHash. intros H.
  destruct (length (m_data p) <? 9)%nat eqn:Hlen; [discriminate|].
  apply Nat.ltb_ge in Hlen. split; [exact Hlen|].
  destruct (decodeField_uint32 (m_data p) 2%nat) as [[size it]|]; [|discriminate].
  destruct (negb (size =? Z.of_nat (length (m_data p)))); [discriminate|].
  rewrite hash_loop_take in H.
  destruct (fold_left hash_step _ _) as [hashA hashB].
  injection H as H. apply andb_true_iff in H. destruct H as [Ha Hb].
  apply Z.eqb_eq in Ha, Hb. congruence.
Qed.

Lemma bytes_ok_lookup data i b : bytes_ok data -> data !! i = Some b -> is_uint8 b.
Proof.
  unfold bytes_ok. rewrite Forall_lookup. intros H Hb. exact (H i b Hb).
Qed.

(** X16.  [CheckHash] refuses every buffer that differs in exactly one byte,
    at whatever position, from a buffer that it accepts. *)
Theorem CheckHash_detects_single_byte_error p i b :
  bytes_ok (m_data p) -> CheckHash p = Some true ->
  is_uint8 b -> (i < length (m_data p))%nat -> m_data p !! i <> Some b ->
  CheckHash (set_data p (<[i := b]> (m_data p))) = Some false.
Proof.
  intros Hok Hc Hb Hi Hne.
  destruct (CheckHash_total (set_data p (<[i := b]> (m_data p)))) as [[|] Hc'];
    [exfalso | exact Hc'].
  apply CheckHash_true_inv in Hc, Hc'.
  destruct Hc as [Hlen Hf], Hc' as [_ Hf'].
  unfold set_data in Hf'. cbn [m_data] in Hf'. rewrite length_insert in Hf'.
  set (data := m_data p) in *. set (n := length data) in *.
  destruct (lookup_lt_is_Some_2 data i Hi) as [old Hold].
  assert (Hoo : is_uint8 old) by (eapply bytes_ok_lookup; eassumption).
  assert (Hdiff : old <> b) by congruence.
  destruct (Nat.lt_ge_cases i (n - 2)) as [Hlt|Hge].
  - rewrite take_insert_lt in Hf' by exact Hlt.
    apply (f_equal fst) in Hf, Hf'. cbn [fst] in Hf, Hf'.
    rewrite hashA_is_sum in Hf, Hf'.
    rewrite (sum_insert _ i b old) in Hf'
      by (rewrite lookup_take_lt by exact Hlt; exact Hold).
    assert (Hsame : nth (n - 2) (<[i := b]> data) 0 = nth (n - 2) data 0).
    { apply nth_lookup_Z. rewrite list_lookup_insert_ne by lia.
      apply lookup_nth_Z. unfold n. lia. }
    rewrite Hsame, <- Hf in Hf'.
    unfold is_uint8 in *. change (2^8) with 256 in *.
    revert Hf'. generalize (fold_right Z.add 0 (take (n - 2) data)). intros T Hf'.
    Z.div_mod_to_equations. lia.
  - rewrite take_insert_ge in Hf' by exact Hge. rewrite Hf in Hf'.
    injection Hf' as Ha Hb'.
    assert (Hcase : i = (n - 2)%nat \/ i = (n - 1)%nat) by (unfold n in *; lia).
    destruct Hcase as [-> | ->].
    + rewrite (nth_lookup_Z (<[(n - 2)%nat := b]> data) (n - 2) b) in Ha
        by (apply list_lookup_insert_eq; unfold n; lia).
      rewrite (nth_lookup_Z data (n - 2) old Hold) in Ha. congruence.
    + rewrite (nth_lookup_Z (<[(n - 1)%nat := b]> data) (n - 1) b) in Hb'
        by (apply list_lookup_insert_eq; unfold n; lia).
      rewrite (nth_lookup_Z data (n - 1) old Hold) in Hb'. congruence.
Qed.

Lemma CheckHash_detects_single_byte_error_witness :
  CheckHash (set_data one_waypoint_packet (<[20%nat := 7]> (m_data one_waypoint_packet)))
  = Some false.
Proof.
  apply (CheckHash_detects_single_byte_error one_waypoint_packet 20 7).
  - apply bytes_okb_ok. vm_compute. reflexivity.
  - vm_compute. reflexivity.
  - in_range.
  - vm_compute. lia.
  - vm_compute. discriminate.
Defined.

(* ------------------------------------------------------------------ *)
(** ** Resynchronisation *)

Lemma drop_last_Z (data : list Z) :
  data <> [] -> drop (length data - 1) data = [List.last data 0].
Proof.
  intros Hne. destruct data as [|b data] using rev_ind; [contradiction|].
  rewrite last_last, length_app. simpl length.
  replace (length data + 1 - 1)%nat with (length data) by lia.
  rewrite drop_app_length. reflexivity.
Qed.

(** X17.  [ForwardScanForSync] only ever discards a prefix: what it leaves
    is the buffer from some index on, in the original order, and for a
    non-empty buffer that index is at least 1. *)
Theorem ForwardScanForSync_leaves_suffix p :
  exists k, m_data (ForwardScanForSync p) = drop k (m_data p) /\
            (m_data p <> [] -> (1 <= k)%nat).
Proof.
  destruct (m_data p) as [|b0 rest] eqn:E.
  - exists 0%nat. unfold ForwardScanForSync. rewrite E. simpl. rewrite E.
    split; [reflexivity | contradiction].
  - assert (Hne : m_data p <> []) by (rewrite E; discriminate).
    rewrite <- E.
    destruct (first_sync_or_none (m_data p)) as [[i Hf]|Hno].
    + exists i. rewrite (ForwardScanForSync_found p i Hf). cbn [m_data].
      split; [reflexivity|]. intros _. destruct Hf as [Hi _]. exact Hi.
    + rewrite (ForwardScanForSync_not_found p Hne Hno).
      destruct ((1 <? length (m_data p))%nat && (List.last (m_data p) 0 =? 218)) eqn:Hb.
      * apply andb_true_iff in Hb. destruct Hb as [H1 H2].
        apply Nat.ltb_lt in H1. apply Z.eqb_eq in H2.
        exists (length (m_data p) - 1)%nat. cbn [m_data].
        rewrite (drop_last_Z _ Hne), H2. split; [reflexivity | lia].
      * exists (length (m_data p)). cbn [m_data]. rewrite drop_all.
        split; [reflexivity|]. intros _. rewrite E. simpl. lia.
Qed.

(** X18.  When a valid packet follows some garbage in the buffer, and the
    garbage holds no byte [0xDA] after its first byte, [ForwardScanForSync]
    leaves exactly the valid packet, which then passes
    [CheckHashSizeAndPID]. *)
Theorem ForwardScanForSync_recovers_packet p junk Size PID payload :
  m_data p = junk ++ frame Size PID payload ->
  junk <> [] ->
  (forall j, (1 <= j)%nat -> junk !! j <> Some 218) ->
  Size = Z.of_nat (length payload + 9) -> Size < 2^32 ->
  m_data (ForwardScanForSync p) = frame Size PID payload /\
  M_highLevelFieldsValid (ForwardScanForSync p) = false /\
  CheckHashSizeAndPID (ForwardScanForSync p) (to_uint8 PID) = Some true.
Proof.
  intros Hd Hne Hjunk HS Hfit.
  assert (Hlen : (1 <= length junk)%nat)
    by (destruct junk; [contradiction | simpl; lia]).
  assert (Hf : first_sync (m_data p) (length junk)).
  { rewrite Hd. split; [exact Hlen|]. split.
    - split.
      + rewrite lookup_app_r, Nat.sub_diag by lia. reflexivity.
      + rewrite lookup_app_r by lia.
        replace (S (length junk) - length junk)%nat with 1%nat by lia. reflexivity.
    - intros j Hj [H _]. rewrite lookup_app_l in H by lia.
      apply (Hjunk j); [lia | exact H]. }
  rewrite (ForwardScanForSync_found p _ Hf). cbn [m_data M_highLevelFieldsValid].
  rewrite Hd, drop_app_length.
  split; [reflexivity|]. split; [reflexivity|].
  rewrite (frame_CheckHashSizeAndPID _ Size PID payload (to_uint8 PID)); auto.
  rewrite Z.eqb_refl. reflexivity.
Qed.

Lemma ForwardScanForSync_recovers_packet_witness :
  m_data (ForwardScanForSync
            (packet_of ([255; 255; 255] ++ frame 11 3 [1; 253])))
  = frame 11 3 [1; 253].
Proof.
  apply (ForwardScanForSync_recovers_packet
           (packet_of ([255; 255; 255] ++ frame 11 3 [1; 253]))
           [255; 255; 255] 11 3 [1; 253]).
  - reflexivity.
  - discriminate.
  - intros [|[|[|j]]] Hj; discriminate.
  - reflexivity.
  - reflexivity.
Defined.

(* ------------------------------------------------------------------ *)
(** ** Completion of a packet that arrives in pieces *)

Lemma frame_header Size PID payload :
  frame Size PID payload
  = ([218; 167] ++ be_bytes 4 Size ++ [to_uint8 PID])
    ++ payload ++ [fst (hash_loop (frame_body Size PID payload)
                                  (length (frame_body Size PID payload)));
                   snd (hash_loop (frame_body Size PID payload)
                                  (length (frame_body Size PID payload)))].
Proof. unfold frame, frame_body. rewrite <- !app_assoc. reflexivity. Qed.

Lemma cache_header_prefix p Size PID payload n :
  m_data p = take n (frame Size PID payload) ->
  (7 <= n)%nat -> is_uint32 Size ->
  (M_highLevelFieldsValid p = true -> m_size p = Size) ->
  exists p', cache_header p = Some p' /\ m_data p' = m_data p /\
             m_size p' = Size /\ M_highLevelFieldsValid p' = true.
Proof.
  intros Hd Hn HS Hcache. unfold cache_header.
  destruct (M_highLevelFieldsValid p) eqn:Hv.
  - exists p. auto.
  - assert (Hdec :
      (size <-- decodeField_uint32 ;; PID <-- decodeField_uint8 ;; dret (size, PID))
        (m_data p) 2%nat = Some ((Size, to_uint8 PID), 7%nat)).
    { rewrite Hd, frame_header.
      set (hdr := [218; 167] ++ be_bytes 4 Size ++ [to_uint8 PID]).
      assert (Hl : length hdr = 7%nat)
        by (unfold hdr; rewrite !length_app, be_bytes_length; reflexivity).
      rewrite take_app_ge by lia. rewrite Hl.
      unfold hdr. rewrite <- !app_assoc.
      pose proof (reads_uint32 Size HS [218; 167]) as Hr.
      unfold dbind at 1. rewrite Hr. rewrite be_bytes_length.
      reflexivity. }
    rewrite Hdec. eexists. split; [reflexivity|]. auto.
Qed.

(** X19.  While the bytes of a valid packet arrive, in pieces of any size:
    with fewer than 7 bytes buffered [IsFinished] returns false; from 7
    bytes on it returns true exactly when all [Size] bytes are there, and
    [BytesNeeded] reports the number of bytes still missing.  This holds
    whether the header fields are already cached or not. *)
Theorem IsFinished_while_receiving p Size PID payload n ByteCount :
  m_data p = take n (frame Size PID payload) ->
  (n <= length payload + 9)%nat ->
  Size = Z.of_nat (length payload + 9) -> Size < 2^32 ->
  (M_highLevelFieldsValid p = true -> m_size p = Size) ->
  ((n < 7)%nat ->
   IsFinished p = Some (false, p) /\ BytesNeeded p ByteCount = Some (false, ByteCount, p)) /\
  ((7 <= n)%nat ->
   exists p',
     IsFinished p = Some ((n =? length payload + 9)%nat, p') /\
     BytesNeeded p ByteCount = Some (true, Size - Z.of_nat n, p') /\
     m_data p' = m_data p /\ m_size p' = Size /\ M_highLevelFieldsValid p' = true).
Proof.
  intros Hd Hn HS Hfit Hcache.
  assert (Hlen : length (m_data p) = n).
  { rewrite Hd, length_take, frame_length. lia. }
  split; intros H7.
  - unfold IsFinished, BytesNeeded. rewrite Hlen.
    replace (n <? 7)%nat with true by (symmetry; apply Nat.ltb_lt; lia).
    auto.
  - destruct (cache_header_prefix p Size PID payload n Hd H7
                ltac:(unfold is_uint32; lia) Hcache) as (p' & Hc & Hd' & Hs & Hv).
    exists p'. unfold IsFinished, BytesNeeded. rewrite Hlen.
    replace (n <? 7)%nat with false by (symmetry; apply Nat.ltb_ge; lia).
    rewrite Hc, Hd', Hlen, Hs.
    split; [|split; [|auto]].
    + f_equal. f_equal.
      destruct (Nat.eqb_spec n (length payload + 9)) as [->|Hneq].
      * apply Z.geb_le. lia.
      * rewrite Z.geb_leb. apply Z.leb_gt. lia.
    + f_equal. f_equal. f_equal. unfold to_uint32. mod_small. reflexivity.
Qed.

Lemma IsFinished_while_receiving_witness :
  (exists p', IsFinished (packet_of (take 9 (frame 11 3 [1; 253]))) = Some (false, p')) /\
  (exists p', BytesNeeded (packet_of (take 9 (frame 11 3 [1; 253]))) 0 = Some (true, 2, p')).
Proof.
  destruct (IsFinished_while_receiving
              (packet_of (take 9 (frame 11 3 [1; 253]))) 11 3 [1; 253] 9 0
              eq_refl ltac:(simpl; lia) eq_refl ltac:(reflexivity)
              ltac:(discriminate)) as [_ H].
  destruct (H ltac:(lia)) as (p' & Hi & Hb & _).
  split; exists p'; [exact Hi | exact Hb].
Defined.

(* ------------------------------------------------------------------ *)
(** ** The field codecs on their own *)

Lemma be_bytes_to_uint w x :
  be_bytes w (x mod 2 ^ (8 * Z.of_nat w)) = be_bytes w x.
Proof.
  assert (H : forall k, (k <= w)%nat ->
            be_bytes k (x mod 2 ^ (8 * Z.of_nat w)) = be_bytes k x).
  { induction k as [|k IH]; intros Hk; [reflexivity|].
    cbn [be_bytes]. rewrite IH by lia. f_equal.
    unfold to_uint8. apply Z.bits_inj'. intros i Hi.
    destruct (Z.lt_ge_cases i 8).
    - rewrite !Z.mod_pow2_bits_low by lia. rewrite !Z.shiftr_spec by lia.
      rewrite Z.mod_pow2_bits_low by lia. reflexivity.
    - rewrite !Z.mod_pow2_bits_high by lia. reflexivity. }
  apply H. lia.
Qed.

Lemma reads_uint8_mod x : reads decodeField_uint8 (be_bytes 1 x) (to_uint8 x).
Proof.
  rewrite <- (be_bytes_to_uint 1 x). apply reads_uint8, to_uint8_range.
Qed.

Lemma reads_uint16_mod x : reads decodeField_uint16 (be_bytes 2 x) (to_uint16 x).
Proof.
  rewrite <- (be_bytes_to_uint 2 x). apply reads_uint16.
  unfold is_uint16. apply Z.mod_pos_bound. lia.
Qed.

Lemma reads_uint32_mod x : reads decodeField_uint32 (be_bytes 4 x) (to_uint32 x).
Proof.
  rewrite <- (be_bytes_to_uint 4 x). apply reads_uint32.
  unfold is_uint32. apply Z.mod_pos_bound. lia.
Qed.

Lemma reads_uint64_mod x : reads decodeField_uint64 (be_bytes 8 x) (to_uint64 x).
Proof.
  rewrite <- (be_bytes_to_uint 8 x). apply reads_uint64.
  unfold is_uint64. apply Z.mod_pos_bound. lia.
Qed.

Lemma reads_after {A} (d : Dec A) bs v Buffer rest :
  reads d bs v ->
  d ((Buffer ++ bs) ++ rest) (length Buffer) = Some (v, (length Buffer + length bs)%nat).
Proof. intros H. rewrite <- app_assoc. apply H. Qed.

Lemma unsigned_codec_roundtrip_aux Buffer rest x :
  decodeField_uint8 (encodeField_uint8 Buffer x ++ rest) (length Buffer)
  = Some (x mod 2^8, (length Buffer + 1)%nat) /\
  decodeField_uint16 (encodeField_uint16 Buffer x ++ rest) (length Buffer)
  = Some (x mod 2^16, (length Buffer + 2)%nat) /\
  decodeField_uint32 (encodeField_uint32 Buffer x ++ rest) (length Buffer)
  = Some (x mod 2^32, (length Buffer + 4)%nat) /\
  decodeField_uint64 (encodeField_uint64 Buffer x ++ rest) (length Buffer)
  = Some (x mod 2^64, (length Buffer + 8)%nat).
Proof.
  rewrite encodeField_uint8_bytes, encodeField_uint16_bytes,
    encodeField_uint32_bytes, encodeField_uint64_bytes.
  split; [|split; [|split]].
  - apply (reads_after _ _ _ _ _ (reads_uint8_mod x)).
  - apply (reads_after _ _ _ _ _ (reads_uint16_mod x)).
  - apply (reads_after _ _ _ _ _ (reads_uint32_mod x)).
  - apply (reads_after _ _ _ _ _ (reads_uint64_mod x)).
Qed.

(** X20.  Each unsigned decoder, started where the matching encoder began to
    append, returns the encoded value reduced modulo [2^w] (the value itself
    when it fits the type) and leaves the iterator [w/8] bytes further,
    whatever precedes and follows in the buffer. *)
Theorem unsigned_codec_roundtrip Buffer rest x :
  decodeField_uint8 (encodeField_uint8 Buffer x ++ rest) (length Buffer)
  = Some (x mod 2^8, (length Buffer + 1)%nat) /\
  decodeField_uint16 (encodeField_uint16 Buffer x ++ rest) (length Buffer)
  = Some (x mod 2^16, (length Buffer + 2)%nat) /\
  decodeField_uint32 (encodeField_uint32 Buffer x ++ rest) (length Buffer)
  = Some (x mod 2^32, (length Buffer + 4)%nat) /\
  decodeField_uint64 (encodeField_uint64 Buffer x ++ rest) (length Buffer)
  = Some (x mod 2^64, (length Buffer + 8)%nat).
Proof. apply unsigned_codec_roundtrip_aux. Qed.


Lemma to_int_of_uint (w x : Z) :
  0 < w -> - 2^(w - 1) <= x < 2^(w - 1) ->
  (if x mod 2^w <? 2^(w - 1) then x mod 2^w else x mod 2^w - 2^w) = x.
Proof.
  intros Hw Hx.
  assert (Hp : 2^w = 2 * 2^(w - 1)).
  { replace w with (1 + (w - 1)) at 1 by lia. rewrite Z.pow_add_r by lia. reflexivity. }
  assert (0 < 2^(w - 1)) by (apply Z.pow_pos_nonneg; lia).
  destruct (Z.le_gt_cases 0 x) as [Hp0|Hn0].
  - rewrite Z.mod_small by lia.
    replace (x <? 2^(w - 1)) with true by (symmetry; apply Z.ltb_lt; lia). reflexivity.
  - replace (x mod 2^w) with (x + 2^w).
    + replace (x + 2^w <? 2^(w - 1)) with false by (symmetry; apply Z.ltb_ge; lia). lia.
    + symmetry. replace x with (x + 2^w + (-1) * 2^w) at 1 by lia.
      rewrite Z.mod_add by lia. apply Z.mod_small. lia.
Qed.

(** X21.  A signed value in the range of its type, negative ones included,
    is returned unchanged by the signed decoder started where the matching
    signed encoder began to append. *)
Theorem signed_codec_roundtrip Buffer rest :
  (forall x, - 2^7 <= x < 2^7 ->
     decodeField_int8 (encodeField_int8 Buffer x ++ rest) (length Buffer)
     = Some (x, (length Buffer + 1)%nat)) /\
  (forall x, - 2^15 <= x < 2^15 ->
     decodeField_int16 (encodeField_int16 Buffer x ++ rest) (length Buffer)
     = Some (x, (length Buffer + 2)%nat)) /\
  (forall x, - 2^31 <= x < 2^31 ->
     decodeField_int32 (encodeField_int32 Buffer x ++ rest) (length Buffer)
     = Some (x, (length Buffer + 4)%nat)) /\
  (forall x, - 2^63 <= x < 2^63 ->
     decodeField_int64 (encodeField_int64 Buffer x ++ rest) (length Buffer)
     = Some (x, (length Buffer + 8)%nat)).
Proof.
  split; [|split; [|split]]; intros x Hx.
  - unfold decodeField_int8, encodeField_int8, dbind.
    destruct (unsigned_codec_roundtrip_aux Buffer rest (to_uint8 x)) as (H & _).
    unfold decodeField_uint8 in H. rewrite H. unfold dret. f_equal. f_equal.
    unfold to_int8, to_uint8. rewrite !Z.mod_mod by lia.
    apply (to_int_of_uint 8 x); lia.
  - unfold decodeField_int16, encodeField_int16, dbind.
    destruct (unsigned_codec_roundtrip_aux Buffer rest (to_uint16 x)) as (_ & H & _).
    rewrite H. unfold dret. f_equal. f_equal.
    unfold to_int16, to_uint16. rewrite !Z.mod_mod by lia.
    apply (to_int_of_uint 16 x); lia.
  - unfold decodeField_int32, encodeField_int32, dbind.
    destruct (unsigned_codec_roundtrip_aux Buffer rest (to_uint32 x)) as (_ & _ & H & _).
    rewrite H. unfold dret. f_equal. f_equal.
    unfold to_int32, to_uint32. rewrite !Z.mod_mod by lia.
    apply (to_int_of_uint 32 x); lia.
  - unfold decodeField_int64, encodeField_int64, dbind.
    destruct (unsigned_codec_roundtrip_aux Buffer rest (to_uint64 x)) as (_ & _ & _ & H).
    rewrite H. unfold dret. f_equal. f_equal.
    unfold to_int64, to_uint64. rewrite !Z.mod_mod by lia.
    apply (to_int_of_uint 64 x); lia.
Qed.

(** X22.  [decodeField_String], started where [encodeField_String] began to
    append and given a budget of at least the 4-byte prefix and the
    characters, returns the string, takes exactly these bytes off the
    budget, and leaves the iterator behind the last character. *)
Theorem String_codec_roundtrip Buffer rest x MaxBytes :
  string_size x + 4 <= MaxBytes -> MaxBytes < 2^32 ->
  decodeField_String MaxBytes (encodeField_String Buffer x ++ rest) (length Buffer)
  = Some ((x, MaxBytes - (string_size x + 4)),
          (length Buffer + (4 + String.length x))%nat).
Proof.
  intros Hle Hmax. rewrite encodeField_String_bytes.
  rewrite (reads_after _ _ _ _ _ (reads_String x MaxBytes Hle Hmax)).
  rewrite length_app, be_bytes_length, string_bytes_length. reflexivity.
Qed.

Lemma String_codec_roundtrip_witness :
  decodeField_String 10 (encodeField_String [1; 2; 3] "hello" ++ [9; 9]) 3%nat
  = Some (("hello"%string, 1), 12%nat).
Proof.
  apply (String_codec_roundtrip [1; 2; 3] [9; 9] "hello" 10); vm_compute; congruence.
Defined.

(** X23.  With at least 7 bytes buffered and no header cached, [GetPID]
    returns the very PID that [IsFinished] caches, the byte at offset 6;
    with fewer bytes it returns false and leaves its argument alone. *)
Theorem GetPID_agrees_with_IsFinished p PID :
  M_highLevelFieldsValid p = false ->
  ((length (m_data p) < 7)%nat -> GetPID p PID = Some (false, PID)) /\
  ((7 <= length (m_data p))%nat ->
   exists finished p',
     IsFinished p = Some (finished, p') /\
     GetPID p PID = Some (true, m_PID p') /\
     m_data p !! 6%nat = Some (m_PID p')).
Proof.
  intros Hv. split; intros Hlen.
  - unfold GetPID.
    replace (length (m_data p) <? 7)%nat with true by (symmetry; apply Nat.ltb_lt; lia).
    reflexivity.
  - unfold GetPID, IsFinished, cache_header. rewrite Hv.
    replace (length (m_data p) <? 7)%nat with false by (symmetry; apply Nat.ltb_ge; lia).
    destruct (consumes_uint32 (m_data p) 2%nat ltac:(lia)) as [size Hs].
    pose proof (lookup_nth_Z (m_data p) 6 ltac:(lia)) as H6.
    change (2 + 4)%nat with 6%nat in Hs.
    unfold dbind at 1. rewrite Hs. unfold dbind, decodeField_uint8, dret.
    rewrite !(deref_incr_at _ _ _ H6).
    eexists _, _. split; [reflexivity|]. cbn [m_PID]. split; [reflexivity | exact H6].
Qed.

Lemma GetPID_agrees_with_IsFinished_witness :
  exists finished p',
    IsFinished one_waypoint_packet = Some (finished, p') /\
    GetPID one_waypoint_packet 0 = Some (true, m_PID p') /\
    m_PID p' = 253.
Proof.
  destruct (GetPID_agrees_with_IsFinished one_waypoint_packet 0 eq_refl) as [_ H].
  destruct (H ltac:(vm_compute; lia)) as (finished & p' & Hi & Hg & H6).
  exists finished, p'. split; [exact Hi|]. split; [exact Hg|].
  assert (H253 : m_data one_waypoint_packet !! 6%nat = Some 253)
    by (vm_compute; reflexivity).
  rewrite H253 in H6. injection H6 as H6. symmetry. exact H6.
Defined.

(* ------------------------------------------------------------------ *)
(** ** Raw images *)

Lemma range_S n : Image.range (Z.of_nat (S n)) = Image.range (Z.of_nat n) ++ [Z.of_nat n].
Proof.
  unfold Image.range. rewrite !Nat2Z.id, seq_S, map_app. reflexivity.
Qed.

Lemma range_of_nat n : Image.range (Z.of_nat n) = map Z.of_nat (seq 0 n).
Proof. unfold Image.range. rewrite Nat2Z.id. reflexivity. Qed.

Lemma encode_pixels_row (x : Image.Mat) row cs : forall Buffer,
  fold_left
    (fun Buffer col =>
       let pixel := Image.at_ x row col in
       let Buffer := encodeField_uint8 Buffer (snd pixel) in
       let Buffer := encodeField_uint8 Buffer (snd (fst pixel)) in
       encodeField_uint8 Buffer (fst (fst pixel)))
    cs Buffer
  = Buffer ++ concat (map (fun col => pixel_bytes (Image.at_ x row col)) cs).
Proof.
  induction cs as [|col cs IH]; intros Buffer; cbn [fold_left map concat].
  - rewrite app_nil_r. reflexivity.
  - rewrite IH. cbv zeta. unfold encodeField_uint8, pixel_bytes.
    rewrite <- !app_assoc. reflexivity.
Qed.

Lemma encode_pixels_rows (x : Image.Mat) cs rs : forall Buffer,
  fold_left
    (fun Buffer row =>
       fold_left
         (fun Buffer col =>
            let pixel := Image.at_ x row col in
            let Buffer := encodeField_uint8 Buffer (snd pixel) in
            let Buffer := encodeField_uint8 Buffer (snd (fst pixel)) in
            encodeField_uint8 Buffer (fst (fst pixel)))
         cs Buffer)
    rs Buffer
  = Buffer ++ concat (map (fun row =>
                 concat (map (fun col => pixel_bytes (Image.at_ x row col)) cs)) rs).
Proof.
  induction rs as [|row rs IH]; intros Buffer; cbn [fold_left map concat].
  - rewrite app_nil_r. reflexivity.
  - rewrite IH, encode_pixels_row, <- app_assoc. reflexivity.
Qed.

Lemma lookup_nth_default {A} (l : list A) i d :
  (i < length l)%nat -> l !! i = Some (nth i l d).
Proof.
  intros H. destruct (lookup_lt_is_Some_2 l i H) as [y Hy].
  rewrite nth_lookup, Hy. reflexivity.
Qed.

(** The pixels of row [r] of a matrix of [c] columns. *)
Lemma row_pixels (x : Image.Mat) r c :
  Image.cols x = Z.of_nat c ->
  (r * c + c <= length (Image.pixels x))%nat ->
  map (fun col => Image.at_ x (Z.of_nat r) col) (Image.range (Z.of_nat c))
  = take c (drop (r * c) (Image.pixels x)).
Proof.
  intros Hc Hlen. rewrite range_of_nat, map_map.
  apply list_eq. intros i.
  destruct (Nat.lt_ge_cases i c) as [Hi|Hi].
  - rewrite lookup_take_lt, lookup_drop by lia.
    rewrite list_lookup_fmap. change (@fmap list _) with (@map) in *.
    rewrite lookup_seq_lt by lia. cbn [fmap option_fmap option_map].
    unfold Image.at_. rewrite Hc.
    replace (Z.to_nat (Z.of_nat r * Z.of_nat c + Z.of_nat (0 + i))) with (r * c + i)%nat by lia.
    symmetry. apply lookup_nth_default. lia.
  - rewrite lookup_take_ge by lia.
    apply lookup_ge_None. rewrite length_map, length_seq. lia.
Qed.

Lemma concat_rows {A} (l : list A) c r :
  (r * c <= length l)%nat ->
  concat (map (fun k => take c (drop (k * c) l)) (seq 0 r)) = take (r * c) l.
Proof.
  induction r as [|r IH]; intros Hlen.
  - reflexivity.
  - rewrite seq_S, map_app, concat_app, IH by lia.
    cbn [map concat]. rewrite app_nil_r, Nat.add_0_l.
    rewrite take_take_drop. f_equal. lia.
Qed.

Lemma concat_map_concat {A B} (f : A -> list B) (L : list (list A)) :
  concat (map f (concat L)) = concat (map (fun l => concat (map f l)) L).
Proof.
  induction L as [|l L IH]; [reflexivity|].
  cbn [concat map]. rewrite map_app, concat_app, IH. reflexivity.
Qed.

Lemma encode_all_pixels (x : Image.Mat) r c :
  Image.rows x = Z.of_nat r -> Image.cols x = Z.of_nat c ->
  length (Image.pixels x) = (r * c)%nat ->
  concat (map (fun row =>
            concat (map (fun col => pixel_bytes (Image.at_ x row col))
                        (Image.range (Image.cols x))))
            (Image.range (Image.rows x)))
  = concat (map pixel_bytes (Image.pixels x)).
Proof.
  intros Hr Hc Hlen. rewrite Hr, Hc, (range_of_nat r), map_map.
  transitivity (concat (map pixel_bytes (take (r * c) (Image.pixels x))));
    [|rewrite take_ge by lia; reflexivity].
  rewrite <- (concat_rows (Image.pixels x) c r) by lia.
  rewrite concat_map_concat, map_map.
  f_equal. apply map_ext_in. intros k Hk. apply in_seq in Hk.
  rewrite <- (row_pixels x k c Hc) by nia.
  rewrite map_map. reflexivity.
Qed.

Lemma overwrite_cons (l : list (Z * Z * Z)) k p ps :
  (k < length l)%nat ->
  overwrite (<[k := p]> l) (S k) ps = overwrite l k (p :: ps).
Proof.
  intros Hk. unfold overwrite.
  rewrite (take_S_r (<[k := p]> l) k p) by (apply list_lookup_insert_eq; exact Hk).
  rewrite take_insert_ge by lia.
  rewrite drop_insert_lt by lia.
  rewrite <- app_assoc. cbn [app length].
  replace (k + S (length ps))%nat with (S k + length ps)%nat by lia. reflexivity.
Qed.

Lemma overwrite_length (l : list (Z * Z * Z)) k ps :
  (k + length ps <= length l)%nat -> length (overwrite l k ps) = length l.
Proof.
  intros H. unfold overwrite. rewrite !length_app, length_take, length_drop. lia.
Qed.

Lemma overwrite_app (l : list (Z * Z * Z)) k ps ps' :
  (k + length ps <= length l)%nat ->
  overwrite (overwrite l k ps) (k + length ps) ps' = overwrite l k (ps ++ ps').
Proof.
  intros H. unfold overwrite.
  assert (Hk : length (take k l) = k) by (rewrite length_take; lia).
  assert (H1 : take (k + length ps) (take k l ++ ps ++ drop (k + length ps) l)
               = take k l ++ ps).
  { rewrite app_assoc. apply take_app_length'. rewrite length_app, Hk. reflexivity. }
  assert (H2 : drop (k + length ps + length ps')
                    (take k l ++ ps ++ drop (k + length ps) l)
               = drop (k + length (ps ++ ps')) l).
  { rewrite app_assoc, drop_app_ge by (rewrite length_app, Hk; lia).
    rewrite length_app, Hk, drop_drop, length_app. f_equal. lia. }
  rewrite H1, H2, <- !app_assoc. reflexivity.
Qed.

Lemma overwrite_all (l ps : list (Z * Z * Z)) :
  length ps = length l -> overwrite l 0 ps = ps.
Proof.
  intros H. unfold overwrite. cbn [take app Nat.add].
  rewrite H, drop_all, app_nil_r. reflexivity.
Qed.

Lemma overwrite_nil (l : list (Z * Z * Z)) k : overwrite l k [] = l.
Proof. unfold overwrite. cbn [app length]. rewrite Nat.add_0_r. apply take_drop. Qed.

Lemma reads_pixel I row col p :
  pixel_ok p ->
  reads (R <-- decodeField_uint8 ;; G <-- decodeField_uint8 ;; B <-- decodeField_uint8 ;;
         dret (Image.set_at I row col (B, G, R)))
        (pixel_bytes p) (Image.set_at I row col p).
Proof.
  destruct p as [[B G] R]. unfold pixel_ok, pixel_bytes. cbn [fst snd].
  intros (HB & HG & HR). rewrite !to_uint8_small by assumption.
  change [R; G; B] with ([R] ++ [G] ++ [B]).
  eapply reads_bind; [apply reads_deref_incr | cbv beta].
  eapply reads_bind; [apply reads_deref_incr | cbv beta].
  apply (reads_bind_ret _ (fun B => Image.set_at I row col (B, G, R))).
  apply reads_deref_incr.
Qed.

Lemma reads_pixel_row r c ps : forall j I,
  Image.cols I = Z.of_nat c ->
  Forall pixel_ok ps ->
  (j + length ps <= c)%nat -> (r * c + c <= length (Image.pixels I))%nat ->
  reads (Image.dfold
           (fun Image col =>
              R <-- decodeField_uint8 ;; G <-- decodeField_uint8 ;;
              B <-- decodeField_uint8 ;;
              dret (Image.set_at Image (Z.of_nat r) col (B, G, R)))
           (map Z.of_nat (seq j (length ps))) I)
        (concat (map pixel_bytes ps))
        (with_pixels I (overwrite (Image.pixels I) (r * c + j) ps)).
Proof.
  induction ps as [|p ps IH]; intros j I Hc Hok Hj Hlen.
  - cbn [length seq map concat Image.dfold]. rewrite overwrite_nil.
    destruct I. apply reads_ret.
  - cbn [length seq map concat Image.dfold].
    apply Forall_cons in Hok. destruct Hok as [Hp Hps]. cbn [length] in Hj.
    eapply reads_bind; [apply reads_pixel, Hp | cbv beta].
    assert (Hidx : Z.to_nat (Z.of_nat r * Image.cols I + Z.of_nat j) = (r * c + j)%nat)
      by (rewrite Hc; lia).
    assert (Hval :
      with_pixels (Image.set_at I (Z.of_nat r) (Z.of_nat j) p)
        (overwrite (Image.pixels (Image.set_at I (Z.of_nat r) (Z.of_nat j) p))
                   (r * c + S j) ps)
      = with_pixels I (overwrite (Image.pixels I) (r * c + j) (p :: ps))).
    { unfold with_pixels, Image.set_at.
      cbn [Image.type_ Image.rows Image.cols Image.pixels].
      rewrite Hidx. replace (r * c + S j)%nat with (S (r * c + j)) by lia.
      rewrite overwrite_cons by lia. reflexivity. }
    rewrite <- Hval.
    apply IH; [exact Hc | exact Hps | lia |].
    unfold Image.set_at. cbn [Image.pixels]. rewrite length_insert. exact Hlen.
Qed.

Lemma reads_pixel_rows c n : forall r I ps,
  Image.cols I = Z.of_nat c ->
  Forall pixel_ok ps -> length ps = (n * c)%nat ->
  ((r + n) * c <= length (Image.pixels I))%nat ->
  reads (Image.dfold
           (fun Image row =>
              Image.dfold
                (fun Image col =>
                   R <-- decodeField_uint8 ;; G <-- decodeField_uint8 ;;
                   B <-- decodeField_uint8 ;;
                   dret (Image.set_at Image row col (B, G, R)))
                (Image.range (Image.cols Image)) Image)
           (map Z.of_nat (seq r n)) I)
        (concat (map pixel_bytes ps))
        (with_pixels I (overwrite (Image.pixels I) (r * c) ps)).
Proof.
  induction n as [|n IH]; intros r I ps Hc Hok Hps Hlen.
  - destruct ps; [|discriminate]. cbn [seq map concat Image.dfold].
    rewrite overwrite_nil. destruct I. apply reads_ret.
  - cbn [seq map Image.dfold].
    rewrite <- (take_drop c ps), map_app, concat_app.
    assert (Hl1 : length (take c ps) = c) by (rewrite length_take; lia).
    assert (Hl2 : length (drop c ps) = (n * c)%nat) by (rewrite length_drop; lia).
    eapply reads_bind.
    + rewrite Hc, range_of_nat. rewrite <- Hl1 at 1.
      apply (reads_pixel_row r c (take c ps) 0 I Hc); [apply Forall_take, Hok | lia | nia].
    + cbv beta.
      specialize (IH (S r) (with_pixels I (overwrite (Image.pixels I) (r * c + 0) (take c ps)))
                     (drop c ps)).
      cbn [with_pixels Image.cols Image.pixels] in IH.
      rewrite overwrite_length in IH by (rewrite Hl1; nia).
      specialize (IH Hc (Forall_drop _ _ _ Hok) Hl2 ltac:(lia)).
      rewrite Nat.add_0_r in IH |- *.
      replace (S r * c)%nat with (r * c + length (take c ps))%nat in IH by lia.
      rewrite overwrite_app in IH by (rewrite Hl1; nia).
      exact IH.
Qed.

Lemma encodeField_Image_bytes Buffer (x : Image.Mat) :
  Image.type_ x = Image.CV_8UC3 ->
  0 <= Image.rows x -> 0 <= Image.cols x ->
  length (Image.pixels x) = Z.to_nat (Image.rows x * Image.cols x) ->
  Image.encodeField_Image Buffer x
  = Buffer ++ be_bytes 2 (Image.rows x) ++ be_bytes 2 (Image.cols x)
           ++ concat (map pixel_bytes (Image.pixels x)).
Proof.
  intros Ht Hr Hc Hlen. unfold Image.encodeField_Image.
  rewrite Ht, Z.eqb_refl. cbn [negb]. cbv zeta.
  rewrite encode_pixels_rows, !encodeField_uint16_bytes.
  change (to_uint16 (Image.rows x)) with (Image.rows x mod 2 ^ (8 * Z.of_nat 2)).
  change (to_uint16 (Image.cols x)) with (Image.cols x mod 2 ^ (8 * Z.of_nat 2)).
  rewrite !be_bytes_to_uint.
  rewrite (encode_all_pixels x (Z.to_nat (Image.rows x)) (Z.to_nat (Image.cols x)))
    by (rewrite ?Z2Nat.id by lia; try reflexivity; rewrite Hlen; lia).
  rewrite <- !app_assoc. reflexivity.
Qed.

Lemma pixels_bytes_length ps : length (concat (map pixel_bytes ps)) = (3 * length ps)%nat.
Proof.
  induction ps as [|p ps IH]; [reflexivity|].
  cbn [map concat length app pixel_bytes]. rewrite IH. lia.
Qed.

Lemma reads_Image (x : Image.Mat) MaxBytes :
  Mat_ok x ->
  Image.rows x * Image.cols x * 3 + 4 <= MaxBytes -> MaxBytes < 2^32 ->
  reads (Image.decodeField_Image MaxBytes)
        (be_bytes 2 (Image.rows x) ++ be_bytes 2 (Image.cols x)
           ++ concat (map pixel_bytes (Image.pixels x)))
        (x, MaxBytes).
Proof.
  intros (Ht & Hr & Hc & Hlen & Hok & Hfit) Hle Hmax.
  assert (Hrc : 0 <= Image.rows x * Image.cols x) by nia.
  unfold Image.decodeField_Image.
  replace (MaxBytes <? 4) with false by (symmetry; apply Z.ltb_ge; lia).
  eapply reads_bind; [apply reads_uint16; unfold is_uint16; lia | cbv beta].
  eapply reads_bind; [apply reads_uint16; unfold is_uint16; lia | cbv beta].
  cbv zeta.
  replace (to_uint32 (to_uint32 (to_uint32 (Image.rows x * Image.cols x) * 3) + 4))
    with (Image.rows x * Image.cols x * 3 + 4)
    by (unfold to_uint32; mod_small; lia).
  replace (Image.rows x * Image.cols x * 3 + 4 >? MaxBytes) with false
    by (symmetry; rewrite Z.gtb_ltb; apply Z.ltb_ge; lia).
  apply (reads_bind_ret _ (fun Image => (Image, MaxBytes)) _ x).
  set (r := Z.to_nat (Image.rows x)). set (c := Z.to_nat (Image.cols x)).
  assert (Hr' : Image.rows x = Z.of_nat r) by (unfold r; lia).
  assert (Hc' : Image.cols x = Z.of_nat c) by (unfold c; lia).
  assert (Hn : length (Image.pixels x) = (r * c)%nat) by (rewrite Hlen; nia).
  assert (Hx : with_pixels (Image.new_Mat (Image.rows x) (Image.cols x)) (Image.pixels x) = x)
    by (destruct x; unfold with_pixels, Image.new_Mat; cbn in *; congruence).
  pose proof (reads_pixel_rows c r 0 (Image.new_Mat (Image.rows x) (Image.cols x))
                (Image.pixels x) Hc' Hok Hn) as H.
  rewrite overwrite_all, Hx in H.
  - apply H. cbn [Image.new_Mat Image.pixels]. rewrite repeat_length. nia.
  - cbn [Image.new_Mat Image.pixels]. rewrite repeat_length. nia.
Qed.

Lemma Image_Serialize_data this TargetPacket :
  Mat_ok (Image.Frame this) ->
  m_data (Image.Serialize this TargetPacket)
  = frame (to_uint32 (9 + 4 + 4 + to_uint32
             (Image.rows (Image.Frame this) * Image.cols (Image.Frame this) * 3)))
          (to_uint8 2)
          (be_bytes 4 (Image.TargetFPS this) ++
           be_bytes 2 (Image.rows (Image.Frame this)) ++
           be_bytes 2 (Image.cols (Image.Frame this)) ++
           concat (map pixel_bytes (Image.pixels (Image.Frame this)))).
Proof.
  intros (Ht & Hr & Hc & Hlen & _). unfold Image.Serialize. cbv zeta.
  rewrite encodeField_Image_bytes by (auto; lia).
  unfold encodeField_float32. rewrite encodeField_uint32_bytes, <- !app_assoc.
  apply Serialize_frame.
Qed.

Lemma pixel_eqb_refl p : Image.pixel_eqb p p = true.
Proof. unfold Image.pixel_eqb. rewrite !Z.eqb_refl. reflexivity. Qed.

Lemma Image_eqb_refl this :
  Image.eqb this this = negb (float_is_nan (Image.TargetFPS this)).
Proof.
  unfold Image.eqb. rewrite float_eqb_refl, !Z.eqb_refl. cbn [negb orb].
  destruct (float_is_nan (Image.TargetFPS this)); cbn [negb]; [reflexivity|].
  apply forallb_forall. intros row _. apply forallb_forall. intros col _.
  apply pixel_eqb_refl.
Qed.

(** X24.  [Packet_Image]: for a three-channel 8-bit frame whose dimensions
    fit the 16-bit fields and whose packet length [17 + 3*rows*cols] stays
    in the range of [int], [Deserialize] of the packet that [Serialize]
    builds succeeds and gives back [TargetFPS] bit for bit and the frame
    with its type, its dimensions and every pixel; the result is equal to
    the original under [operator==] unless [TargetFPS] is a NaN. *)
Theorem Image_roundtrip this target TargetPacket :
  Mat_ok (Image.Frame this) -> is_uint32 (Image.TargetFPS this) ->
  Image.Deserialize target (Image.Serialize this TargetPacket) = Some (true, this) /\
  Image.eqb this this = negb (float_is_nan (Image.TargetFPS this)).
Proof.
  intros Hm Hfps. split; [|apply Image_eqb_refl].
  pose proof (Image_Serialize_data this TargetPacket Hm) as Hd.
  destruct this as [TargetFPS Frame]. cbn [Image.TargetFPS Image.Frame] in *.
  set (this := {| Image.TargetFPS := TargetFPS; Image.Frame := Frame |}) in *.
  pose proof Hm as (Ht & Hr & Hc & Hl & Hok & Hfit).
  assert (Hrc : 0 <= Image.rows Frame * Image.cols Frame) by nia.
  assert (Hlen : Z.of_nat (length (m_data (Image.Serialize this TargetPacket)))
                 = Image.rows Frame * Image.cols Frame * 3 + 17).
  { rewrite Hd, frame_length, !length_app, !be_bytes_length, pixels_bytes_length, Hl. lia. }
  unfold Image.Deserialize.
  rewrite (frame_CheckHashSizeAndPID _ _ _ _ 2 Hd).
  2:{ rewrite !length_app, !be_bytes_length, pixels_bytes_length, Hl.
      unfold to_uint32. mod_small. lia. }
  2:{ unfold to_uint32. apply Z.mod_pos_bound. lia. }
  change (to_uint8 (to_uint8 2) =? 2) with true. cbv iota.
  replace (length (m_data (Image.Serialize this TargetPacket)) <? 9 + 8)%nat with false
    by (symmetry; apply Nat.ltb_ge; simpl; lia).
  erewrite (frame_payload _ _ _ _ _ this Hd); [reflexivity|].
  unfold Image.decode_fields.
  eapply reads_bind; [apply reads_float32; exact Hfps | cbv beta zeta].
  rewrite Hlen.
  replace (to_uint32 (to_uint32 (Image.rows Frame * Image.cols Frame * 3 + 17) - 9 - 4))
    with (Image.rows Frame * Image.cols Frame * 3 + 4)
    by (unfold to_uint32; mod_small; lia).
  apply (reads_bind_ret _ (fun im : Image.Mat * Z =>
           {| Image.TargetFPS := TargetFPS; Image.Frame := fst im |})
           _ (Frame, Image.rows Frame * Image.cols Frame * 3 + 4)).
  apply reads_Image; [exact Hm | lia | lia].
Qed.

Lemma Image_roundtrip_witness :
  Image.Deserialize image_example (Image.Serialize image_example fresh_packet)
  = Some (true, image_example) /\
  Image.eqb image_example image_example = true.
Proof.
  apply (Image_roundtrip image_example image_example fresh_packet).
  - unfold Mat_ok. split; [reflexivity|]. split; [in_range|]. split; [in_range|].
    split; [reflexivity|]. split; [|in_range].
    repeat (constructor; [unfold pixel_ok; in_range|]). constructor.
  - in_range.
Defined.

Lemma frame_CheckHash_size_mismatch p Size PID payload :
  m_data p = frame Size PID payload ->
  0 <= Size < 2^32 -> Size <> Z.of_nat (length payload + 9) ->
  CheckHash p = Some false.
Proof.
  intros Hd HS Hne. unfold CheckHash. rewrite Hd, frame_length.
  replace (length payload + 9 <? 9)%nat with false by (symmetry; apply Nat.ltb_ge; lia).
  assert (Hrd : decodeField_uint32 (frame Size PID payload) 2%nat = Some (Size, 6%nat)).
  { unfold frame, frame_body.
    pose proof (reads_uint32 Size ltac:(unfold is_uint32; lia)) as Hr.
    specialize (Hr [218; 167]). rewrite <- !app_assoc. rewrite Hr, be_bytes_length.
    reflexivity. }
  rewrite Hrd.
  replace (Size =? Z.of_nat (length payload + 9)) with false
    by (symmetry; apply Z.eqb_neq; exact Hne).
  reflexivity.
Qed.

(** X25.  [Packet_Image::Serialize] of a frame that is not of type
    [CV_8UC3]: [encodeField_Image] returns without writing anything, so
    the packet is 13 bytes long whatever the dimensions and whatever size
    the header announces, and [Deserialize] returns false on it without
    touching the target.  When the announced size [17 + 3*rows*cols] is
    computed without overflow of [int], it differs from 13 and [CheckHash]
    refuses the packet. *)
Theorem Image_Serialize_unsupported_type this TargetPacket :
  Image.type_ (Image.Frame this) <> Image.CV_8UC3 ->
  length (m_data (Image.Serialize this TargetPacket)) = 13%nat /\
  (forall target,
     Image.Deserialize target (Image.Serialize this TargetPacket) = Some (false, target)) /\
  (0 <= Image.rows (Image.Frame this) * Image.cols (Image.Frame this) ->
   17 + Image.rows (Image.Frame this) * Image.cols (Image.Frame this) * 3 < 2^31 ->
   CheckHash (Image.Serialize this TargetPacket) = Some false).
Proof.
  intros Ht.
  set (Size := to_uint32 (9 + 4 + 4 + to_uint32
         (Image.rows (Image.Frame this) * Image.cols (Image.Frame this) * 3))).
  assert (Hd : m_data (Image.Serialize this TargetPacket)
               = frame Size (to_uint8 2) (be_bytes 4 (Image.TargetFPS this))).
  { unfold Image.Serialize. cbv zeta. unfold Image.encodeField_Image.
    replace (Image.type_ (Image.Frame this) =? Image.CV_8UC3) with false
      by (symmetry; apply Z.eqb_neq; exact Ht).
    cbn [negb]. unfold encodeField_float32. rewrite encodeField_uint32_bytes.
    apply Serialize_frame. }
  assert (Hlen : length (m_data (Image.Serialize this TargetPacket)) = 13%nat)
    by (rewrite Hd, frame_length, be_bytes_length; reflexivity).
  split; [exact Hlen|]. split.
  - intros target. unfold Image.Deserialize.
    destruct (CheckHashSizeAndPID_total (Image.Serialize this TargetPacket) 2)
      as [[|] Hc]; rewrite Hc; [|reflexivity].
    rewrite Hlen. reflexivity.
  - intros Hrc Hfit.
    apply (frame_CheckHash_size_mismatch _ _ _ _ Hd).
    + unfold Size, to_uint32. apply Z.mod_pos_bound. lia.
    + rewrite be_bytes_length. unfold Size, to_uint32. mod_small. lia.
Qed.

Lemma Image_Serialize_unsupported_type_witness :
  length (m_data (Image.Serialize gray_image_example fresh_packet)) = 13%nat /\
  (forall target,
     Image.Deserialize target (Image.Serialize gray_image_example fresh_packet)
     = Some (false, target)) /\
  CheckHash (Image.Serialize gray_image_example fresh_packet) = Some false.
Proof.
  destruct (Image_Serialize_unsupported_type gray_image_example fresh_packet)
    as (Hlen & Hd & Hc).
  - vm_compute. discriminate.
  - split; [exact Hlen|]. split; [exact Hd|].
    apply Hc; vm_compute; [discriminate|reflexivity].
Defined.

(* ------------------------------------------------------------------ *)
(** ** Raw images whose dimensions do not match the packet *)

Lemma deref_incr_inside buf it b it' :
  deref_incr buf it = Some (b, it') -> it' = S it /\ (it < length buf)%nat.
Proof.
  intros H. apply deref_incr_inv in H. destruct H as [H ->].
  split; [reflexivity|]. eapply lookup_lt_Some; eauto.
Qed.

Lemma pixel_body_inv I row col buf it I' it' :
  (R <-- decodeField_uint8 ;; G <-- decodeField_uint8 ;; B <-- decodeField_uint8 ;;
   dret (Image.set_at I row col (B, G, R))) buf it = Some (I', it') ->
  it' = (it + 3)%nat /\ (it' <= length buf)%nat /\ Image.cols I' = Image.cols I.
Proof.
  unfold dbind, dret.
  destruct (decodeField_uint8 buf it) as [[R i1]|] eqn:H1; [|discriminate].
  destruct (decodeField_uint8 buf i1) as [[G i2]|] eqn:H2; [|discriminate].
  destruct (decodeField_uint8 buf i2) as [[B i3]|] eqn:H3; [|discriminate].
  intros [= <- <-].
  apply deref_incr_inside in H1, H2, H3. cbn [Image.set_at Image.cols]. lia.
Qed.

Lemma pixel_row_inv row buf l : forall I it I' it',
  Image.dfold
    (fun Image col =>
       R <-- decodeField_uint8 ;; G <-- decodeField_uint8 ;; B <-- decodeField_uint8 ;;
       dret (Image.set_at Image row col (B, G, R))) l I buf it = Some (I', it') ->
  it' = (it + 3 * length l)%nat /\ (l <> [] -> (it' <= length buf)%nat) /\
  Image.cols I' = Image.cols I.
Proof.
  induction l as [|col l IH]; intros I it I' it'; cbn [Image.dfold].
  - intros [= <- <-]. cbn [length]. split; [lia|]. split; [congruence|reflexivity].
  - unfold dbind at 1.
    match goal with
    | |- match ?d buf it with _ => _ end = _ -> _ =>
        destruct (d buf it) as [[I1 it1]|] eqn:Hb; [|discriminate]
    end.
    apply pixel_body_inv in Hb. destruct Hb as (-> & Hle & Hc).
    intros H. apply IH in H. destruct H as (-> & Hle' & Hc').
    cbn [length]. split; [lia|]. split; [|congruence].
    intros _. destruct l as [|col' l]; [cbn [length]; lia|].
    apply Hle'. discriminate.
Qed.

Lemma range_length n : length (Image.range n) = Z.to_nat n.
Proof. unfold Image.range. rewrite length_map, length_seq. reflexivity. Qed.

Lemma pixel_rows_inv buf l : forall I it I' it',
  Image.dfold
    (fun Image row =>
       Image.dfold
         (fun Image col =>
            R <-- decodeField_uint8 ;; G <-- decodeField_uint8 ;; B <-- decodeField_uint8 ;;
            dret (Image.set_at Image row col (B, G, R)))
         (Image.range (Image.cols Image)) Image) l I buf it = Some (I', it') ->
  it' = (it + 3 * (length l * Z.to_nat (Image.cols I)))%nat /\
  (l <> [] -> 0 < Image.cols I -> (it' <= length buf)%nat) /\
  Image.cols I' = Image.cols I.
Proof.
  induction l as [|row l IH]; intros I it I' it'; cbn [Image.dfold].
  - intros [= <- <-]. cbn [length]. split; [lia|]. split; [congruence|reflexivity].
  - unfold dbind at 1.
    match goal with
    | |- match ?d buf it with _ => _ end = _ -> _ =>
        destruct (d buf it) as [[I1 it1]|] eqn:Hb; [|discriminate]
    end.
    apply pixel_row_inv in Hb. destruct Hb as (-> & Hle & Hc).
    rewrite range_length in *.
    intros H. apply IH in H. destruct H as (-> & Hle' & Hc').
    rewrite Hc in *.
    cbn [length]. split; [lia|]. split; [|congruence].
    intros _ Hpos. destruct l as [|row' l].
    + cbn [length]. rewrite Nat.mul_0_l, Nat.mul_0_r, Nat.add_0_r.
      apply Hle. intros Hnil. apply (f_equal (@length Z)) in Hnil.
      rewrite range_length in Hnil. cbn [length] in Hnil. lia.
    + apply Hle'; [discriminate|exact Hpos].
Qed.

Lemma decodeField_Image_dims pre post rows cols :
  is_uint16 rows -> is_uint16 cols ->
  decodeField_uint16 (pre ++ (be_bytes 2 rows ++ be_bytes 2 cols) ++ post) (length pre)
  = Some (rows, (length pre + 2)%nat) /\
  decodeField_uint16 (pre ++ (be_bytes 2 rows ++ be_bytes 2 cols) ++ post) (length pre + 2)%nat
  = Some (cols, (length pre + 4)%nat).
Proof.
  intros Hr Hc. split.
  - rewrite <- (app_assoc (be_bytes 2 rows)).
    rewrite (reads_uint16 rows Hr pre), be_bytes_length. reflexivity.
  - pose proof (reads_uint16 cols Hc (pre ++ be_bytes 2 rows) post) as H.
    rewrite length_app, !be_bytes_length, <- app_assoc in H.
    rewrite <- (app_assoc (be_bytes 2 rows)). rewrite H. f_equal. f_equal. lia.
Qed.

Lemma total_bytes_mod rows cols :
  to_uint32 (to_uint32 (to_uint32 (rows * cols) * 3) + 4) = (3 * rows * cols + 4) mod 2^32.
Proof.
  unfold to_uint32.
  rewrite Zplus_mod_idemp_l.
  rewrite <- (Zplus_mod_idemp_l ((rows * cols) mod 2 ^ 32 * 3)).
  rewrite Zmult_mod_idemp_l, Zplus_mod_idemp_l. f_equal. lia.
Qed.

Lemma decodeField_Image_refuses pre post rows cols MaxBytes :
  is_uint16 rows -> is_uint16 cols -> 4 <= MaxBytes ->
  MaxBytes < 3 * rows * cols + 4 < 2^32 ->
  Image.decodeField_Image MaxBytes
    (pre ++ (be_bytes 2 rows ++ be_bytes 2 cols) ++ post) (length pre)
  = Some ((Image.new_Mat 0 0, 0), (length pre + 4 + Z.to_nat MaxBytes)%nat).
Proof.
  intros Hr Hc Hmin Hmax.
  destruct (decodeField_Image_dims pre post rows cols Hr Hc) as [H1 H2].
  unfold Image.decodeField_Image.
  replace (MaxBytes <? 4) with false by (symmetry; apply Z.ltb_ge; lia).
  unfold dbind at 1. rewrite H1. unfold dbind at 1. rewrite H2. cbv zeta.
  rewrite total_bytes_mod, Z.mod_small by (unfold is_uint16 in *; nia).
  replace (3 * rows * cols + 4 >? MaxBytes) with true
    by (symmetry; rewrite Z.gtb_ltb; apply Z.ltb_lt; lia).
  reflexivity.
Qed.

Lemma decodeField_Image_outside pre post rows cols MaxBytes :
  is_uint16 rows -> is_uint16 cols -> 4 <= MaxBytes ->
  (3 * rows * cols + 4) mod 2^32 <= MaxBytes ->
  Z.of_nat (length post) < 3 * rows * cols ->
  Image.decodeField_Image MaxBytes
    (pre ++ (be_bytes 2 rows ++ be_bytes 2 cols) ++ post) (length pre) = None.
Proof.
  intros Hr Hc Hmin Hwrap Hshort.
  destruct (decodeField_Image_dims pre post rows cols Hr Hc) as [H1 H2].
  unfold Image.decodeField_Image.
  replace (MaxBytes <? 4) with false by (symmetry; apply Z.ltb_ge; lia).
  unfold dbind at 1. rewrite H1. unfold dbind at 1. rewrite H2. cbv zeta.
  rewrite total_bytes_mod.
  replace ((3 * rows * cols + 4) mod 2 ^ 32 >? MaxBytes) with false
    by (symmetry; rewrite Z.gtb_ltb; apply Z.ltb_ge; lia).
  unfold dbind at 1.
  match goal with
  | |- match ?d ?buf ?it with _ => _ end = _ =>
      destruct (d buf it) as [[I' it']|] eqn:Hl; [|reflexivity]
  end.
  exfalso. apply pixel_rows_inv in Hl. destruct Hl as (-> & Hle & _).
  rewrite range_length in *.
  cbn [Image.new_Mat Image.rows Image.cols] in *.
  unfold is_uint16 in *.
  assert (0 < rows /\ 0 < cols) as [Hrp Hcp] by nia.
  specialize (Hle ltac:(intros Hnil; apply (f_equal (@length Z)) in Hnil;
                        rewrite range_length in Hnil; cbn [length] in Hnil; lia) Hcp).
  rewrite !length_app, !be_bytes_length in Hle. nia.
Qed.

Lemma image_frame_valid p fps rows cols rest :
  m_data p = image_frame fps rows cols rest ->
  Z.of_nat (length rest + 17) < 2^32 ->
  length (m_data p) = (length rest + 17)%nat /\
  CheckHashSizeAndPID p 2 = Some true.
Proof.
  intros Hd Hfit. unfold image_frame in Hd. split.
  - rewrite Hd, frame_length, !length_app, !be_bytes_length. lia.
  - rewrite (frame_CheckHashSizeAndPID p _ _ _ 2 Hd); [reflexivity| |exact Hfit].
    rewrite !length_app, !be_bytes_length. f_equal. lia.
Qed.

Lemma image_frame_fields p fps rows cols rest :
  m_data p = image_frame fps rows cols rest -> is_uint32 fps ->
  exists pre post,
    m_data p = pre ++ (be_bytes 2 rows ++ be_bytes 2 cols) ++ post /\
    length pre = 11%nat /\ length post = (length rest + 2)%nat /\
    decodeField_float32 (m_data p) 7%nat = Some (fps, 11%nat).
Proof.
  intros Hd Hfps. unfold image_frame, frame, frame_body in Hd.
  set (h := [fst _; snd _]) in Hd.
  exists (([218; 167] ++ be_bytes 4 (Z.of_nat (length rest + 17)) ++ [to_uint8 2])
            ++ be_bytes 4 fps), (rest ++ h).
  split; [rewrite Hd, <- !app_assoc; reflexivity|].
  split; [rewrite !length_app, !be_bytes_length; reflexivity|].
  split; [rewrite length_app; reflexivity|].
  rewrite Hd.
  pose proof (reads_float32 fps Hfps
                ([218; 167] ++ be_bytes 4 (Z.of_nat (length rest + 17)) ++ [to_uint8 2])
                (be_bytes 2 rows ++ be_bytes 2 cols ++ rest ++ h)) as H.
  rewrite !length_app, !be_bytes_length in H. cbn [length Nat.add] in H.
  rewrite <- !app_assoc in *. exact H.
Qed.

(** X26.  [Packet_Image::Deserialize] on a valid packet that announces more
    pixels than it carries (and whose byte count [3*rows*cols + 4] does not
    wrap): [decodeField_Image] gives up after reading the dimensions, the
    method returns true all the same, with an empty 0 by 0 frame, and the
    iterator, advanced by [MaxBytes] from behind the dimensions, is left
    two positions behind the end of [m_data]. *)
Theorem Image_Deserialize_truncated p fps rows cols rest target :
  m_data p = image_frame fps rows cols rest ->
  Z.of_nat (length rest + 17) < 2^32 ->
  is_uint32 fps -> is_uint16 rows -> is_uint16 cols ->
  Z.of_nat (length rest) < 3 * rows * cols -> 3 * rows * cols + 4 < 2^32 ->
  Image.decode_fields (length (m_data p)) (m_data p) 7%nat
  = Some ({| Image.TargetFPS := fps; Image.Frame := Image.new_Mat 0 0 |},
          (length (m_data p) + 2)%nat) /\
  Image.Deserialize target p
  = Some (true, {| Image.TargetFPS := fps; Image.Frame := Image.new_Mat 0 0 |}).
Proof.
  intros Hd Hfit Hfps Hr Hc Hshort Hnowrap.
  destruct (image_frame_valid p fps rows cols rest Hd Hfit) as [Hlen Hv].
  destruct (image_frame_fields p fps rows cols rest Hd Hfps)
    as (pre & post & Hsplit & Hpre & Hpost & Hf).
  assert (Hdec : Image.decode_fields (length (m_data p)) (m_data p) 7%nat
                 = Some ({| Image.TargetFPS := fps; Image.Frame := Image.new_Mat 0 0 |},
                         (length (m_data p) + 2)%nat)).
  { unfold Image.decode_fields. unfold dbind at 1. rewrite Hf. cbv zeta.
    rewrite Hlen.
    replace (to_uint32 (to_uint32 (Z.of_nat (length rest + 17)) - 9 - 4))
      with (Z.of_nat (length rest) + 4) by (unfold to_uint32; mod_small; lia).
    unfold dbind at 1.
    rewrite Hsplit, <- Hpre.
    rewrite (decodeField_Image_refuses pre post rows cols _ Hr Hc) by lia.
    unfold dret. cbn [fst]. f_equal. f_equal. lia. }
  split; [exact Hdec|].
  unfold Image.Deserialize. rewrite Hv, Hlen.
  replace (length rest + 17 <? 9 + 8)%nat with false by (symmetry; apply Nat.ltb_ge; lia).
  unfold decode_payload. rewrite <- Hlen, Hdec. reflexivity.
Qed.

Lemma Image_Deserialize_truncated_witness :
  Image.decode_fields (length (m_data truncated_image_packet))
                      (m_data truncated_image_packet) 7%nat
  = Some ({| Image.TargetFPS := 0x41200000; Image.Frame := Image.new_Mat 0 0 |},
          (length (m_data truncated_image_packet) + 2)%nat) /\
  Image.Deserialize image_example truncated_image_packet
  = Some (true, {| Image.TargetFPS := 0x41200000; Image.Frame := Image.new_Mat 0 0 |}).
Proof.
  apply (Image_Deserialize_truncated truncated_image_packet 0x41200000 100 100
           [1; 2; 3; 4; 5; 6] image_example).
  - reflexivity.
  - vm_compute. reflexivity.
  - in_range.
  - in_range.
  - in_range.
  - vm_compute. reflexivity.
  - vm_compute. reflexivity.
Defined.

(** X27.  [Packet_Image::Deserialize] reads outside the vector on a valid
    packet: [decodeField_Image] compares [3*rows*cols + 4] with the bytes
    that are left after reducing it modulo 2^32, so when the announced
    dimensions make that number wrap to at most the bytes at hand, the
    check passes and the pixel loops run beyond the end of [m_data].
    Such a frame takes at least 4 GiB: this is the behaviour when its
    allocation succeeds, as it always does in the embedding. *)
Theorem Image_Deserialize_reads_outside p fps rows cols rest target :
  m_data p = image_frame fps rows cols rest ->
  Z.of_nat (length rest + 17) < 2^32 ->
  is_uint32 fps -> is_uint16 rows -> is_uint16 cols ->
  (3 * rows * cols + 4) mod 2^32 <= Z.of_nat (length rest) + 4 ->
  Z.of_nat (length rest) + 2 < 3 * rows * cols ->
  CheckHashSizeAndPID p 2 = Some true /\
  Image.Deserialize target p = None.
Proof.
  intros Hd Hfit Hfps Hr Hc Hwrap Hshort.
  destruct (image_frame_valid p fps rows cols rest Hd Hfit) as [Hlen Hv].
  destruct (image_frame_fields p fps rows cols rest Hd Hfps)
    as (pre & post & Hsplit & Hpre & Hpost & Hf).
  split; [exact Hv|].
  unfold Image.Deserialize. rewrite Hv, Hlen.
  replace (length rest + 17 <? 9 + 8)%nat with false by (symmetry; apply Nat.ltb_ge; lia).
  unfold decode_payload, Image.decode_fields. unfold dbind at 1. rewrite Hf. cbv zeta.
  replace (to_uint32 (to_uint32 (Z.of_nat (length rest + 17)) - 9 - 4))
    with (Z.of_nat (length rest) + 4) by (unfold to_uint32; mod_small; lia).
  unfold dbind at 1.
  rewrite Hsplit, <- Hpre.
  rewrite (decodeField_Image_outside pre post rows cols _ Hr Hc) by lia.
  reflexivity.
Qed.

Lemma Image_Deserialize_reads_outside_witness :
  CheckHashSizeAndPID wrapping_image_packet 2 = Some true /\
  Image.Deserialize image_example wrapping_image_packet = None.
Proof.
  apply (Image_Deserialize_reads_outside wrapping_image_packet 0x41200000 45761 62571
           [7] image_example).
  - reflexivity.
  - vm_compute. reflexivity.
  - in_range.
  - in_range.
  - in_range.
  - vm_compute. discriminate.
  - vm_compute. reflexivity.
Defined.

(* ------------------------------------------------------------------ *)
(** ** [Packet_CompressedImage::Deserialize] *)


(** X29.  [Packet_CompressedImage::Deserialize] returns on every buffer,
    valid or not: the range of bytes that it copies for the JPEG decoder
    never ends behind the end of [m_data]. *)
Theorem CompressedImage_Deserialize_never_reads_outside {Mat : Type}
      (is_CV_8UC3 : Mat -> bool) (imdecode_color : list Z -> Mat) (empty_Mat : Mat)
      (target : CompressedImage.Packet_CompressedImage Mat) (src : Packet) :
  exists r, CompressedImage.Deserialize Mat is_CV_8UC3 imdecode_color empty_Mat target src
            = Some r.
Proof.
  unfold CompressedImage.Deserialize.
  destruct (CheckHashSizeAndPID_total src 5) as [[|] Hc]; rewrite Hc; [|eauto].
  apply CheckHashSizeAndPID_true in Hc. destruct Hc as (_ & Hmin & Hmax & _).
  destruct (length (m_data src) <? 9 + 4)%nat eqn:Hlen; [eauto|].
  apply Nat.ltb_ge in Hlen.
  unfold decode_payload, CompressedImage.decode_fields. unfold dbind at 1.
  destruct (consumes_uint32 (m_data src) 7%nat ltac:(lia)) as [fps Hf].
  unfold decodeField_float32. rewrite Hf. cbv zeta.
  unfold dbind at 1. unfold CompressedImage.decodeField_CompressedImage.
  replace (to_uint32 (to_uint32 (Z.of_nat (length (m_data src))) - 9 - 4))
    with (Z.of_nat (length (m_data src)) - 13) by (unfold to_uint32; mod_small; lia).
  replace (7 + 4 + Z.to_nat (Z.of_nat (length (m_data src)) - 13)
           <=? length (m_data src))%nat with true
    by (symmetry; apply Nat.leb_le; lia).
  cbv zeta. destruct (negb _); unfold dret; eauto.
Qed.


Lemma signed_codec_roundtrip_witness :
  decodeField_int8 (encodeField_int8 [218] (-2) ++ [5]) 1%nat = Some (-2, 2%nat) /\
  decodeField_int16 (encodeField_int16 [218] (-300) ++ [5]) 1%nat = Some (-300, 3%nat) /\
  decodeField_int32 (encodeField_int32 [218] (-70000) ++ [5]) 1%nat = Some (-70000, 5%nat) /\
  decodeField_int64 (encodeField_int64 [218] (-5000000000) ++ [5]) 1%nat
  = Some (-5000000000, 9%nat).
Proof.
  destruct (signed_codec_roundtrip [218] [5]) as (H8 & H16 & H32 & H64).
  split; [apply H8; in_range|].
  split; [apply H16; in_range|].
  split; [apply H32; in_range|apply H64; in_range].
Defined.
